(** * RSU selection for moving vehicles: link quality, connection duration,
      greedy selection and the time-expanded handover graph.

    The development embeds the decision logic of the driver scripts
    ([run_simulation_base.py], [run_simulation_smart.py],
    [run_simulation_b-aware.py], [run_i10west_simulation_base.py],
    [run_i10west_simulation_smart.py], [run_chandleraz_simulation_base.py],
    [run_chandleraz_simulation_smart.py] and
    [run_chandleraz_simulation_b-aware.py]) as Rocq functions and proves
    properties of them.

    Numbers.  Python floats are idealised as real numbers ([R]): [math.sqrt],
    [math.cos], [math.sin] and [math.radians] are the real functions, [/] is
    real division, and comparisons of floats are comparisons of reals.
    Rounding, overflow and NaN are outside the model; the one place where a
    script produces an infinite float on purpose has a type of its own
    ([XR]).  Python integers (tick counters, RSU identities, durations) are
    [Z].

    The simulator.  The scripts query the running simulator through the
    [traci] module.  One tick of its state is a record [Traci] holding what
    the queries answer; the scripts never modify it.  A run of the simulator
    is the function from the step to the state at that step. *)

From Stdlib Require Import Reals Lra Lia ZArith QArith Qreals List Bool String Sorted
  Permutation.
Import ListNotations.

Local Open Scope R_scope.

(** ** Comparisons of reals as booleans *)

Definition Rltb (a b : R) : bool := if Rlt_dec a b then true else false.
Definition Rleb (a b : R) : bool := if Rle_dec a b then true else false.
Definition Reqb (a b : R) : bool := if Req_dec_T a b then true else false.

(** ** Data shared by the scripts *)

(** [class RSU]: identity and fixed position.  (The [connected_vehicles]
    list some variants keep on the object is a log of past associations; no
    decision reads it.) *)
Record RSU : Type := mkRSU { rsu_id : Z; rsu_x : R; rsu_y : R }.

Definition Pos : Type := (R * R)%type.

(** What the simulator answers during one tick. *)
Record Traci : Type := mkTraci {
  getIDList : list string;
  getPosition : string -> Pos;
  getSpeed : string -> R;
  getAngle : string -> R;
  getLength : string -> R;
  getWidth : string -> R
}.

(** [math.sqrt((p[0] - rsu.x) ** 2 + (p[1] - rsu.y) ** 2)] *)
Definition distance_to (p : Pos) (rsu : RSU) : R :=
  sqrt ((fst p - rsu_x rsu) ^ 2 + (snd p - rsu_y rsu) ^ 2).

(** [math.dist(p, q)] *)
Definition math_dist (p q : Pos) : R :=
  sqrt ((fst p - fst q) ^ 2 + (snd p - snd q) ^ 2).

(** [math.radians] *)
Definition radians (deg : R) : R := deg * PI / 180.

(** The bounding-box test shared by the obstacle checks:
    [min(p[0], rsu.x) <= o[0] <= max(p[0], rsu.x) and
     min(p[1], rsu.y) <= o[1] <= max(p[1], rsu.y)]. *)
Definition in_los_box (p : Pos) (rsu : RSU) (o : Pos) : bool :=
  (Rleb (Rmin (fst p) (rsu_x rsu)) (fst o) && Rleb (fst o) (Rmax (fst p) (rsu_x rsu)))
  && (Rleb (Rmin (snd p) (rsu_y rsu)) (snd o) && Rleb (snd o) (Rmax (snd p) (rsu_y rsu))).

(** [range(start, stop, step)]; [None] is Python's [ValueError] for a zero
    step. *)
Definition range_len (start stop step : Z) : Z :=
  if (0 <? step)%Z then
    if (start <? stop)%Z then ((stop - start - 1) / step + 1)%Z else 0%Z
  else
    if (stop <? start)%Z then ((start - stop - 1) / (- step) + 1)%Z else 0%Z.

Definition py_range (start stop step : Z) : option (list Z) :=
  if (step =? 0)%Z then None
  else Some (map (fun i => (start + Z.of_nat i * step)%Z)
                 (seq 0 (Z.to_nat (range_len start stop step)))).

Example py_range_10_3 : py_range 1 11 3 = Some [1; 4; 7; 10]%Z.
Proof. reflexivity. Qed.

(** [range(start, stop)], the form with step 1, which cannot fail. *)
Definition range2 (start stop : Z) : list Z :=
  map (fun i => (start + Z.of_nat i)%Z) (seq 0 (Z.to_nat (stop - start))).

Example range2_1_11 : range2 1 11 = [1; 2; 3; 4; 5; 6; 7; 8; 9; 10]%Z.
Proof. reflexivity. Qed.

(** ** The tick loop of the driver scripts

    [sim step] is the state of the simulator after the call
    [traci.simulationStep()] of iteration [step]; the scripts only read
    it. *)
Definition Simulator : Type := Z -> Traci.

(** [if best_rsu: log_writer.writerow(row)]: the rows written, none or one. *)
Definition written {A : Type} (row : option A) : list A :=
  match row with
  | Some r => [r]
  | None => []
  end.

Section TickLoop.
Context {Row : Type}.

(** The rows the body of [for vehicle_id in vehicle_ids] writes for one
    vehicle. *)
Variable vehicle_rows : Traci -> Z -> string -> list Row.

(** [vehicle_ids = traci.vehicle.getIDList(); for vehicle_id in vehicle_ids: ...] *)
Definition step_rows (traci : Traci) (step : Z) : list Row :=
  flat_map (vehicle_rows traci step) (getIDList traci).

(** [for step in range(...): traci.simulationStep(); vehicle_ids = ...;
    if not vehicle_ids: break; for vehicle_id in vehicle_ids: ...], over the
    steps still to run. *)
Fixpoint run_until_empty (sim : Simulator) (steps : list Z) : list Row :=
  match steps with
  | [] => []
  | step :: rest =>
      match getIDList (sim step) with
      | [] => []
      | _ :: _ => step_rows (sim step) step ++ run_until_empty sim rest
      end
  end.

(** The same loop in the scripts that have no [break]. *)
Definition run_all (sim : Simulator) (steps : list Z) : list Row :=
  flat_map (fun step => step_rows (sim step) step) steps.

End TickLoop.

(** ** The link-quality formula as the specification words it

    [strength(distance, blocked, block_penalty)]: 1 at distance 0, otherwise
    [max(0, 1/(1+effective))] with
    [effective = distance * (blocked ? block_penalty : 1)]. *)
Definition spec_strength (distance : R) (blocked : bool) (block_penalty : R) : R :=
  if Reqb distance 0 then 1
  else
    let effective := distance * (if blocked then block_penalty else 1) in
    Rmax 0 (1 / (1 + effective)).

(** ** [run_simulation_base.py]: Greedy-Current *)

Module Base.

(** One emitted row: [step, vehicle_id, best_rsu.id, best_signal]. *)
Record Row : Type := mkRow {
  row_step : Z; row_vehicle : string; row_rsu : Z; row_signal : R
}.

Section Tick.
Variable traci : Traci.

(** The loop of [check_for_obstacles] over the identifiers still to visit:
    the subject vehicle is skipped, the first obstacle inside the box
    answers [True]. *)
Fixpoint check_obstacle_ids (vehicle_pos : Pos) (rsu : RSU) (vehicle_id : string)
    (obstacles : list string) : bool :=
  match obstacles with
  | [] => false
  | obstacle_id :: rest =>
      if String.eqb obstacle_id vehicle_id then
        check_obstacle_ids vehicle_pos rsu vehicle_id rest
      else if in_los_box vehicle_pos rsu (getPosition traci obstacle_id) then true
      else check_obstacle_ids vehicle_pos rsu vehicle_id rest
  end.

Definition check_for_obstacles (vehicle_pos : Pos) (rsu : RSU) (vehicle_id : string) : bool :=
  check_obstacle_ids vehicle_pos rsu vehicle_id (getIDList traci).

Definition calculate_signal_strength (vehicle_pos : Pos) (rsu : RSU) (vehicle_id : string) : R :=
  let distance := distance_to vehicle_pos rsu in
  if Reqb distance 0 then 1
  else
    let is_blocked := check_for_obstacles vehicle_pos rsu vehicle_id in
    if is_blocked then Rmax 0 (1 / (1 + distance * 5))
    else Rmax 0 (1 / (1 + distance)).

(** The body of [for rsu in rsus] on the pair [(best_rsu, best_signal)]. *)
Definition select_step (vehicle_pos : Pos) (vehicle_id : string)
    (best : option RSU * R) (rsu : RSU) : option RSU * R :=
  let signal_strength := calculate_signal_strength vehicle_pos rsu vehicle_id in
  if Rltb (snd best) signal_strength then (Some rsu, signal_strength) else best.

(** [best_rsu = None; best_signal = 0; for rsu in rsus: ...] *)
Definition select_rsu (vehicle_id : string) (rsus : list RSU) : option RSU * R :=
  let vehicle_pos := getPosition traci vehicle_id in
  fold_left (select_step vehicle_pos vehicle_id) rsus (None, 0).

(** [if best_rsu: log_writer.writerow(...)] *)
Definition vehicle_row (step : Z) (vehicle_id : string) (rsus : list RSU) : option Row :=
  match select_rsu vehicle_id rsus with
  | (Some best_rsu, best_signal) => Some (mkRow step vehicle_id (rsu_id best_rsu) best_signal)
  | (None, _) => None
  end.

End Tick.

(** [run_simulation]: [for step in range(500)], leaving the loop at the
    first step without vehicles. *)
Definition run_simulation (sim : Simulator) (rsus : list RSU) : list Row :=
  run_until_empty
    (fun traci step vehicle_id => written (vehicle_row traci step vehicle_id rsus))
    sim (range2 0 500).

End Base.

(** ** [run_i10west_simulation_base.py]: Greedy-Current, every vehicle an
       obstacle *)

Module I10Base.
Section Tick.
Variable traci : Traci.

(** The loop of [check_for_obstacles] over the identifiers still to visit. *)
Fixpoint check_obstacle_ids (vehicle_pos : Pos) (rsu : RSU) (obstacles : list string) : bool :=
  match obstacles with
  | [] => false
  | obstacle_id :: rest =>
      if in_los_box vehicle_pos rsu (getPosition traci obstacle_id) then true
      else check_obstacle_ids vehicle_pos rsu rest
  end.

Definition check_for_obstacles (vehicle_pos : Pos) (rsu : RSU) : bool :=
  check_obstacle_ids vehicle_pos rsu (getIDList traci).

Definition calculate_signal_strength (vehicle_pos : Pos) (rsu : RSU) : R :=
  let distance := distance_to vehicle_pos rsu in
  if Reqb distance 0 then 1
  else
    let is_blocked := check_for_obstacles vehicle_pos rsu in
    if is_blocked then Rmax 0 (1 / (1 + distance * 5))
    else Rmax 0 (1 / (1 + distance)).

(** The body of [for rsu in rsus] on the pair [(best_rsu, best_signal)]. *)
Definition select_step (vehicle_pos : Pos) (best : option RSU * R) (rsu : RSU)
    : option RSU * R :=
  let signal_strength := calculate_signal_strength vehicle_pos rsu in
  if Rltb (snd best) signal_strength then (Some rsu, signal_strength) else best.

Definition select_rsu (vehicle_id : string) (rsus : list RSU) : option RSU * R :=
  let vehicle_pos := getPosition traci vehicle_id in
  fold_left (select_step vehicle_pos) rsus (None, 0).

Definition vehicle_row (step : Z) (vehicle_id : string) (rsus : list RSU)
    : option Base.Row :=
  match select_rsu vehicle_id rsus with
  | (Some best_rsu, best_signal) =>
      Some (Base.mkRow step vehicle_id (rsu_id best_rsu) best_signal)
  | (None, _) => None
  end.

End Tick.

(** [run_simulation]: [for step in range(100)], leaving the loop at the
    first step without vehicles. *)
Definition run_simulation (sim : Simulator) (rsus : list RSU) : list Base.Row :=
  run_until_empty
    (fun traci step vehicle_id => written (vehicle_row traci step vehicle_id rsus))
    sim (range2 0 100).

End I10Base.

(** ** [run_chandleraz_simulation_base.py]: Greedy-Current, the box widened
       by the obstacle's dimensions *)

Module ChandlerBase.
Section Tick.
Variable traci : Traci.

(** [min(p[0], rsu.x) <= o[0] <= max(p[0], rsu.x) + obstacle_length and
     min(p[1], rsu.y) <= o[1] <= max(p[1], rsu.y) + obstacle_width] *)
Definition in_widened_box (vehicle_pos : Pos) (rsu : RSU) (obstacle_pos : Pos)
    (obstacle_length obstacle_width : R) : bool :=
  (Rleb (Rmin (fst vehicle_pos) (rsu_x rsu)) (fst obstacle_pos)
   && Rleb (fst obstacle_pos) (Rmax (fst vehicle_pos) (rsu_x rsu) + obstacle_length))
  && (Rleb (Rmin (snd vehicle_pos) (rsu_y rsu)) (snd obstacle_pos)
      && Rleb (snd obstacle_pos) (Rmax (snd vehicle_pos) (rsu_y rsu) + obstacle_width)).

(** The loop of [check_for_obstacles] over the identifiers still to visit. *)
Fixpoint check_obstacle_ids (vehicle_pos : Pos) (rsu : RSU) (obstacles : list string) : bool :=
  match obstacles with
  | [] => false
  | obstacle_id :: rest =>
      let obstacle_pos := getPosition traci obstacle_id in
      let obstacle_length := getLength traci obstacle_id in
      let obstacle_width := getWidth traci obstacle_id in
      if in_widened_box vehicle_pos rsu obstacle_pos obstacle_length obstacle_width then true
      else check_obstacle_ids vehicle_pos rsu rest
  end.

Definition check_for_obstacles (vehicle_pos : Pos) (rsu : RSU) : bool :=
  check_obstacle_ids vehicle_pos rsu (getIDList traci).

Definition calculate_signal_strength (vehicle_pos : Pos) (rsu : RSU) : R :=
  let distance := distance_to vehicle_pos rsu in
  if Reqb distance 0 then 1
  else
    let is_blocked := check_for_obstacles vehicle_pos rsu in
    if is_blocked then Rmax 0 (1 / (1 + distance * 5))
    else Rmax 0 (1 / (1 + distance)).

(** The body of [for rsu in rsus] on the pair [(best_rsu, best_signal)]. *)
Definition select_step (vehicle_pos : Pos) (best : option RSU * R) (rsu : RSU)
    : option RSU * R :=
  let signal_strength := calculate_signal_strength vehicle_pos rsu in
  if Rltb (snd best) signal_strength then (Some rsu, signal_strength) else best.

Definition select_rsu (vehicle_id : string) (rsus : list RSU) : option RSU * R :=
  let vehicle_pos := getPosition traci vehicle_id in
  fold_left (select_step vehicle_pos) rsus (None, 0).

Definition vehicle_row (step : Z) (vehicle_id : string) (rsus : list RSU)
    : option Base.Row :=
  match select_rsu vehicle_id rsus with
  | (Some best_rsu, best_signal) =>
      Some (Base.mkRow step vehicle_id (rsu_id best_rsu) best_signal)
  | (None, _) => None
  end.

End Tick.

(** [run_simulation]: [for step in range(100)], leaving the loop at the
    first step without vehicles. *)
Definition run_simulation (sim : Simulator) (rsus : list RSU) : list Base.Row :=
  run_until_empty
    (fun traci step vehicle_id => written (vehicle_row traci step vehicle_id rsus))
    sim (range2 0 100).

End ChandlerBase.

(** ** [run_simulation_smart.py]: Greedy-Lookahead with the bounding-box
       obstacle test *)

Module Smart.

(** One emitted row:
    [step, vehicle_id, best_rsu.id, signal_strength, connection_duration, best_score]. *)
Record Row : Type := mkRow {
  row_step : Z; row_vehicle : string; row_rsu : Z;
  row_signal : R; row_duration : Z; row_score : R
}.

Definition predict_future_position (vehicle_pos : Pos)
    (vehicle_speed vehicle_angle time_ahead : R) : Pos :=
  let delta_x := vehicle_speed * time_ahead * cos (radians vehicle_angle) in
  let delta_y := vehicle_speed * time_ahead * sin (radians vehicle_angle) in
  (fst vehicle_pos + delta_x, snd vehicle_pos + delta_y).

Section Tick.
Variable traci : Traci.

(** The [for t in range(...)] loop of [estimate_connection_duration] over
    the ticks still to visit; [break] returns the duration reached. *)
Fixpoint duration_loop (vehicle_id : string) (rsu : RSU) (step_size : Z)
    (ticks : list Z) (duration : Z) : Z :=
  match ticks with
  | [] => duration
  | t :: rest =>
      let future_pos :=
        predict_future_position (getPosition traci vehicle_id)
          (getSpeed traci vehicle_id) (getAngle traci vehicle_id) (IZR t) in
      let distance := distance_to future_pos rsu in
      if Rltb 400 distance then duration
      else duration_loop vehicle_id rsu step_size rest (duration + step_size)
  end.

(** [None] is the [ValueError] of [range] for [step_size = 0]. *)
Definition estimate_connection_duration (vehicle_id : string) (rsu : RSU)
    (max_duration step_size : Z) : option Z :=
  match py_range 1 (max_duration + 1) step_size with
  | None => None
  | Some ticks => Some (duration_loop vehicle_id rsu step_size ticks 0)
  end.

(** The loop of [check_for_obstacles] over the identifiers still to visit;
    every identifier of the simulator is an obstacle. *)
Fixpoint check_obstacle_ids (vehicle_pos : Pos) (rsu : RSU) (obstacles : list string) : bool :=
  match obstacles with
  | [] => false
  | obstacle_id :: rest =>
      if in_los_box vehicle_pos rsu (getPosition traci obstacle_id) then true
      else check_obstacle_ids vehicle_pos rsu rest
  end.

Definition check_for_obstacles (vehicle_pos : Pos) (rsu : RSU) : bool :=
  check_obstacle_ids vehicle_pos rsu (getIDList traci).

Definition calculate_signal_strength (predicted_pos : Pos) (rsu : RSU) : R :=
  let distance := distance_to predicted_pos rsu in
  if Reqb distance 0 then 1
  else
    let is_blocked := check_for_obstacles predicted_pos rsu in
    if is_blocked then Rmax 0 (1 / (1 + distance * 5))
    else Rmax 0 (1 / (1 + distance)).

(** The variables the selection loop of [run_smart_simulation_with_trajectory]
    leaves behind: [best_rsu], [best_score], and the loop's own
    [signal_strength] and [connection_duration], which hold the values of the
    RSU visited last ([None] before the first iteration). *)
Record Vars : Type := mkVars {
  best_rsu : option RSU;
  best_score : R;
  signal_strength : option R;
  connection_duration : option Z
}.

(** The body of [for rsu in rsus]; [None] when the body raises. *)
Definition select_step (vehicle_id : string) (predicted_pos : Pos)
    (vars : option Vars) (rsu : RSU) : option Vars :=
  match vars with
  | None => None
  | Some v =>
      let signal_strength := calculate_signal_strength predicted_pos rsu in
      match estimate_connection_duration vehicle_id rsu 10 1 with
      | None => None
      | Some connection_duration =>
          let score := signal_strength * IZR connection_duration in
          if Rltb (best_score v) score
          then Some (mkVars (Some rsu) score (Some signal_strength) (Some connection_duration))
          else Some (mkVars (best_rsu v) (best_score v)
                            (Some signal_strength) (Some connection_duration))
      end
  end.

Definition select_rsu (vehicle_id : string) (rsus : list RSU) : option Vars :=
  let vehicle_pos := getPosition traci vehicle_id in
  let vehicle_speed := getSpeed traci vehicle_id in
  let vehicle_angle := getAngle traci vehicle_id in
  let predicted_pos := predict_future_position vehicle_pos vehicle_speed vehicle_angle 2 in
  fold_left (select_step vehicle_id predicted_pos) rsus (Some (mkVars None 0 None None)).

(** [if best_rsu: log_writer.writerow([step, vehicle_id, best_rsu.id,
    signal_strength, connection_duration, best_score])]: the row, if one is
    written. *)
Definition vehicle_row (step : Z) (vehicle_id : string) (rsus : list RSU) : option Row :=
  match select_rsu vehicle_id rsus with
  | Some (mkVars (Some best) score (Some signal) (Some duration)) =>
      Some (mkRow step vehicle_id (rsu_id best) signal duration score)
  | _ => None
  end.

End Tick.

(** [run_smart_simulation_with_trajectory]: [for step in range(500)],
    leaving the loop at the first step without vehicles. *)
Definition run_simulation (sim : Simulator) (rsus : list RSU) : list Row :=
  run_until_empty
    (fun traci step vehicle_id => written (vehicle_row traci step vehicle_id rsus))
    sim (range2 0 500).

End Smart.

(** ** [run_chandleraz_simulation_smart.py]: rollout with predicted obstacles *)

Module ChandlerSmart.
Section Tick.
Variable traci : Traci.

Definition predict_future_position (vehicle_id : string) (time_ahead : R) : Pos :=
  let pos := getPosition traci vehicle_id in
  let speed := getSpeed traci vehicle_id in
  let angle := radians (getAngle traci vehicle_id) in
  let future_x := fst pos + speed * time_ahead * cos angle in
  let future_y := snd pos + speed * time_ahead * sin angle in
  (future_x, future_y).

(** The loop of [is_blocking_los] over the identifiers still to visit. *)
Fixpoint blocking_ids (future_vehicle_pos : Pos) (rsu : RSU) (time_ahead : R)
    (obstacles : list string) : bool :=
  match obstacles with
  | [] => false
  | obstacle_id :: rest =>
      let obstacle_pos := predict_future_position obstacle_id time_ahead in
      if in_los_box future_vehicle_pos rsu obstacle_pos then true
      else blocking_ids future_vehicle_pos rsu time_ahead rest
  end.

Definition is_blocking_los (future_vehicle_pos : Pos) (rsu : RSU) (time_ahead : R) : bool :=
  blocking_ids future_vehicle_pos rsu time_ahead (getIDList traci).

Definition calculate_signal_strength (vehicle_pos : Pos) (rsu : RSU) : R :=
  let distance := distance_to vehicle_pos rsu in
  if Reqb distance 0 then 1 else Rmax 0 (1 / (1 + distance)).

(** [if distance > 400 or is_blocking_los(future_pos, rsu, t): break] *)
Fixpoint duration_loop (vehicle_id : string) (rsu : RSU) (step_size : Z)
    (ticks : list Z) (duration : Z) : Z :=
  match ticks with
  | [] => duration
  | t :: rest =>
      let future_pos := predict_future_position vehicle_id (IZR t) in
      let distance := distance_to future_pos rsu in
      if Rltb 400 distance || is_blocking_los future_pos rsu (IZR t) then duration
      else duration_loop vehicle_id rsu step_size rest (duration + step_size)
  end.

Definition estimate_connection_duration (vehicle_id : string) (rsu : RSU)
    (max_duration step_size : Z) : option Z :=
  match py_range 1 (max_duration + 1) step_size with
  | None => None
  | Some ticks => Some (duration_loop vehicle_id rsu step_size ticks 0)
  end.

(** The body of [for rsu in rsus] of [run_simulation], on the variables the
    loop leaves behind; [None] when the body raises. *)
Definition select_step (vehicle_id : string) (predicted_pos : Pos)
    (vars : option Smart.Vars) (rsu : RSU) : option Smart.Vars :=
  match vars with
  | None => None
  | Some v =>
      let signal_strength := calculate_signal_strength predicted_pos rsu in
      match estimate_connection_duration vehicle_id rsu 10 1 with
      | None => None
      | Some connection_duration =>
          let score := signal_strength * IZR connection_duration in
          if Rltb (Smart.best_score v) score
          then Some (Smart.mkVars (Some rsu) score
                       (Some signal_strength) (Some connection_duration))
          else Some (Smart.mkVars (Smart.best_rsu v) (Smart.best_score v)
                       (Some signal_strength) (Some connection_duration))
      end
  end.

Definition select_rsu (vehicle_id : string) (rsus : list RSU) : option Smart.Vars :=
  let predicted_pos := predict_future_position vehicle_id 2 in
  fold_left (select_step vehicle_id predicted_pos) rsus
            (Some (Smart.mkVars None 0 None None)).

(** [if best_rsu: log_writer.writerow([step, vehicle_id, best_rsu.id,
    signal_strength, connection_duration, best_score])] *)
Definition vehicle_row (step : Z) (vehicle_id : string) (rsus : list RSU)
    : option Smart.Row :=
  match select_rsu vehicle_id rsus with
  | Some (Smart.mkVars (Some best) score (Some signal) (Some duration)) =>
      Some (Smart.mkRow step vehicle_id (rsu_id best) signal duration score)
  | _ => None
  end.

End Tick.

(** [run_simulation]: [for step in range(100)]; this script has no [break]. *)
Definition run_simulation (sim : Simulator) (rsus : list RSU) : list Smart.Row :=
  run_all
    (fun traci step vehicle_id => written (vehicle_row traci step vehicle_id rsus))
    sim (range2 0 100).

End ChandlerSmart.

(** ** [run_simulation_b-aware.py]: blockage-aware strength *)

Module BAware.

Definition is_blocking_los (vehicle_pos : Pos) (rsu : RSU) (obstacle_pos : Pos) : bool :=
  Rltb (math_dist vehicle_pos obstacle_pos) (math_dist vehicle_pos (rsu_x rsu, rsu_y rsu)).

(** The body of [for obstacle in obstacles] on the variable [distance]. *)
Definition obstacle_step (vehicle_pos : Pos) (rsu : RSU) (distance : R) (obstacle : Pos) : R :=
  if is_blocking_los vehicle_pos rsu obstacle then distance * 1.5 else distance.

Definition calculate_signal_strength (vehicle_pos : Pos) (rsu : RSU) (obstacles : list Pos) : R :=
  let distance := distance_to vehicle_pos rsu in
  let distance := fold_left (obstacle_step vehicle_pos rsu) obstacles distance in
  if Rltb 0 distance then Rmax 0 (1 / (1 + distance)) else 1.

Section Tick.
Variable traci : Traci.

Definition predict_future_position (vehicle_id : string) (time_ahead : R) : Pos :=
  let pos := getPosition traci vehicle_id in
  let speed := getSpeed traci vehicle_id in
  let angle := radians (getAngle traci vehicle_id) in
  let future_x := fst pos + speed * time_ahead * cos angle in
  let future_y := snd pos + speed * time_ahead * sin angle in
  (future_x, future_y).

(** The [for t in range(...)] loop of [estimate_connection_duration] over
    the ticks still to visit. *)
Fixpoint duration_loop (vehicle_id : string) (rsu : RSU) (step_size : Z)
    (ticks : list Z) (duration : Z) : Z :=
  match ticks with
  | [] => duration
  | t :: rest =>
      let future_pos := predict_future_position vehicle_id (IZR t) in
      let distance := distance_to future_pos rsu in
      if Rltb 400 distance then duration
      else duration_loop vehicle_id rsu step_size rest (duration + step_size)
  end.

Definition estimate_connection_duration (vehicle_id : string) (rsu : RSU)
    (max_duration step_size : Z) : option Z :=
  match py_range 1 (max_duration + 1) step_size with
  | None => None
  | Some ticks => Some (duration_loop vehicle_id rsu step_size ticks 0)
  end.

(** [[traci.vehicle.getPosition(v) for v in traci.vehicle.getIDList()
      if v != vehicle_id]] *)
Definition nearby_obstacles (vehicle_id : string) : list Pos :=
  map (getPosition traci)
      (filter (fun v => negb (String.eqb v vehicle_id)) (getIDList traci)).

(** The body of [for rsu in rsus] of [run_b_aware_simulation], on the
    variables the loop leaves behind; [None] when the body raises. *)
Definition select_step (vehicle_id : string) (vehicle_pos : Pos) (obstacles : list Pos)
    (vars : option Smart.Vars) (rsu : RSU) : option Smart.Vars :=
  match vars with
  | None => None
  | Some v =>
      let signal_strength := calculate_signal_strength vehicle_pos rsu obstacles in
      match estimate_connection_duration vehicle_id rsu 10 1 with
      | None => None
      | Some connection_duration =>
          let score := signal_strength * IZR connection_duration in
          if Rltb (Smart.best_score v) score
          then Some (Smart.mkVars (Some rsu) score
                       (Some signal_strength) (Some connection_duration))
          else Some (Smart.mkVars (Smart.best_rsu v) (Smart.best_score v)
                       (Some signal_strength) (Some connection_duration))
      end
  end.

Definition select_rsu (vehicle_id : string) (rsus : list RSU) : option Smart.Vars :=
  let vehicle_pos := getPosition traci vehicle_id in
  let nearby_obstacles := nearby_obstacles vehicle_id in
  fold_left (select_step vehicle_id vehicle_pos nearby_obstacles) rsus
            (Some (Smart.mkVars None 0 None None)).

(** [if best_rsu: log_writer.writerow([step, vehicle_id, best_rsu.id,
    signal_strength, connection_duration, best_score])] *)
Definition vehicle_row (step : Z) (vehicle_id : string) (rsus : list RSU)
    : option Smart.Row :=
  match select_rsu vehicle_id rsus with
  | Some (Smart.mkVars (Some best) score (Some signal) (Some duration)) =>
      Some (Smart.mkRow step vehicle_id (rsu_id best) signal duration score)
  | _ => None
  end.

End Tick.

(** [run_b_aware_simulation]: [for step in range(500)], leaving the loop at
    the first step without vehicles. *)
Definition run_simulation (sim : Simulator) (rsus : list RSU) : list Smart.Row :=
  run_until_empty
    (fun traci step vehicle_id => written (vehicle_row traci step vehicle_id rsus))
    sim (range2 0 500).

End BAware.

(** ** Directed graphs with weighted edges, as the scheduler uses
       [nx.DiGraph]

    A node is a pair [(name, tick)] whose name is the string ["start"], the
    string ["end"] or the integer identity of an RSU. *)

Inductive NodeName : Type :=
| start_name : NodeName
| end_name : NodeName
| rsu_name : Z -> NodeName.

Definition Node : Type := (NodeName * Z)%type.

Definition name_eqb (a b : NodeName) : bool :=
  match a, b with
  | start_name, start_name => true
  | end_name, end_name => true
  | rsu_name i, rsu_name j => (i =? j)%Z
  | _, _ => false
  end.

Definition node_eqb (a b : Node) : bool :=
  name_eqb (fst a) (fst b) && (snd a =? snd b)%Z.

(** Nodes in the order they were added; edges in the order they were first
    added, one entry per ordered pair of nodes. *)
Record DiGraph : Type := mkDiGraph {
  nodes : list Node;
  edges : list (Node * Node * R)
}.

Definition empty_graph : DiGraph := mkDiGraph [] [].

(** A Python [set] of nodes, kept as a list without repetition.  Python does
    not fix the order in which a set is iterated (CPython follows the hash
    table); the list is iterated in the order of insertion.  The order
    decides in which order the edges into a node are added.  For the
    relaxation pass this only decides which of several equally good paths is
    returned; the library's search takes the predecessors of a node in that
    order, so there it can change the path returned. *)
Definition set_add (n : Node) (s : list Node) : list Node :=
  if existsb (node_eqb n) s then s else s ++ [n].

(** [G.add_node(n)]: no effect when the node is there. *)
Definition add_node (G : DiGraph) (n : Node) : DiGraph :=
  mkDiGraph (set_add n (nodes G)) (edges G).

(** The edge table after [G.add_edge(u, v, weight=w)]: the weight of an
    edge already present is overwritten. *)
Fixpoint set_weight (u v : Node) (w : R) (es : list (Node * Node * R)) :
    list (Node * Node * R) :=
  match es with
  | [] => [(u, v, w)]
  | (u', v', w') :: rest =>
      if node_eqb u u' && node_eqb v v' then (u, v, w) :: rest
      else (u', v', w') :: set_weight u v w rest
  end.

(** [G.add_edge(u, v, weight=w)]; the end points are added when absent. *)
Definition add_edge (G : DiGraph) (u v : Node) (w : R) : DiGraph :=
  let G := add_node (add_node G u) v in
  mkDiGraph (nodes G) (set_weight u v w (edges G)).

(** *** Shortest path *)

(** The label of a node: the weight of the best path found to it and that
    path. *)
Definition Labels : Type := list (Node * (R * list Node)).

Fixpoint label_of (n : Node) (L : Labels) : option (R * list Node) :=
  match L with
  | [] => None
  | (m, l) :: rest => if node_eqb n m then Some l else label_of n rest
  end.

Fixpoint set_label (n : Node) (l : R * list Node) (L : Labels) : Labels :=
  match L with
  | [] => [(n, l)]
  | (m, l') :: rest =>
      if node_eqb n m then (n, l) :: rest else (m, l') :: set_label n l rest
  end.

(** Relaxation of the edge [e], whose source has the label [(du, pu)]. *)
Definition relax (du : R) (pu : list Node) (L : Labels) (e : Node * Node * R) : Labels :=
  let '(_, v, w) := e in
  match label_of v L with
  | Some (dv, _) =>
      if Rltb (du + w) dv then set_label v (du + w, pu ++ [v]) L else L
  | None => set_label v (du + w, pu ++ [v]) L
  end.

Definition out_edges (G : DiGraph) (u : Node) : list (Node * Node * R) :=
  filter (fun e => node_eqb (fst (fst e)) u) (edges G).

Definition relax_node (G : DiGraph) (L : Labels) (u : Node) : Labels :=
  match label_of u L with
  | None => L
  | Some (du, pu) => fold_left (relax du pu) (out_edges G u) L
  end.

(** Modelled from the spec: the search the specification describes for
    [nx.shortest_path(G, source, target, weight)], a single pass of label
    relaxation over the nodes in topological order, which tolerates the
    negative weights of the scheduler's graph.  The pass below visits the
    nodes in the order they were added to the graph; the scheduler adds them
    tick by tick, so for its graphs this is a topological order.  [None]
    stands for the exception [NetworkXNoPath].  The search the library runs
    for this call is [Networkx.shortest_path] below. *)
Definition shortest_path (G : DiGraph) (source target : Node) : option (list Node) :=
  let L := fold_left (relax_node G) (nodes G) [(source, (0, [source]))] in
  option_map snd (label_of target L).

(** ** [nx.shortest_path]: the search of the networkx library

    With a source, a target and a weight, [nx.shortest_path] calls
    [bidirectional_dijkstra]: Dijkstra's search run from the source along the
    edges and from the target against them, in turns.  The library's code is
    not among the sources; the definitions follow the library function
    statement by statement.  The weights are kept general, the scheduler's
    are floats. *)

Module Networkx.

(** What the call returns or raises; [OutOfFuel] is not an outcome of the
    library but of a [search] given too few iterations. *)
Inductive Outcome : Type :=
| Path (path : list Node)
| NetworkXNoPath
| NodeNotFound
| ValueError
| UnboundLocalError
| OutOfFuel.

(** A Python [dict] keyed by nodes. *)
Definition Dict (V : Type) : Type := list (Node * V).

Fixpoint get {V : Type} (n : Node) (d : Dict V) : option V :=
  match d with
  | [] => None
  | (m, v) :: rest => if node_eqb n m then Some v else get n rest
  end.

Fixpoint put {V : Type} (n : Node) (v : V) (d : Dict V) : Dict V :=
  match d with
  | [] => [(n, v)]
  | (m, v') :: rest => if node_eqb n m then (n, v) :: rest else (m, v') :: put n v rest
  end.

Section Search.
Context {W : Type}.
Variables (zero : W) (plus : W -> W -> W) (ltb eqb : W -> W -> bool).

(** An entry [(distance, count, node)] of a heap; the counts differ, so the
    comparison of two tuples never reaches the nodes. *)
Definition Entry : Type := (W * Z * Node)%type.

Definition entry_lt (a b : Entry) : bool :=
  let '(da, ca, _) := a in
  let '(db, cb, _) := b in
  if eqb da db then (ca <? cb)%Z else ltb da db.

Fixpoint smallest (e : Entry) (heap : list Entry) : Entry :=
  match heap with
  | [] => e
  | e' :: rest => smallest (if entry_lt e' e then e' else e) rest
  end.

Fixpoint without (count : Z) (heap : list Entry) : list Entry :=
  match heap with
  | [] => []
  | e :: rest => if (snd (fst e) =? count)%Z then rest else e :: without count rest
  end.

(** [heappop]: the smallest entry and the entries left. *)
Definition heappop (heap : list Entry) : option (Entry * list Entry) :=
  match heap with
  | [] => None
  | e :: rest => let m := smallest e rest in Some (m, without (snd (fst m)) heap)
  end.

(** One direction of the search: [dists[dir]], [paths[dir]], [fringe[dir]]
    and [seen[dir]]. *)
Record Side : Type := mkSide {
  dists : Dict W;
  paths : Dict (list Node);
  fringe : list Entry;
  seen : Dict W
}.

(** [G._succ[v].items()] and [G._pred[v].items()], in the order the edges
    were added. *)
Definition succ (edges : list (Node * Node * W)) (v : Node) : list (Node * W) :=
  map (fun e => (snd (fst e), snd e)) (filter (fun e => node_eqb (fst (fst e)) v) edges).

Definition pred (edges : list (Node * Node * W)) (v : Node) : list (Node * W) :=
  map (fun e => (fst (fst e), snd e)) (filter (fun e => node_eqb (snd (fst e)) v) edges).

(** What the loop over the neighbours of [v] changes: this direction, the
    counter, and [(finaldist, finalpath)], which is [None] as long as
    [finalpath == []]. *)
Definition Relaxed : Type := (Side * Z * option (W * list Node))%type.

Definition path_to {V : Type} (n : Node) (d : Dict (list V)) : list V :=
  match get n d with
  | Some p => p
  | None => []
  end.

(** The body of [for w, d in neighs[dir][v].items()], [dist] being
    [dists[dir][v]]; [None] stands for the [ValueError]
    "Contradictory paths found: negative weights?". *)
Definition relax (forwards : bool) (other : Side) (v : Node) (dist : W)
    (st : option Relaxed) (neighbour : Node * W) : option Relaxed :=
  match st with
  | None => None
  | Some (this, c, final) =>
      let (w, cost) := neighbour in
      let vwLength := plus dist cost in
      match get w (dists this) with
      | Some dw => if ltb vwLength dw then None else st
      | None =>
          if match get w (seen this) with
             | None => true
             | Some sw => ltb vwLength sw
             end
          then
            let path_w := path_to v (paths this) ++ [w] in
            let this' :=
              mkSide (dists this) (put w path_w (paths this))
                     (fringe this ++ [(vwLength, c, w)]) (put w vwLength (seen this)) in
            let final' :=
              match get w (seen other) with
              | None => final
              | Some sw' =>
                  let totaldist := if forwards then plus vwLength sw' else plus sw' vwLength in
                  if match final with
                     | None => true
                     | Some (finaldist, _) => ltb totaldist finaldist
                     end
                  then
                    let finalpath :=
                      if forwards then path_w ++ tl (rev (path_to w (paths other)))
                      else path_to w (paths other) ++ tl (rev path_w) in
                    Some (totaldist, finalpath)
                  else final
              end in
            Some (this', (c + 1)%Z, final')
          else st
      end
  end.

(** The variables of the [while] loop; [backwards] is [dir == 1]. *)
Record State : Type := mkState {
  forward : Side;
  backward : Side;
  count : Z;
  final : option (W * list Node);
  backwards : bool
}.

(** [while fringe[0] and fringe[1]: ...], for at most [fuel] iterations. *)
Fixpoint search (edges : list (Node * Node * W)) (fuel : nat) (st : State) : Outcome :=
  match fuel with
  | O => OutOfFuel
  | S fuel =>
      match fringe (forward st), fringe (backward st) with
      | [], _ | _, [] => NetworkXNoPath
      | _ :: _, _ :: _ =>
          let dir := negb (backwards st) in
          let this := if dir then backward st else forward st in
          let other := if dir then forward st else backward st in
          match heappop (fringe this) with
          | None => NetworkXNoPath
          | Some ((dist, _, v), rest) =>
              match get v (dists this) with
              | Some _ =>
                  let this := mkSide (dists this) (paths this) rest (seen this) in
                  search edges fuel
                    (mkState (if dir then other else this) (if dir then this else other)
                             (count st) (final st) dir)
              | None =>
                  let this := mkSide (put v dist (dists this)) (paths this) rest (seen this) in
                  match get v (dists other) with
                  | Some _ =>
                      match final st with
                      | Some (_, finalpath) => Path finalpath
                      | None => UnboundLocalError
                      end
                  | None =>
                      match fold_left (relax (negb dir) other v dist)
                                      (if dir then pred edges v else succ edges v)
                                      (Some (this, count st, final st)) with
                      | None => ValueError
                      | Some (this, c, final) =>
                          search edges fuel
                            (mkState (if dir then other else this)
                                     (if dir then this else other) c final dir)
                      end
                  end
              end
          end
      end
  end.

Definition start_state (source target : Node) : State :=
  mkState (mkSide [] [(source, [source])] [(zero, 0%Z, source)] [(source, zero)])
          (mkSide [] [(target, [target])] [(zero, 1%Z, target)] [(target, zero)])
          2 None true.

(** Every iteration takes an entry off a heap, and a direction pushes an
    entry for an edge at most once: [2 * len(edges) + 2] iterations are the
    most the loop can make. *)
Definition bidirectional_dijkstra (nodes : list Node) (edges : list (Node * Node * W))
    (source target : Node) : Outcome :=
  if negb (existsb (node_eqb source) nodes) || negb (existsb (node_eqb target) nodes)
  then NodeNotFound
  else if node_eqb source target then Path [source]
  else search edges (2 * List.length edges + 3) (start_state source target).

End Search.

(** [nx.shortest_path(G, source=source, target=target, weight="weight")] *)
Definition shortest_path (G : DiGraph) (source target : Node) : Outcome :=
  bidirectional_dijkstra 0 Rplus Rltb Reqb (nodes G) (edges G) source target.

End Networkx.

(** ** [run_chandleraz_simulation_b-aware.py]: the Horizon-Optimal scheduler *)

Module ChandlerBAware.
Section Tick.
Variable traci : Traci.

Definition predict_future_position (vehicle_id : string) (time_ahead : R) : Pos :=
  let pos := getPosition traci vehicle_id in
  let speed := getSpeed traci vehicle_id in
  let angle := radians (getAngle traci vehicle_id) in
  let future_x := fst pos + speed * time_ahead * cos angle in
  let future_y := snd pos + speed * time_ahead * sin angle in
  (future_x, future_y).

(** The body of [for rsu in rsus] at tick [t], on the graph and the set
    [current_nodes]. *)
Definition rsu_step (future_pos : Pos) (t : Z) (last_nodes : list Node)
    (st : DiGraph * list Node) (rsu : RSU) : DiGraph * list Node :=
  let (G, current_nodes) := st in
  let distance := distance_to future_pos rsu in
  if Rleb distance 400 then
    let node := (rsu_name (rsu_id rsu), t) in
    let G := add_node G node in
    let potential_datarate := 1 / (1 + distance) in
    let edge_weight := - potential_datarate in
    let G := fold_left (fun G last_node => add_edge G last_node node edge_weight)
                       last_nodes G in
    (G, set_add node current_nodes)
  else st.

(** The body of [for t in range(1, horizon + 1)], on the graph and the set
    [last_nodes]; the last line is [last_nodes = current_nodes or last_nodes]. *)
Definition tick_step (vehicle_id : string) (rsus : list RSU) (timestep : R)
    (st : DiGraph * list Node) (t : Z) : DiGraph * list Node :=
  let (G, last_nodes) := st in
  let future_pos := predict_future_position vehicle_id (IZR t * timestep) in
  let (G, current_nodes) := fold_left (rsu_step future_pos t last_nodes) rsus (G, []) in
  (G, match current_nodes with [] => last_nodes | _ :: _ => current_nodes end).

Definition start_node : Node := (start_name, 0%Z).

(** The graph and the set [last_nodes] after the loop over the ticks [ticks]. *)
Definition after_ticks (vehicle_id : string) (rsus : list RSU) (timestep : R)
    (ticks : list Z) : DiGraph * list Node :=
  fold_left (tick_step vehicle_id rsus timestep) ticks
            (add_node empty_graph start_node, [start_node]).

(** The graph [construct_dag] hands to [nx.shortest_path]. *)
Definition dag_graph (vehicle_id : string) (rsus : list RSU) (horizon : Z) (timestep : R)
    : DiGraph :=
  let (G, last_nodes) := after_ticks vehicle_id rsus timestep (range2 1 (horizon + 1)) in
  let end_node := (end_name, (horizon + 1)%Z) in
  let G := add_node G end_node in
  fold_left (fun G node => add_edge G node end_node 0) last_nodes G.

(** [construct_dag] with the relaxation pass of the specification in the
    place of [nx.shortest_path]. *)
Definition construct_dag (vehicle_id : string) (rsus : list RSU) (horizon : Z) (timestep : R)
    : list Node :=
  let G := dag_graph vehicle_id rsus horizon timestep in
  let end_node := (end_name, (horizon + 1)%Z) in
  match shortest_path G start_node end_node with
  | Some path => path
  | None => [start_node]
  end.

(** [construct_dag] as the program runs it, with the search of the networkx
    library: [NetworkXNoPath] is caught, any other exception leaves the
    function. *)
Definition construct_dag_nx (vehicle_id : string) (rsus : list RSU) (horizon : Z)
    (timestep : R) : Networkx.Outcome :=
  let G := dag_graph vehicle_id rsus horizon timestep in
  let end_node := (end_name, (horizon + 1)%Z) in
  match Networkx.shortest_path G start_node end_node with
  | Networkx.NetworkXNoPath => Networkx.Path [start_node]
  | outcome => outcome
  end.

Definition is_blocking_los (vehicle_pos : Pos) (rsu : RSU) (obstacle_pos : Pos)
    (obstacle_size : R) : bool :=
  let dist_to_rsu := math_dist vehicle_pos (rsu_x rsu, rsu_y rsu) in
  let obstacle_dist := math_dist vehicle_pos obstacle_pos in
  Rltb obstacle_dist dist_to_rsu && Rltb obstacle_dist (obstacle_size / 2).

(** The body of [for obstacle in obstacles] on the variable [distance]. *)
Definition obstacle_step (vehicle_pos : Pos) (rsu : RSU) (distance : R) (obstacle : string)
    : R :=
  let obstacle_pos := getPosition traci obstacle in
  let obstacle_size := Rmax (getLength traci obstacle) (getWidth traci obstacle) in
  if is_blocking_los vehicle_pos rsu obstacle_pos obstacle_size then distance * 1.5
  else distance.

Definition calculate_signal_strength (vehicle_pos : Pos) (rsu : RSU)
    (obstacles : list string) : R :=
  let distance := distance_to vehicle_pos rsu in
  let distance := fold_left (obstacle_step vehicle_pos rsu) obstacles distance in
  if Rltb 0 distance then Rmax 0 (1 / (1 + distance)) else 1.

(** The [for t in range(...)] loop of [estimate_connection_duration] over
    the ticks still to visit. *)
Fixpoint duration_loop (vehicle_id : string) (rsu : RSU) (step_size : Z)
    (ticks : list Z) (duration : Z) : Z :=
  match ticks with
  | [] => duration
  | t :: rest =>
      let future_pos := predict_future_position vehicle_id (IZR t) in
      let distance := distance_to future_pos rsu in
      if Rltb 400 distance then duration
      else duration_loop vehicle_id rsu step_size rest (duration + step_size)
  end.

Definition estimate_connection_duration (vehicle_id : string) (rsu : RSU)
    (max_duration step_size : Z) : option Z :=
  match py_range 1 (max_duration + 1) step_size with
  | None => None
  | Some ticks => Some (duration_loop vehicle_id rsu step_size ticks 0)
  end.

(** One emitted row:
    [step, vehicle_id, rsu.id, signal_strength, connection_duration]. *)
Record Row : Type := mkRow {
  row_step : Z; row_vehicle : string; row_rsu : Z;
  row_signal : R; row_duration : Z
}.

(** [next((r for r in rsus if r.id == rsu_id), None)]: the first RSU of the
    roster with that identity; the strings ["start"] and ["end"] equal no
    identity. *)
Definition find_rsu (name : NodeName) (rsus : list RSU) : option RSU :=
  match name with
  | rsu_name i => find (fun r => (rsu_id r =? i)%Z) rsus
  | _ => None
  end.

(** The body of [for rsu_id, t in optimal_schedule]: the rows it writes. *)
Definition schedule_rows (step : Z) (vehicle_id : string) (rsus : list RSU) (node : Node)
    : list Row :=
  let (name, t) := node in
  match name with
  | end_name => []
  | _ =>
      match find_rsu name rsus with
      | None => []
      | Some rsu =>
          let vehicle_pos := getPosition traci vehicle_id in
          let nearby_obstacles :=
            filter (fun v => negb (String.eqb v vehicle_id)) (getIDList traci) in
          let signal_strength := calculate_signal_strength vehicle_pos rsu nearby_obstacles in
          match estimate_connection_duration vehicle_id rsu 10 1 with
          | Some connection_duration =>
              [mkRow step vehicle_id (rsu_id rsu) signal_strength connection_duration]
          | None => []
          end
      end
  end.

(** The body of [for vehicle_id in vehicle_ids] of [run_b_aware_simulation]. *)
Definition vehicle_rows (step : Z) (vehicle_id : string) (rsus : list RSU) : list Row :=
  let optimal_schedule := construct_dag vehicle_id rsus 10 1 in
  flat_map (schedule_rows step vehicle_id rsus) optimal_schedule.

End Tick.

(** [run_b_aware_simulation]: [for step in range(100)]; this script has no
    [break]. *)
Definition run_simulation (sim : Simulator) (rsus : list RSU) : list Row :=
  run_all (fun traci step vehicle_id => vehicle_rows traci step vehicle_id rsus)
          sim (range2 0 100).

End ChandlerBAware.

(** ** [run_i10west_simulation_smart.py]: score with the distance-over-speed
       duration

    The duration is [float('inf')] for a standing vehicle, so durations and
    scores are floats that may be infinite.  [XR] adds to the reals the two
    infinities and the value [nan] that [0 * inf] produces. *)

Inductive XR : Type :=
| Fin : R -> XR
| PInf : XR
| NInf : XR
| NaN : XR.

(** [a * b] on floats *)
Definition xmul (a b : XR) : XR :=
  match a, b with
  | NaN, _ | _, NaN => NaN
  | Fin x, Fin y => Fin (x * y)
  | Fin x, PInf | PInf, Fin x =>
      if Rltb 0 x then PInf else if Rltb x 0 then NInf else NaN
  | Fin x, NInf | NInf, Fin x =>
      if Rltb 0 x then NInf else if Rltb x 0 then PInf else NaN
  | PInf, PInf | NInf, NInf => PInf
  | PInf, NInf | NInf, PInf => NInf
  end.

(** [a > b] on floats; every comparison with [nan] is false. *)
Definition xgt (a b : XR) : bool :=
  match a, b with
  | NaN, _ | _, NaN => false
  | Fin x, Fin y => Rltb y x
  | PInf, PInf => false
  | PInf, _ => true
  | _, PInf => false
  | NInf, _ => false
  | Fin _, NInf => true
  end.

Module I10Smart.

(** One emitted row: [step, vehicle_id, best_rsu.id, signal_strength,
    connection_duration, best_score]. *)
Record Row : Type := mkRow {
  row_step : Z; row_vehicle : string; row_rsu : Z;
  row_signal : R; row_duration : XR; row_score : XR
}.

(** The variables the selection loop leaves behind. *)
Record Vars : Type := mkVars {
  best_rsu : option RSU;
  best_score : XR;
  signal_strength : option R;
  connection_duration : option XR
}.

Section Tick.
Variable traci : Traci.

Definition predict_future_position (vehicle_id : string) (time_ahead : R) : Pos :=
  let pos := getPosition traci vehicle_id in
  let speed := getSpeed traci vehicle_id in
  let angle := radians (getAngle traci vehicle_id) in
  let future_x := fst pos + speed * time_ahead * cos angle in
  let future_y := snd pos + speed * time_ahead * sin angle in
  (future_x, future_y).

(** The loop of [is_obstacle_in_los] over the identifiers still to visit. *)
Fixpoint obstacle_ids_in_los (vehicle_pos : Pos) (rsu : RSU) (vehicle_id : string)
    (obstacles : list string) : bool :=
  match obstacles with
  | [] => false
  | obs_id :: rest =>
      if String.eqb obs_id vehicle_id then
        obstacle_ids_in_los vehicle_pos rsu vehicle_id rest
      else if in_los_box vehicle_pos rsu (getPosition traci obs_id) then true
      else obstacle_ids_in_los vehicle_pos rsu vehicle_id rest
  end.

Definition is_obstacle_in_los (vehicle_pos : Pos) (rsu : RSU) (vehicle_id : string) : bool :=
  obstacle_ids_in_los vehicle_pos rsu vehicle_id (getIDList traci).

Definition calculate_signal_strength (vehicle_pos : Pos) (rsu : RSU) (vehicle_id : string)
    : R :=
  let distance := distance_to vehicle_pos rsu in
  if Reqb distance 0 then 1
  else if is_obstacle_in_los vehicle_pos rsu vehicle_id
       then Rmax 0 (1 / (1 + distance * 5))
       else Rmax 0 (1 / (1 + distance)).

(** [distance / vehicle_speed if vehicle_speed != 0 else float('inf')] *)
Definition estimate_connection_duration (vehicle_id : string) (rsu : RSU) : XR :=
  let vehicle_pos := getPosition traci vehicle_id in
  let vehicle_speed := getSpeed traci vehicle_id in
  let distance := distance_to vehicle_pos rsu in
  if Reqb vehicle_speed 0 then PInf else Fin (distance / vehicle_speed).

(** The body of [for rsu in rsus]. *)
Definition select_step (vehicle_id : string) (predicted_pos : Pos) (v : Vars) (rsu : RSU)
    : Vars :=
  let signal_strength := calculate_signal_strength predicted_pos rsu vehicle_id in
  let connection_duration := estimate_connection_duration vehicle_id rsu in
  let score := xmul (Fin signal_strength) connection_duration in
  if xgt score (best_score v)
  then mkVars (Some rsu) score (Some signal_strength) (Some connection_duration)
  else mkVars (best_rsu v) (best_score v) (Some signal_strength) (Some connection_duration).

Definition select_rsu (vehicle_id : string) (rsus : list RSU) : Vars :=
  let predicted_pos := predict_future_position vehicle_id 2 in
  fold_left (select_step vehicle_id predicted_pos) rsus (mkVars None (Fin 0) None None).

(** [if best_rsu: log_writer.writerow([step, vehicle_id, best_rsu.id,
    signal_strength, connection_duration, best_score])] *)
Definition vehicle_row (step : Z) (vehicle_id : string) (rsus : list RSU) : option Row :=
  match select_rsu vehicle_id rsus with
  | mkVars (Some best) score (Some signal) (Some duration) =>
      Some (mkRow step vehicle_id (rsu_id best) signal duration score)
  | _ => None
  end.

End Tick.

(** [run_simulation]: [for step in range(100)]; this script has no [break]. *)
Definition run_simulation (sim : Simulator) (rsus : list RSU) : list Row :=
  run_all
    (fun traci step vehicle_id => written (vehicle_row traci step vehicle_id rsus))
    sim (range2 0 100).

End I10Smart.

(** * Part II: properties *)

(** ** Boolean comparisons of reals *)

Lemma Rltb_true a b : a < b -> Rltb a b = true.
Proof. intros H. unfold Rltb. destruct (Rlt_dec a b); [reflexivity | contradiction]. Qed.

Lemma Rltb_false a b : b <= a -> Rltb a b = false.
Proof. intros H. unfold Rltb. destruct (Rlt_dec a b); [lra | reflexivity]. Qed.

Lemma Rltb_iff a b : Rltb a b = true <-> a < b.
Proof. unfold Rltb. destruct (Rlt_dec a b); split; intros; try easy. Qed.

Lemma Rleb_true a b : a <= b -> Rleb a b = true.
Proof. intros H. unfold Rleb. destruct (Rle_dec a b); [reflexivity | contradiction]. Qed.

Lemma Rleb_false a b : b < a -> Rleb a b = false.
Proof. intros H. unfold Rleb. destruct (Rle_dec a b); [lra | reflexivity]. Qed.

Lemma Rleb_iff a b : Rleb a b = true <-> a <= b.
Proof. unfold Rleb. destruct (Rle_dec a b); split; intros; try easy. Qed.

Lemma Reqb_true a b : a = b -> Reqb a b = true.
Proof. intros H. unfold Reqb. destruct (Req_dec_T a b); [reflexivity | contradiction]. Qed.

Lemma Reqb_false a b : a <> b -> Reqb a b = false.
Proof. intros H. unfold Reqb. destruct (Req_dec_T a b); [contradiction | reflexivity]. Qed.

Lemma Reqb_iff a b : Reqb a b = true <-> a = b.
Proof. unfold Reqb. destruct (Req_dec_T a b); split; intros; try easy. Qed.

(** ** Facts on distances *)

Lemma distance_to_nonneg p rsu : 0 <= distance_to p rsu.
Proof. unfold distance_to. apply sqrt_pos. Qed.

Lemma distance_same_y x y i a : distance_to (x, y) (mkRSU i a y) = Rabs (x - a).
Proof.
  unfold distance_to; cbn [fst snd rsu_x rsu_y].
  replace ((x - a) ^ 2 + (y - y) ^ 2) with (Rsqr (x - a)) by (unfold Rsqr; ring).
  apply sqrt_Rsqr_abs.
Qed.

(** ** The specification's strength formula *)

Lemma inv_one_plus_antitone a b : 0 <= a -> a <= b -> 1 / (1 + b) <= 1 / (1 + a).
Proof.
  intros Ha Hab. unfold Rdiv. rewrite !Rmult_1_l.
  apply Rinv_le_contravar; lra.
Qed.

Lemma inv_one_plus_le_1 e : 0 <= e -> 1 / (1 + e) <= 1.
Proof.
  intros He. replace 1 with (1 / (1 + 0)) at 3 by (rewrite Rplus_0_r; lra).
  apply inv_one_plus_antitone; lra.
Qed.

Lemma inv_one_plus_pos e : 0 <= e -> 0 < 1 / (1 + e).
Proof. intros He. apply Rdiv_lt_0_compat; lra. Qed.

Lemma spec_strength_pos d b k : 0 <= d -> 1 <= k -> 0 < spec_strength d b k.
Proof.
  intros Hd Hk. unfold spec_strength.
  destruct (Reqb d 0); [lra |].
  assert (0 <= d * (if b then k else 1)) by (destruct b; nra).
  apply Rlt_le_trans with (1 / (1 + d * (if b then k else 1))); [| apply Rmax_r].
  apply inv_one_plus_pos; assumption.
Qed.

Lemma spec_strength_le_1 d b k : 0 <= d -> 1 <= k -> spec_strength d b k <= 1.
Proof.
  intros Hd Hk. unfold spec_strength.
  destruct (Reqb d 0); [lra |].
  assert (0 <= d * (if b then k else 1)) by (destruct b; nra).
  apply Rmax_lub; [lra |].
  apply inv_one_plus_le_1; assumption.
Qed.

Lemma spec_strength_antitone d1 d2 b k :
  0 <= d1 -> d1 <= d2 -> 1 <= k -> spec_strength d2 b k <= spec_strength d1 b k.
Proof.
  intros H1 H12 Hk.
  unfold spec_strength at 2.
  destruct (Reqb d1 0) eqn:E1; [apply spec_strength_le_1; lra |].
  unfold spec_strength.
  destruct (Reqb d2 0) eqn:E2.
  - apply Reqb_iff in E2. assert (d1 = 0) by lra.
    apply Reqb_true in H. congruence.
  - cbv zeta. apply Rle_max_compat_l. apply inv_one_plus_antitone; destruct b; nra.
Qed.

Lemma spec_strength_blocked_le d k :
  0 <= d -> 1 <= k -> spec_strength d true k <= spec_strength d false k.
Proof.
  intros Hd Hk. unfold spec_strength.
  destruct (Reqb d 0); [lra |]. cbv zeta.
  apply Rle_max_compat_l. apply inv_one_plus_antitone; nra.
Qed.

(** ** Deciding comparisons of concrete reals *)

Ltac rsolve :=
  unfold Rmin, Rmax, Rabs;
  repeat match goal with
         | |- context [Rle_dec ?a ?b] => destruct (Rle_dec a b)
         | |- context [Rcase_abs ?a] => destruct (Rcase_abs a)
         end;
  rewrite ?Ropp_minus_distr, ?Rmult_1_r;
  first [lra | exfalso; lra].

Ltac rbool :=
  repeat match goal with
         | |- context [Rltb ?a ?b] =>
             first [rewrite (Rltb_true a b) by rsolve | rewrite (Rltb_false a b) by rsolve]
         | |- context [Rleb ?a ?b] =>
             first [rewrite (Rleb_true a b) by rsolve | rewrite (Rleb_false a b) by rsolve]
         | |- context [Reqb ?a ?b] =>
             first [rewrite (Reqb_true a b) by rsolve | rewrite (Reqb_false a b) by rsolve]
         end.

Lemma math_dist_same_y x y a : math_dist (x, y) (a, y) = Rabs (x - a).
Proof.
  unfold math_dist; cbn [fst snd].
  replace ((x - a) ^ 2 + (y - y) ^ 2) with (Rsqr (x - a)) by (unfold Rsqr; ring).
  apply sqrt_Rsqr_abs.
Qed.

Lemma Rmax_0_inv_one_plus e : 0 <= e -> Rmax 0 (1 / (1 + e)) = 1 / (1 + e).
Proof. intros He. apply Rmax_right. left. apply inv_one_plus_pos; assumption. Qed.

(** ** Signal strength: the scripts against the specification's formula *)

Lemma smart_strength_spec traci predicted_pos rsu :
  Smart.calculate_signal_strength traci predicted_pos rsu =
  spec_strength (distance_to predicted_pos rsu)
                (Smart.check_for_obstacles traci predicted_pos rsu) 5.
Proof.
  unfold Smart.calculate_signal_strength, spec_strength. cbv zeta.
  destruct (Reqb (distance_to predicted_pos rsu) 0); [reflexivity |].
  destruct (Smart.check_for_obstacles traci predicted_pos rsu); [reflexivity |].
  rewrite Rmult_1_r. reflexivity.
Qed.

Lemma base_strength_spec traci vehicle_pos rsu vehicle_id :
  Base.calculate_signal_strength traci vehicle_pos rsu vehicle_id =
  spec_strength (distance_to vehicle_pos rsu)
                (Base.check_for_obstacles traci vehicle_pos rsu vehicle_id) 5.
Proof.
  unfold Base.calculate_signal_strength, spec_strength. cbv zeta.
  destruct (Reqb (distance_to vehicle_pos rsu) 0); [reflexivity |].
  destruct (Base.check_for_obstacles traci vehicle_pos rsu vehicle_id); [reflexivity |].
  rewrite Rmult_1_r. reflexivity.
Qed.

(** Number of obstacles that block the line of sight in the blockage-aware
    script. *)
Definition blocking_count (vehicle_pos : Pos) (rsu : RSU) (obstacles : list Pos) : nat :=
  List.length (filter (BAware.is_blocking_los vehicle_pos rsu) obstacles).

Lemma baware_effective_distance vehicle_pos rsu obstacles d :
  fold_left (BAware.obstacle_step vehicle_pos rsu) obstacles d =
  d * 1.5 ^ blocking_count vehicle_pos rsu obstacles.
Proof.
  unfold blocking_count. revert d.
  induction obstacles as [| o rest IH]; intros d; cbn [fold_left filter List.length].
  - cbn [pow]. ring.
  - rewrite IH. unfold BAware.obstacle_step.
    destruct (BAware.is_blocking_los vehicle_pos rsu o); cbn [List.length pow]; ring.
Qed.

Lemma pow_1_5_ge_1 k : 1 <= 1.5 ^ k.
Proof. apply pow_R1_Rle. lra. Qed.

Lemma baware_strength_closed vehicle_pos rsu obstacles :
  BAware.calculate_signal_strength vehicle_pos rsu obstacles =
  if Reqb (distance_to vehicle_pos rsu) 0 then 1
  else Rmax 0 (1 / (1 + distance_to vehicle_pos rsu *
                           1.5 ^ blocking_count vehicle_pos rsu obstacles)).
Proof.
  unfold BAware.calculate_signal_strength. cbv zeta.
  rewrite baware_effective_distance.
  pose proof (distance_to_nonneg vehicle_pos rsu) as Hd.
  pose proof (pow_1_5_ge_1 (blocking_count vehicle_pos rsu obstacles)) as Hk.
  destruct (Reqb (distance_to vehicle_pos rsu) 0) eqn:E.
  - apply Reqb_iff in E. rewrite E, Rmult_0_l. rewrite Rltb_false by lra. reflexivity.
  - assert (distance_to vehicle_pos rsu <> 0)
      by (intros H0; apply Reqb_true in H0; congruence).
    rewrite Rltb_true by nra. reflexivity.
Qed.

(** A lone obstacle between the vehicle at (0,0) and the RSU at (100,0). *)
Definition obstructed_traci : Traci :=
  mkTraci ["truck"%string] (fun _ => (50, 0)) (fun _ => 0) (fun _ => 0)
          (fun _ => 5) (fun _ => 2).

Definition rsu_at_100 : RSU := mkRSU 1 100 0.

(** C5 (as amended).  The bounding-box scripts compute the specification's
    strength with the penalty 5 applied once: 1 at distance 0, otherwise
    [max(0, 1/(1+effective))] with [effective = distance * 5] when blocked
    and [effective = distance] otherwise; at distance 100, obstructed, the
    strength is 1/501.  The blockage-aware script multiplies the distance by
    1.5 once for every obstacle that blocks, so its effective distance is
    [distance * 1.5 ^ k] for [k] blocking obstacles, which is the
    specification's formula with penalty 1.5 when at most one obstacle
    blocks. *)
Theorem signal_strength_formula :
  (forall traci predicted_pos rsu,
      Smart.calculate_signal_strength traci predicted_pos rsu =
      spec_strength (distance_to predicted_pos rsu)
                    (Smart.check_for_obstacles traci predicted_pos rsu) 5)
  /\ (forall vehicle_pos rsu obstacles,
      BAware.calculate_signal_strength vehicle_pos rsu obstacles =
      if Reqb (distance_to vehicle_pos rsu) 0 then 1
      else Rmax 0 (1 / (1 + distance_to vehicle_pos rsu *
                               1.5 ^ blocking_count vehicle_pos rsu obstacles)))
  /\ (forall vehicle_pos rsu obstacles,
      (blocking_count vehicle_pos rsu obstacles <= 1)%nat ->
      BAware.calculate_signal_strength vehicle_pos rsu obstacles =
      spec_strength (distance_to vehicle_pos rsu)
                    (Nat.eqb (blocking_count vehicle_pos rsu obstacles) 1) 1.5)
  /\ distance_to (0, 0) rsu_at_100 = 100
  /\ Smart.check_for_obstacles obstructed_traci (0, 0) rsu_at_100 = true
  /\ Smart.calculate_signal_strength obstructed_traci (0, 0) rsu_at_100 = 1 / 501.
Proof.
  assert (Hd : distance_to (0, 0) rsu_at_100 = 100).
  { unfold rsu_at_100. rewrite distance_same_y. rsolve. }
  assert (Hb : Smart.check_for_obstacles obstructed_traci (0, 0) rsu_at_100 = true).
  { unfold Smart.check_for_obstacles, obstructed_traci, rsu_at_100, in_los_box.
    cbn [getIDList getPosition Smart.check_obstacle_ids fst snd rsu_x rsu_y].
    unfold in_los_box. cbn [fst snd rsu_x rsu_y]. rbool. reflexivity. }
  repeat split; try assumption.
  - intros. apply smart_strength_spec.
  - intros. apply baware_strength_closed.
  - intros vehicle_pos rsu obstacles Hk.
    rewrite baware_strength_closed. unfold spec_strength. cbv zeta.
    destruct (Reqb (distance_to vehicle_pos rsu) 0); [reflexivity |].
    destruct (blocking_count vehicle_pos rsu obstacles) as [| [| k]];
      cbn [Nat.eqb pow]; [f_equal; f_equal; f_equal; ring
                         | f_equal; f_equal; f_equal; ring | lia].
  - rewrite smart_strength_spec, Hd, Hb. unfold spec_strength.
    rewrite Reqb_false by lra. cbv zeta.
    rewrite Rmax_0_inv_one_plus by lra. lra.
Qed.

(** Two obstacles in front of the vehicle at (0,0), RSU at (100,0). *)
Definition two_obstacles : list Pos := [(1, 0); (2, 0)].

(** C5, counterexample.  With two blocking obstacles the blockage-aware
    script applies the penalty twice: the strength is 1/226, while the
    formula with the penalty 1.5 applied once gives 1/151. *)
Lemma baware_penalty_compounds :
  BAware.calculate_signal_strength (0, 0) rsu_at_100 two_obstacles = 1 / 226
  /\ spec_strength (distance_to (0, 0) rsu_at_100) true 1.5 = 1 / 151
  /\ BAware.calculate_signal_strength (0, 0) rsu_at_100 two_obstacles <>
     spec_strength (distance_to (0, 0) rsu_at_100) true 1.5.
Proof.
  assert (Hd : distance_to (0, 0) rsu_at_100 = 100).
  { unfold rsu_at_100. rewrite distance_same_y. rsolve. }
  assert (Hk : blocking_count (0, 0) rsu_at_100 two_obstacles = 2%nat).
  { unfold blocking_count, two_obstacles, BAware.is_blocking_los, rsu_at_100.
    cbn [filter rsu_x rsu_y]. rewrite !math_dist_same_y. rbool. reflexivity. }
  assert (H1 : BAware.calculate_signal_strength (0, 0) rsu_at_100 two_obstacles = 1 / 226).
  { rewrite baware_strength_closed, Hd, Hk. rewrite Reqb_false by lra.
    cbn [pow]. rewrite Rmax_0_inv_one_plus by lra. lra. }
  assert (H2 : spec_strength (distance_to (0, 0) rsu_at_100) true 1.5 = 1 / 151).
  { rewrite Hd. unfold spec_strength. rewrite Reqb_false by lra. cbv zeta.
    rewrite Rmax_0_inv_one_plus by lra. lra. }
  repeat split; try assumption. rewrite H1, H2. lra.
Qed.

(** C9.  In the bounding-box script the strength does not increase with the
    distance when the obstruction state is the same, a blocked link is never
    stronger than a clear one at the same position, and the strength lies in
    [0,1]; the specification's formula has the same three properties for
    every penalty of at least 1. *)
Theorem signal_strength_monotone_bounded :
  (forall traci1 traci2 rsu1 rsu2 p1 p2,
      distance_to p1 rsu1 <= distance_to p2 rsu2 ->
      Smart.check_for_obstacles traci1 p1 rsu1 = Smart.check_for_obstacles traci2 p2 rsu2 ->
      Smart.calculate_signal_strength traci2 p2 rsu2 <=
      Smart.calculate_signal_strength traci1 p1 rsu1)
  /\ (forall traci_blocked traci_clear p rsu,
      Smart.check_for_obstacles traci_blocked p rsu = true ->
      Smart.check_for_obstacles traci_clear p rsu = false ->
      Smart.calculate_signal_strength traci_blocked p rsu <=
      Smart.calculate_signal_strength traci_clear p rsu)
  /\ (forall traci p rsu, 0 <= Smart.calculate_signal_strength traci p rsu <= 1)
  /\ (forall d1 d2 blocked block_penalty,
      0 <= d1 -> d1 <= d2 -> 1 <= block_penalty ->
      spec_strength d2 blocked block_penalty <= spec_strength d1 blocked block_penalty)
  /\ (forall d block_penalty,
      0 <= d -> 1 <= block_penalty ->
      spec_strength d true block_penalty <= spec_strength d false block_penalty)
  /\ (forall d blocked block_penalty,
      0 <= d -> 1 <= block_penalty ->
      0 <= spec_strength d blocked block_penalty <= 1).
Proof.
  split; [| split; [| split; [| split; [| split]]]].
  - intros traci1 traci2 rsu1 rsu2 p1 p2 Hd Hb.
    rewrite !smart_strength_spec, Hb.
    apply spec_strength_antitone; [apply distance_to_nonneg | assumption | lra].
  - intros tb tc p rsu Hb Hc. rewrite !smart_strength_spec, Hb, Hc.
    apply spec_strength_blocked_le; [apply distance_to_nonneg | lra].
  - intros traci p rsu. rewrite smart_strength_spec. split.
    + left. apply spec_strength_pos; [apply distance_to_nonneg | lra].
    + apply spec_strength_le_1; [apply distance_to_nonneg | lra].
  - intros. apply spec_strength_antitone; assumption.
  - intros. apply spec_strength_blocked_le; assumption.
  - intros d b k Hd Hk. split.
    + left. apply spec_strength_pos; assumption.
    + apply spec_strength_le_1; assumption.
Qed.

(** C9, witness: ten units further from the RSU, behind the same obstacle,
    the strength is not larger. *)
Lemma signal_strength_monotone_witness :
  Smart.calculate_signal_strength obstructed_traci (-10, 0) rsu_at_100 <=
  Smart.calculate_signal_strength obstructed_traci (0, 0) rsu_at_100.
Proof.
  apply (proj1 signal_strength_monotone_bounded).
  - unfold rsu_at_100. rewrite !distance_same_y. rsolve.
  - unfold Smart.check_for_obstacles, obstructed_traci, rsu_at_100.
    cbn [getIDList getPosition Smart.check_obstacle_ids].
    unfold in_los_box. cbn [fst snd rsu_x rsu_y]. rbool. reflexivity.
Defined.

(** ** The obstruction detectors *)

Lemma in_los_box_self p rsu : in_los_box p rsu p = true.
Proof.
  unfold in_los_box.
  rewrite !Rleb_true; try reflexivity;
    first [apply Rmin_l | apply Rmax_l].
Qed.

Lemma base_obstacle_is_other traci vehicle_pos rsu vehicle_id obstacles :
  Base.check_obstacle_ids traci vehicle_pos rsu vehicle_id obstacles = true ->
  exists obstacle_id,
    In obstacle_id obstacles /\ obstacle_id <> vehicle_id /\
    in_los_box vehicle_pos rsu (getPosition traci obstacle_id) = true.
Proof.
  induction obstacles as [| o rest IH]; cbn [Base.check_obstacle_ids]; [discriminate |].
  destruct (String.eqb o vehicle_id) eqn:E.
  - intros H. destruct (IH H) as (x & Hin & Hne & Hbox).
    exists x. split; [right; assumption | split; assumption].
  - apply String.eqb_neq in E.
    destruct (in_los_box vehicle_pos rsu (getPosition traci o)) eqn:B.
    + intros _. exists o. split; [left; reflexivity | split; assumption].
    + intros H. destruct (IH H) as (x & Hin & Hne & Hbox).
      exists x. split; [right; assumption | split; assumption].
Qed.

Lemma base_lone_vehicle_clear traci vehicle_pos rsu vehicle_id :
  getIDList traci = [vehicle_id] ->
  Base.check_for_obstacles traci vehicle_pos rsu vehicle_id = false.
Proof.
  intros H. unfold Base.check_for_obstacles. rewrite H.
  cbn [Base.check_obstacle_ids]. rewrite String.eqb_refl. reflexivity.
Qed.

Lemma smart_self_blocks traci rsu vehicle_id obstacles :
  In vehicle_id obstacles ->
  Smart.check_obstacle_ids traci (getPosition traci vehicle_id) rsu obstacles = true.
Proof.
  induction obstacles as [| o rest IH]; cbn [In Smart.check_obstacle_ids]; [tauto |].
  intros [-> | Hin].
  - rewrite in_los_box_self. reflexivity.
  - rewrite (IH Hin). destruct (in_los_box _ _ _); reflexivity.
Qed.

Lemma smart_predict_stationary pos angle time_ahead :
  Smart.predict_future_position pos 0 angle time_ahead = pos.
Proof.
  unfold Smart.predict_future_position. cbv zeta.
  rewrite !Rmult_0_l, !Rplus_0_r. destruct pos; reflexivity.
Qed.

(** One standing vehicle and nothing else on the road. *)
Definition lone_traci : Traci :=
  mkTraci ["veh0"%string] (fun _ => (0, 0)) (fun _ => 0) (fun _ => 0)
          (fun _ => 5) (fun _ => 2).

(** C8.  The detector of [run_simulation_base.py] reports a blocked line of
    sight only for an obstacle other than the subject vehicle, and never for
    a vehicle that is alone.  The detector of [run_simulation_smart.py] takes
    every identifier as an obstacle, the subject included: a standing vehicle
    is always reported blocked by itself, and the lone vehicle [veh0] is
    reported blocked toward the RSU at (100,0). *)
Theorem obstruction_detector_subject_vehicle :
  (forall traci vehicle_pos rsu vehicle_id,
      Base.check_for_obstacles traci vehicle_pos rsu vehicle_id = true ->
      exists obstacle_id,
        In obstacle_id (getIDList traci) /\ obstacle_id <> vehicle_id /\
        in_los_box vehicle_pos rsu (getPosition traci obstacle_id) = true)
  /\ (forall traci vehicle_pos rsu vehicle_id,
      getIDList traci = [vehicle_id] ->
      Base.check_for_obstacles traci vehicle_pos rsu vehicle_id = false)
  /\ (forall traci rsu vehicle_id,
      In vehicle_id (getIDList traci) ->
      getSpeed traci vehicle_id = 0 ->
      Smart.check_for_obstacles traci
        (Smart.predict_future_position (getPosition traci vehicle_id)
           (getSpeed traci vehicle_id) (getAngle traci vehicle_id) 2) rsu = true)
  /\ Smart.check_for_obstacles lone_traci
       (Smart.predict_future_position (getPosition lone_traci "veh0")
          (getSpeed lone_traci "veh0") (getAngle lone_traci "veh0") 2)
       rsu_at_100 = true.
Proof.
  assert (Hself : forall traci rsu vehicle_id,
      In vehicle_id (getIDList traci) ->
      getSpeed traci vehicle_id = 0 ->
      Smart.check_for_obstacles traci
        (Smart.predict_future_position (getPosition traci vehicle_id)
           (getSpeed traci vehicle_id) (getAngle traci vehicle_id) 2) rsu = true).
  { intros traci rsu v Hin Hs. rewrite Hs, smart_predict_stationary.
    apply smart_self_blocks. assumption. }
  split; [| split; [| split]].
  - intros traci vehicle_pos rsu vehicle_id H.
    apply base_obstacle_is_other in H. exact H.
  - intros. apply base_lone_vehicle_clear. assumption.
  - exact Hself.
  - apply Hself; [left; reflexivity | reflexivity].
Qed.

(** ** Greedy-Current: the first maximum wins *)

Section FirstMax.
Variables (A : Type) (f : A -> R).

Definition pick (best : option A * R) (a : A) : option A * R :=
  if Rltb (snd best) (f a) then (Some a, f a) else best.

Lemma fold_pick_spec (l : list A) : forall (b : option A) (s : R),
  (fold_left pick l (b, s) = (b, s) /\ forall a, In a l -> f a <= s)
  \/ (exists before x after,
         l = before ++ x :: after /\
         fold_left pick l (b, s) = (Some x, f x) /\
         s < f x /\
         (forall a, In a before -> f a < f x) /\
         (forall a, In a after -> f a <= f x)).
Proof.
  induction l as [| a l IH]; intros b s; cbn [fold_left].
  - left. split; [reflexivity | intros a []].
  - assert (Hp : pick (b, s) a = if Rltb s (f a) then (Some a, f a) else (b, s))
      by reflexivity.
    rewrite Hp. clear Hp.
    destruct (Rltb s (f a)) eqn:E.
    + apply Rltb_iff in E.
      destruct (IH (Some a) (f a)) as [[Heq Hle] | (l1 & x & l2 & Hl & Heq & Hlt & H1 & H2)].
      * right. exists [], a, l.
        split; [reflexivity |]. split; [assumption |]. split; [assumption |].
        split; [intros ? [] | assumption].
      * right. exists (a :: l1), x, l2. subst l.
        split; [reflexivity |]. split; [assumption |]. split; [lra |].
        split; [| assumption].
        intros a' [<- | Hin]; [assumption | apply H1; assumption].
    + assert (f a <= s).
      { destruct (Rle_dec (f a) s); [assumption |].
        rewrite Rltb_true in E by lra. discriminate. }
      destruct (IH b s) as [[Heq Hle] | (l1 & x & l2 & Hl & Heq & Hlt & H1 & H2)].
      * left. split; [assumption |]. intros a' [<- | Hin]; [assumption | apply Hle; assumption].
      * right. exists (a :: l1), x, l2. subst l.
        split; [reflexivity |]. split; [assumption |]. split; [assumption |].
        split; [| assumption].
        intros a' [<- | Hin]; [lra | apply H1; assumption].
Qed.

End FirstMax.

Lemma base_strength_pos traci vehicle_pos rsu vehicle_id :
  0 < Base.calculate_signal_strength traci vehicle_pos rsu vehicle_id.
Proof.
  rewrite base_strength_spec.
  apply spec_strength_pos; [apply distance_to_nonneg | lra].
Qed.

Lemma sorted_after {A : Type} (lt : A -> A -> Prop) (before after : list A) (x : A) :
  StronglySorted lt (before ++ x :: after) -> forall y, In y after -> lt x y.
Proof.
  induction before as [| b before IH]; cbn [app]; intros H y Hy.
  - inversion H as [| ? ? _ Hall]; subst.
    rewrite Forall_forall in Hall. apply Hall. assumption.
  - inversion H; subst. apply IH; assumption.
Qed.

(** C6 (as amended).  Greedy-Current returns no RSU only for an empty
    roster; otherwise it returns an RSU of the roster together with its
    strength, every RSU listed before it is strictly weaker and every RSU
    listed after it is at most as strong: the first maximum in roster order
    wins.  When the roster lists the RSUs by strictly increasing identity,
    the winner has the lowest identity among the strongest. *)
Theorem greedy_current_first_max : forall traci vehicle_id rsus,
  let strength :=
    fun rsu => Base.calculate_signal_strength traci (getPosition traci vehicle_id)
                                              rsu vehicle_id in
  match Base.select_rsu traci vehicle_id rsus with
  | (None, _) => rsus = []
  | (Some best_rsu, best_signal) =>
      best_signal = strength best_rsu /\
      (exists before after,
          rsus = before ++ best_rsu :: after /\
          (forall rsu, In rsu before -> strength rsu < strength best_rsu) /\
          (forall rsu, In rsu after -> strength rsu <= strength best_rsu)) /\
      (StronglySorted (fun a b => (rsu_id a < rsu_id b)%Z) rsus ->
       forall rsu, In rsu rsus -> strength rsu = strength best_rsu ->
                   (rsu_id best_rsu <= rsu_id rsu)%Z)
  end.
Proof.
  intros traci vehicle_id rsus strength.
  unfold Base.select_rsu. cbv zeta.
  change (Base.select_step traci (getPosition traci vehicle_id) vehicle_id)
    with (pick RSU strength).
  destruct (fold_pick_spec RSU strength rsus None 0)
    as [[Heq Hle] | (l1 & x & l2 & Hl & Heq & Hlt & H1 & H2)]; rewrite Heq.
  - destruct rsus as [| r rest]; [reflexivity |].
    exfalso. specialize (Hle r (or_introl eq_refl)).
    pose proof (base_strength_pos traci (getPosition traci vehicle_id) r vehicle_id).
    unfold strength in Hle. lra.
  - split; [reflexivity |]. split.
    + exists l1, l2. repeat split; assumption.
    + intros Hsorted rsu Hin Hs. subst rsus.
      apply in_app_or in Hin. destruct Hin as [Hin | [<- | Hin]].
      * specialize (H1 rsu Hin). lra.
      * lia.
      * pose proof (sorted_after _ _ _ _ Hsorted rsu Hin). cbv beta in H. lia.
Qed.

(** Two RSUs at the same distance from the vehicle at (0,0); the one listed
    first has the higher identity. *)
Definition tie_roster : list RSU := [mkRSU 2 1 0; mkRSU 1 (-1) 0].

(** C6, counterexample.  On a tie the RSU listed first is chosen, here the
    one with identity 2, although the RSU with identity 1 is as strong. *)
Lemma greedy_tie_not_lowest_identity :
  Base.select_rsu lone_traci "veh0" tie_roster = (Some (mkRSU 2 1 0), 1 / 2)
  /\ Base.calculate_signal_strength lone_traci (0, 0) (mkRSU 1 (-1) 0) "veh0" = 1 / 2
  /\ (rsu_id (mkRSU 1 (-1) 0) < rsu_id (mkRSU 2 1 0))%Z.
Proof.
  assert (H2 : Base.calculate_signal_strength lone_traci (0, 0) (mkRSU 2 1 0) "veh0" = 1 / 2).
  { rewrite base_strength_spec, base_lone_vehicle_clear by reflexivity.
    rewrite distance_same_y. unfold spec_strength. rbool. cbv zeta.
    rewrite Rmax_0_inv_one_plus by rsolve. rsolve. }
  assert (H1 : Base.calculate_signal_strength lone_traci (0, 0) (mkRSU 1 (-1) 0) "veh0" = 1 / 2).
  { rewrite base_strength_spec, base_lone_vehicle_clear by reflexivity.
    rewrite distance_same_y. unfold spec_strength. rbool. cbv zeta.
    rewrite Rmax_0_inv_one_plus by rsolve. rsolve. }
  split; [| split; [exact H1 | reflexivity]].
  unfold Base.select_rsu, tie_roster. cbv zeta.
  change (getPosition lone_traci "veh0") with ((0, 0) : Pos).
  cbn [fold_left]. unfold Base.select_step. cbv zeta.
  rewrite H2, H1. cbn [snd]. rewrite (Rltb_true 0 (1 / 2)) by lra.
  cbn [snd]. rewrite (Rltb_false (1 / 2) (1 / 2)) by lra. reflexivity.
Qed.

(** ** Rollout: the connection-duration estimate *)

(** The shape both rollout loops share: count [step_size] for every tick
    until the first one that is not viable. *)
Fixpoint rollout (viable : Z -> bool) (step_size : Z) (ticks : list Z) (duration : Z) : Z :=
  match ticks with
  | [] => duration
  | t :: rest =>
      if viable t then rollout viable step_size rest (duration + step_size)
      else duration
  end.

(** Predicted distance to the RSU at the future tick [t], in
    [run_simulation_smart.py]. *)
Definition smart_distance_at (traci : Traci) (vehicle_id : string) (rsu : RSU) (t : Z) : R :=
  distance_to
    (Smart.predict_future_position (getPosition traci vehicle_id)
       (getSpeed traci vehicle_id) (getAngle traci vehicle_id) (IZR t)) rsu.

(** Predicted distance and predicted obstruction at the future tick [t], in
    [run_chandleraz_simulation_smart.py]. *)
Definition chandler_distance_at (traci : Traci) (vehicle_id : string) (rsu : RSU) (t : Z) : R :=
  distance_to (ChandlerSmart.predict_future_position traci vehicle_id (IZR t)) rsu.

Definition chandler_blocked_at (traci : Traci) (vehicle_id : string) (rsu : RSU) (t : Z) : bool :=
  ChandlerSmart.is_blocking_los traci
    (ChandlerSmart.predict_future_position traci vehicle_id (IZR t)) rsu (IZR t).

Lemma smart_duration_loop_rollout traci vehicle_id rsu step_size ticks : forall duration,
  Smart.duration_loop traci vehicle_id rsu step_size ticks duration =
  rollout (fun t => negb (Rltb 400 (smart_distance_at traci vehicle_id rsu t)))
          step_size ticks duration.
Proof.
  induction ticks as [| t rest IH]; intros duration;
    cbn [Smart.duration_loop rollout]; [reflexivity |].
  cbv zeta. fold (smart_distance_at traci vehicle_id rsu t).
  destruct (Rltb 400 (smart_distance_at traci vehicle_id rsu t)); cbn [negb];
    [reflexivity | apply IH].
Qed.

Lemma chandler_duration_loop_rollout traci vehicle_id rsu step_size ticks : forall duration,
  ChandlerSmart.duration_loop traci vehicle_id rsu step_size ticks duration =
  rollout (fun t => negb (Rltb 400 (chandler_distance_at traci vehicle_id rsu t)
                          || chandler_blocked_at traci vehicle_id rsu t))
          step_size ticks duration.
Proof.
  induction ticks as [| t rest IH]; intros duration;
    cbn [ChandlerSmart.duration_loop rollout]; [reflexivity |].
  cbv zeta.
  fold (chandler_distance_at traci vehicle_id rsu t).
  fold (chandler_blocked_at traci vehicle_id rsu t).
  destruct (Rltb 400 (chandler_distance_at traci vehicle_id rsu t)
            || chandler_blocked_at traci vehicle_id rsu t); cbn [negb];
    [reflexivity | apply IH].
Qed.

Lemma py_range_step_1 start stop : py_range start stop 1 = Some (range2 start stop).
Proof.
  unfold py_range, range2, range_len.
  change (1 =? 0)%Z with false. change (0 <? 1)%Z with true. cbv iota.
  f_equal.
  replace (Z.to_nat (if (start <? stop)%Z then (stop - start - 1) / 1 + 1 else 0))%Z
    with (Z.to_nat (stop - start)).
  - apply map_ext. intros i. lia.
  - destruct (Z.ltb_spec start stop).
    + rewrite Z.div_1_r. lia.
    + lia.
Qed.

Lemma rollout_consecutive viable n : forall k duration,
  exists j : nat,
    (j <= n)%nat /\
    rollout viable 1 (map (fun i => (1 + Z.of_nat i)%Z) (seq k n)) duration
      = (duration + Z.of_nat j)%Z /\
    (forall i, (i < j)%nat -> viable (1 + Z.of_nat (k + i))%Z = true) /\
    ((j < n)%nat -> viable (1 + Z.of_nat (k + j))%Z = false).
Proof.
  induction n as [| n IH]; intros k duration; cbn [seq map rollout].
  - exists 0%nat. repeat split; lia.
  - destruct (viable (1 + Z.of_nat k)%Z) eqn:E.
    + destruct (IH (S k) (duration + 1)%Z) as (j & Hj & Hr & Hv & Hstop).
      exists (S j). split; [lia |]. split; [rewrite Hr; lia |]. split.
      * intros [| i] Hi.
        -- rewrite Nat.add_0_r. assumption.
        -- replace (k + S i)%nat with (S k + i)%nat by lia. apply Hv. lia.
      * intros Hlt. replace (k + S j)%nat with (S k + j)%nat by lia. apply Hstop. lia.
    + exists 0%nat. split; [lia |]. split; [lia |]. split.
      * intros i Hi. lia.
      * intros _. rewrite Nat.add_0_r. assumption.
Qed.

Lemma rollout_range_spec viable max_duration :
  let d := rollout viable 1 (range2 1 (max_duration + 1)) 0 in
  (0 <= d <= Z.max 0 max_duration)%Z /\
  (forall t, (1 <= t <= d)%Z -> viable t = true) /\
  ((d < max_duration)%Z -> viable (d + 1)%Z = false).
Proof.
  cbv zeta. unfold range2.
  destruct (rollout_consecutive viable (Z.to_nat (max_duration + 1 - 1)) 0%nat 0%Z)
    as (j & Hj & Hr & Hv & Hstop).
  rewrite Hr. cbn [Nat.add] in Hv, Hstop. split; [lia |]. split.
  - intros t Ht.
    replace t with (1 + Z.of_nat (Z.to_nat (t - 1)))%Z by lia.
    apply Hv. lia.
  - intros Hlt. replace (0 + Z.of_nat j + 1)%Z with (1 + Z.of_nat j)%Z by lia.
    apply Hstop. lia.
Qed.

Lemma rollout_all_viable viable step_size ticks : forall duration,
  (forall t, In t ticks -> viable t = true) ->
  rollout viable step_size ticks duration =
  (duration + step_size * Z.of_nat (List.length ticks))%Z.
Proof.
  induction ticks as [| t rest IH]; intros duration Hall; cbn [rollout List.length].
  - lia.
  - rewrite (Hall t (or_introl eq_refl)).
    rewrite IH by (intros t' Ht'; apply Hall; right; assumption). lia.
Qed.

Lemma not_Rltb_le a b : negb (Rltb a b) = true -> b <= a.
Proof.
  intros H. destruct (Rle_dec b a); [assumption |].
  rewrite Rltb_true in H by lra. discriminate.
Qed.

Lemma not_Rltb_gt a b : negb (Rltb a b) = false -> a < b.
Proof.
  intros H. apply Rltb_iff. destruct (Rltb a b); [reflexivity | discriminate].
Qed.

(** The loop over the ticks [1 + i * step_size]: the number of ticks counted,
    which are viable, and the tick that stopped the loop. *)
Lemma rollout_stride viable step_size n : forall k duration,
  exists j : nat,
    (j <= n)%nat /\
    rollout viable step_size
            (map (fun i => (1 + Z.of_nat i * step_size)%Z) (seq k n)) duration
      = (duration + step_size * Z.of_nat j)%Z /\
    (forall i, (i < j)%nat -> viable (1 + Z.of_nat (k + i) * step_size)%Z = true) /\
    ((j < n)%nat -> viable (1 + Z.of_nat (k + j) * step_size)%Z = false).
Proof.
  induction n as [| n IH]; intros k duration; cbn [seq map rollout].
  - exists 0%nat. repeat split; lia.
  - destruct (viable (1 + Z.of_nat k * step_size)%Z) eqn:E.
    + destruct (IH (S k) (duration + step_size)%Z) as (j & Hj & Hr & Hv & Hstop).
      exists (S j). split; [lia |]. split; [rewrite Hr; lia |]. split.
      * intros [| i] Hi.
        -- rewrite Nat.add_0_r. assumption.
        -- replace (k + S i)%nat with (S k + i)%nat by lia. apply Hv. lia.
      * intros Hlt. replace (k + S j)%nat with (S k + j)%nat by lia. apply Hstop. lia.
    + exists 0%nat. split; [lia |]. split; [lia |]. split.
      * intros i Hi. lia.
      * intros _. rewrite Nat.add_0_r. assumption.
Qed.

(** The ticks of [range(1, max_duration + 1, step_size)] for a positive step. *)
Lemma range_len_stride max_duration step_size :
  (0 < step_size)%Z ->
  let n := range_len 1 (max_duration + 1) step_size in
  (0 <= n)%Z /\
  (step_size * n <= Z.max 0 max_duration + step_size - 1)%Z /\
  (forall k, (0 <= k)%Z -> (1 + k * step_size <= max_duration)%Z -> (k < n)%Z).
Proof.
  intros Hpos. cbv zeta. unfold range_len.
  rewrite (proj2 (Z.ltb_lt 0 step_size)) by lia.
  destruct (Z.ltb_spec 1 (max_duration + 1)) as [Hlt | Hge].
  - replace (max_duration + 1 - 1 - 1)%Z with (max_duration - 1)%Z by lia.
    pose proof (Z.mul_div_le (max_duration - 1) step_size Hpos) as Hdiv.
    pose proof (Z.div_pos (max_duration - 1) step_size ltac:(lia) Hpos) as Hq.
    pose proof (Z.mul_succ_div_gt (max_duration - 1) step_size Hpos) as Hgt.
    split; [lia |]. split; [nia |].
    intros k Hk Hle. nia.
  - split; [lia |]. split; [lia |]. intros k Hk Hle. nia.
Qed.

Lemma chandler_distance_is_smart traci vehicle_id rsu t :
  chandler_distance_at traci vehicle_id rsu t = smart_distance_at traci vehicle_id rsu t.
Proof. reflexivity. Qed.

(** C4 (as amended).  For a positive step size, the rollout estimate of
    [run_simulation_smart.py] is [step_size * k], where [k] counts the ticks
    1, 1 + step_size, 1 + 2 step_size, ... up to [max_duration] that precede
    the first one at which the predicted distance to the RSU exceeds 400:
    every counted tick is within range and, unless the ticks are exhausted,
    the next one is not.  Obstruction plays no part in it.  The estimate is at
    least 0 and at most [max(0, max_duration) + step_size - 1], hence within
    [0, max_duration] for the step 1; it is 0 when the vehicle is out of range
    at tick 1.  The estimate of [run_chandleraz_simulation_smart.py] is
    [step_size * k'] with [0 <= k' <= k]: its loop stops at the same tick or
    earlier. *)
Theorem rollout_duration_estimate : forall traci vehicle_id rsu max_duration step_size,
  (0 < step_size)%Z ->
  exists k k' : Z,
    Smart.estimate_connection_duration traci vehicle_id rsu max_duration step_size
    = Some (step_size * k)%Z /\
    ChandlerSmart.estimate_connection_duration traci vehicle_id rsu max_duration step_size
    = Some (step_size * k')%Z /\
    (0 <= k' <= k)%Z /\
    (step_size * k <= Z.max 0 max_duration + step_size - 1)%Z /\
    (forall i, (0 <= i < k)%Z ->
               smart_distance_at traci vehicle_id rsu (1 + i * step_size) <= 400) /\
    ((1 + k * step_size <= max_duration)%Z ->
     400 < smart_distance_at traci vehicle_id rsu (1 + k * step_size)) /\
    (400 < smart_distance_at traci vehicle_id rsu 1 -> k = 0%Z).
Proof.
  intros traci vehicle_id rsu max_duration step_size Hpos.
  unfold Smart.estimate_connection_duration, ChandlerSmart.estimate_connection_duration,
    py_range.
  rewrite (proj2 (Z.eqb_neq step_size 0)) by lia.
  rewrite smart_duration_loop_rollout, chandler_duration_loop_rollout.
  destruct (range_len_stride max_duration step_size Hpos) as (Hn & Hbound & Hin).
  set (n := range_len 1 (max_duration + 1) step_size) in *.
  set (viable := fun t => negb (Rltb 400 (smart_distance_at traci vehicle_id rsu t))).
  set (viable' := fun t => negb (Rltb 400 (chandler_distance_at traci vehicle_id rsu t)
                                  || chandler_blocked_at traci vehicle_id rsu t)).
  destruct (rollout_stride viable step_size (Z.to_nat n) 0%nat 0%Z)
    as (j & Hj & Hr & Hv & Hstop).
  destruct (rollout_stride viable' step_size (Z.to_nat n) 0%nat 0%Z)
    as (j' & Hj' & Hr' & Hv' & _).
  cbn [Nat.add] in Hv, Hstop, Hv'.
  assert (Hle : forall i, (0 <= i < Z.of_nat j)%Z ->
                  smart_distance_at traci vehicle_id rsu (1 + i * step_size) <= 400).
  { intros i Hi. apply not_Rltb_le.
    replace i with (Z.of_nat (Z.to_nat i)) by lia. apply (Hv (Z.to_nat i)). lia. }
  assert (Hjj : (j' <= j)%nat).
  { destruct (Nat.le_gt_cases j' j) as [| Hgt]; [assumption | exfalso].
    specialize (Hstop ltac:(lia)). specialize (Hv' j Hgt).
    unfold viable in Hstop. unfold viable' in Hv'.
    rewrite chandler_distance_is_smart in Hv'.
    destruct (Rltb 400 _); discriminate. }
  exists (Z.of_nat j), (Z.of_nat j'). rewrite Hr, Hr'.
  split; [reflexivity |]. split; [reflexivity |]. split; [lia |].
  split; [nia |]. split; [exact Hle |]. split.
  - intros Hnext. apply not_Rltb_gt. apply Hstop.
    specialize (Hin (Z.of_nat j) ltac:(lia) Hnext). lia.
  - intros Hfar. destruct j as [| j]; [reflexivity | exfalso].
    specialize (Hle 0%Z ltac:(lia)). rewrite Z.mul_0_l, Z.add_0_r in Hle. lra.
Qed.

(** The standing vehicle of [lone_traci], 100 units from the RSU, with step
    size 3 and bound 10. *)
Lemma rollout_duration_estimate_witness :
  exists k k' : Z,
    Smart.estimate_connection_duration lone_traci "veh0" rsu_at_100 10 3
    = Some (3 * k)%Z /\
    ChandlerSmart.estimate_connection_duration lone_traci "veh0" rsu_at_100 10 3
    = Some (3 * k')%Z /\
    (0 <= k' <= k)%Z /\
    (3 * k <= Z.max 0 10 + 3 - 1)%Z /\
    (forall i, (0 <= i < k)%Z ->
               smart_distance_at lone_traci "veh0" rsu_at_100 (1 + i * 3) <= 400) /\
    ((1 + k * 3 <= 10)%Z ->
     400 < smart_distance_at lone_traci "veh0" rsu_at_100 (1 + k * 3)) /\
    (400 < smart_distance_at lone_traci "veh0" rsu_at_100 1 -> k = 0%Z).
Proof.
  apply (rollout_duration_estimate lone_traci "veh0" rsu_at_100 10 3). lia.
Defined.

(** A standing vehicle at (0,0), a standing truck at (50,0) and the RSU at
    (100,0): the truck stays on the line of sight. *)
Definition blocked_road_traci : Traci :=
  mkTraci ["veh0"%string; "truck"%string]
          (fun v => if String.eqb v "veh0" then (0, 0) else (50, 0))
          (fun _ => 0) (fun _ => 0) (fun _ => 5) (fun _ => 2).

(** C4, counterexample.  With [max_duration = 10] and [step_size = 3] the
    loop of [run_simulation_smart.py] visits the ticks 1, 4, 7, 10 and adds 3
    for each: the estimate of the standing vehicle 100 units from the RSU is
    12, above [max_duration].  And with the truck of [blocked_road_traci]
    inside the line-of-sight box at every tick 1..10, the link is obstructed
    from the first predicted tick on, yet the estimate is 10, not 0. *)
Lemma rollout_estimate_exceeds_and_ignores_obstruction :
  (Smart.estimate_connection_duration lone_traci "veh0" rsu_at_100 10 3 = Some 12%Z
   /\ (10 < 12)%Z)
  /\ (Smart.estimate_connection_duration blocked_road_traci "veh0" rsu_at_100 10 1
      = Some 10%Z
      /\ forall t, (1 <= t <= 10)%Z ->
           in_los_box
             (Smart.predict_future_position (getPosition blocked_road_traci "veh0")
                (getSpeed blocked_road_traci "veh0") (getAngle blocked_road_traci "veh0")
                (IZR t))
             rsu_at_100 (getPosition blocked_road_traci "truck") = true).
Proof.
  split; [split; [| reflexivity] | split].
  - unfold Smart.estimate_connection_duration.
    change (py_range 1 (10 + 1) 3) with (Some [1; 4; 7; 10]%Z). cbv iota beta.
    rewrite smart_duration_loop_rollout, rollout_all_viable; [reflexivity |].
    intros t _. unfold smart_distance_at.
    change (getSpeed lone_traci "veh0") with 0.
    rewrite smart_predict_stationary.
    change (getPosition lone_traci "veh0") with ((0, 0) : Pos).
    unfold rsu_at_100. rewrite distance_same_y. rbool. reflexivity.
  - unfold Smart.estimate_connection_duration.
    rewrite py_range_step_1, smart_duration_loop_rollout, rollout_all_viable;
      [reflexivity |].
    intros t _. unfold smart_distance_at.
    change (getSpeed blocked_road_traci "veh0") with 0.
    rewrite smart_predict_stationary.
    change (getPosition blocked_road_traci "veh0") with ((0, 0) : Pos).
    unfold rsu_at_100. rewrite distance_same_y. rbool. reflexivity.
  - intros t _.
    change (getSpeed blocked_road_traci "veh0") with 0.
    rewrite smart_predict_stationary.
    change (getPosition blocked_road_traci "veh0") with ((0, 0) : Pos).
    change (getPosition blocked_road_traci "truck") with ((50, 0) : Pos).
    unfold in_los_box, rsu_at_100. cbn [fst snd rsu_x rsu_y]. rbool. reflexivity.
Qed.

(** In [run_chandleraz_simulation_smart.py] the obstacles of [is_blocking_los]
    are all the vehicles of the simulator, each at its predicted position.
    The subject vehicle is one of them and its predicted position is a corner
    of the box, so the very first tick is obstructed: the estimate is 0 for
    every vehicle the simulator lists. *)
Lemma chandler_subject_blocks_itself traci vehicle_id rsu time_ahead obstacles :
  In vehicle_id obstacles ->
  ChandlerSmart.blocking_ids traci
    (ChandlerSmart.predict_future_position traci vehicle_id time_ahead)
    rsu time_ahead obstacles = true.
Proof.
  induction obstacles as [| o rest IH]; cbn [In ChandlerSmart.blocking_ids]; [tauto |].
  cbv zeta. intros [-> | Hin].
  - rewrite in_los_box_self. reflexivity.
  - rewrite (IH Hin). destruct (in_los_box _ _ _); reflexivity.
Qed.

Lemma chandler_estimate_of_listed_vehicle traci vehicle_id rsu max_duration step_size :
  In vehicle_id (getIDList traci) ->
  step_size <> 0%Z ->
  ChandlerSmart.estimate_connection_duration traci vehicle_id rsu max_duration step_size
  = Some 0%Z.
Proof.
  intros Hin Hstep. unfold ChandlerSmart.estimate_connection_duration, py_range.
  apply Z.eqb_neq in Hstep. rewrite Hstep. f_equal.
  destruct (map _ _) as [| t rest]; cbn [ChandlerSmart.duration_loop]; [reflexivity |].
  cbv zeta. unfold ChandlerSmart.is_blocking_los.
  rewrite chandler_subject_blocks_itself by assumption.
  rewrite orb_true_r. reflexivity.
Qed.

(** ** Greedy-Lookahead: what the emitted row holds *)

Lemma radians_0 : radians 0 = 0.
Proof. unfold radians, Rdiv. ring. Qed.

Lemma smart_predict_heading_0 x s t :
  Smart.predict_future_position (x, 0) s 0 t = (x + s * t, 0).
Proof.
  unfold Smart.predict_future_position. cbv zeta. cbn [fst snd].
  rewrite radians_0, cos_0, sin_0. f_equal; ring.
Qed.

(** One vehicle at (0,0) driving along the x axis at speed 1. *)
Definition moving_traci : Traci :=
  mkTraci ["veh0"%string] (fun _ => (0, 0)) (fun _ => 1) (fun _ => 0)
          (fun _ => 5) (fun _ => 2).

Definition rsu_near : RSU := mkRSU 1 5 0.
Definition rsu_far : RSU := mkRSU 2 405 0.

Lemma moving_distance_at i a t :
  smart_distance_at moving_traci "veh0" (mkRSU i a 0) t = Rabs (IZR t - a).
Proof.
  unfold smart_distance_at.
  change (getPosition moving_traci "veh0") with ((0, 0) : Pos).
  change (getSpeed moving_traci "veh0") with 1.
  change (getAngle moving_traci "veh0") with 0.
  rewrite smart_predict_heading_0, distance_same_y. f_equal. ring.
Qed.

Lemma moving_strength i a :
  2 < a ->
  Smart.calculate_signal_strength moving_traci (2, 0) (mkRSU i a 0) = 1 / (1 + (a - 2)).
Proof.
  intros Ha. rewrite smart_strength_spec, distance_same_y.
  assert (Hclear : Smart.check_for_obstacles moving_traci (2, 0) (mkRSU i a 0) = false).
  { unfold Smart.check_for_obstacles, moving_traci.
    cbn [getIDList getPosition Smart.check_obstacle_ids].
    unfold in_los_box. cbn [fst snd rsu_x rsu_y].
    rewrite (Rleb_false (Rmin 2 a) 0) by rsolve. reflexivity. }
  rewrite Hclear. unfold spec_strength.
  rewrite Reqb_false by rsolve. cbv zeta.
  rewrite Rmax_0_inv_one_plus by rsolve.
  f_equal. f_equal. rsolve.
Qed.

Lemma range2_1_11_bounds t : In t (range2 1 (10 + 1)) -> (1 <= t <= 10)%Z.
Proof.
  change (range2 1 (10 + 1)) with [1; 2; 3; 4; 5; 6; 7; 8; 9; 10]%Z.
  cbn [In]. lia.
Qed.

Lemma moving_duration_near :
  Smart.estimate_connection_duration moving_traci "veh0" rsu_near 10 1 = Some 10%Z.
Proof.
  unfold Smart.estimate_connection_duration.
  rewrite py_range_step_1, smart_duration_loop_rollout, rollout_all_viable; [reflexivity |].
  intros t Ht. apply range2_1_11_bounds in Ht.
  unfold rsu_near. rewrite moving_distance_at.
  assert (1 <= IZR t <= 10) by (split; apply IZR_le; lia).
  rewrite Rltb_false by rsolve. reflexivity.
Qed.

Lemma moving_duration_far :
  Smart.estimate_connection_duration moving_traci "veh0" rsu_far 10 1 = Some 0%Z.
Proof.
  unfold Smart.estimate_connection_duration.
  rewrite py_range_step_1, smart_duration_loop_rollout.
  change (range2 1 (10 + 1)) with [1; 2; 3; 4; 5; 6; 7; 8; 9; 10]%Z.
  cbn [rollout]. unfold rsu_far. rewrite moving_distance_at.
  rewrite Rltb_true by rsolve. reflexivity.
Qed.

(** The strength the selection loop computes for one RSU: at the position
    predicted two ticks ahead. *)
Definition smart_strength_of (traci : Traci) (vehicle_id : string) (rsu : RSU) : R :=
  Smart.calculate_signal_strength traci
    (Smart.predict_future_position (getPosition traci vehicle_id)
       (getSpeed traci vehicle_id) (getAngle traci vehicle_id) 2) rsu.

(** C7.  In [run_simulation_smart.py] the row written for a vehicle carries
    the identity and the score of the chosen RSU, but its signal strength
    and its duration are the loop variables, which hold the values of the
    RSU visited last.  For the vehicle of [moving_traci] and the roster
    [rsu_near; rsu_far] the row names RSU 1 with score 5/2, strength 1/404
    and duration 0, while RSU 1 has strength 1/4 and duration 10; 1/404 and
    0 are the values of RSU 2. *)
Theorem smart_row_holds_last_rsu_values :
  exists row,
    Smart.vehicle_row moving_traci 7 "veh0" [rsu_near; rsu_far] = Some row
    /\ Smart.row_rsu row = rsu_id rsu_near
    /\ Smart.row_score row = 5 / 2
    /\ Smart.row_signal row = 1 / 404
    /\ Smart.row_duration row = 0%Z
    /\ smart_strength_of moving_traci "veh0" rsu_near = 1 / 4
    /\ Smart.estimate_connection_duration moving_traci "veh0" rsu_near 10 1 = Some 10%Z
    /\ smart_strength_of moving_traci "veh0" rsu_far = 1 / 404
    /\ Smart.estimate_connection_duration moving_traci "veh0" rsu_far 10 1 = Some 0%Z.
Proof.
  assert (Hpos : Smart.predict_future_position (getPosition moving_traci "veh0")
                   (getSpeed moving_traci "veh0") (getAngle moving_traci "veh0") 2 = (2, 0)).
  { change (getPosition moving_traci "veh0") with ((0, 0) : Pos).
    change (getSpeed moving_traci "veh0") with 1.
    change (getAngle moving_traci "veh0") with 0.
    rewrite smart_predict_heading_0. f_equal. ring. }
  assert (Hnear : Smart.calculate_signal_strength moving_traci (2, 0) rsu_near = 1 / 4).
  { unfold rsu_near. rewrite moving_strength by lra. lra. }
  assert (Hfar : Smart.calculate_signal_strength moving_traci (2, 0) rsu_far = 1 / 404).
  { unfold rsu_far. rewrite moving_strength by lra. lra. }
  exists (Smart.mkRow 7 "veh0" 1 (1 / 404) 0 (1 / 4 * 10)).
  split.
  - unfold Smart.vehicle_row, Smart.select_rsu. cbv zeta. rewrite Hpos.
    cbn [fold_left]. unfold Smart.select_step.
    rewrite Hnear, moving_duration_near. cbv zeta. cbn [Smart.best_score].
    rewrite (Rltb_true 0 (1 / 4 * 10)) by lra.
    rewrite Hfar, moving_duration_far. cbn [Smart.best_score Smart.best_rsu].
    rewrite (Rltb_false (1 / 4 * 10) (1 / 404 * 0)) by lra.
    reflexivity.
  - cbn [Smart.row_rsu Smart.row_score Smart.row_signal Smart.row_duration].
    unfold smart_strength_of. rewrite Hpos.
    repeat split; try assumption; try reflexivity; try lra.
    + apply moving_duration_near.
    + apply moving_duration_far.
Qed.

(** ** A vehicle whose reported speed is negative *)



(** ** The time-expanded graph: the live set *)

(** Predicted distance to the RSU at tick [t] in the scheduler. *)
Definition dag_distance_at (traci : Traci) (vehicle_id : string) (timestep : R)
    (rsu : RSU) (t : Z) : R :=
  distance_to (ChandlerBAware.predict_future_position traci vehicle_id (IZR t * timestep)) rsu.

(** No RSU of the roster is within the range threshold at tick [t]. *)
Definition no_rsu_in_range (traci : Traci) (vehicle_id : string) (timestep : R)
    (rsus : list RSU) (t : Z) : Prop :=
  forall rsu, In rsu rsus -> 400 < dag_distance_at traci vehicle_id timestep rsu t.

Lemma rsu_steps_out_of_range future_pos t last_nodes rsus : forall st,
  (forall rsu, In rsu rsus -> 400 < distance_to future_pos rsu) ->
  fold_left (ChandlerBAware.rsu_step future_pos t last_nodes) rsus st = st.
Proof.
  induction rsus as [| rsu rest IH]; intros st Hfar; cbn [fold_left]; [reflexivity |].
  assert (Hstep : ChandlerBAware.rsu_step future_pos t last_nodes st rsu = st).
  { unfold ChandlerBAware.rsu_step. destruct st as [G current]. cbv zeta.
    rewrite Rleb_false by (apply Hfar; left; reflexivity). reflexivity. }
  rewrite Hstep. apply IH. intros r Hr. apply Hfar. right. assumption.
Qed.

Lemma tick_step_out_of_range traci vehicle_id rsus timestep G last_nodes t :
  no_rsu_in_range traci vehicle_id timestep rsus t ->
  ChandlerBAware.tick_step traci vehicle_id rsus timestep (G, last_nodes) t = (G, last_nodes).
Proof.
  intros Hfar. unfold ChandlerBAware.tick_step. cbv zeta.
  rewrite rsu_steps_out_of_range by exact Hfar. reflexivity.
Qed.

Lemma tick_step_live_nonempty traci vehicle_id rsus timestep st t :
  snd st <> [] ->
  snd (ChandlerBAware.tick_step traci vehicle_id rsus timestep st t) <> [].
Proof.
  intros Hne. unfold ChandlerBAware.tick_step. destruct st as [G last_nodes]. cbv zeta.
  destruct (fold_left _ rsus (G, [])) as [G' current].
  destruct current; cbn [snd] in *; [assumption | discriminate].
Qed.

Lemma ticks_live_nonempty traci vehicle_id rsus timestep ticks : forall st,
  snd st <> [] ->
  snd (fold_left (ChandlerBAware.tick_step traci vehicle_id rsus timestep) ticks st) <> [].
Proof.
  induction ticks as [| t rest IH]; intros st Hne; cbn [fold_left]; [assumption |].
  apply IH. apply tick_step_live_nonempty. assumption.
Qed.

(** C3.  At a tick where no RSU is within the range threshold the loop body
    leaves the live set (and the graph) as they were after the previous
    tick; a tick never turns a non-empty live set into the empty one; and
    the live set is non-empty after any number of ticks. *)
Theorem live_set_carry_forward :
  (forall traci vehicle_id rsus timestep G last_nodes t,
      no_rsu_in_range traci vehicle_id timestep rsus t ->
      ChandlerBAware.tick_step traci vehicle_id rsus timestep (G, last_nodes) t
      = (G, last_nodes))
  /\ (forall traci vehicle_id rsus timestep G last_nodes t,
      last_nodes <> [] ->
      snd (ChandlerBAware.tick_step traci vehicle_id rsus timestep (G, last_nodes) t) <> [])
  /\ (forall traci vehicle_id rsus timestep ticks,
      snd (ChandlerBAware.after_ticks traci vehicle_id rsus timestep ticks) <> []).
Proof.
  split; [| split].
  - intros. apply tick_step_out_of_range. assumption.
  - intros traci vehicle_id rsus timestep G last_nodes t Hne.
    apply tick_step_live_nonempty. assumption.
  - intros. unfold ChandlerBAware.after_ticks.
    apply ticks_live_nonempty. cbn [snd]. discriminate.
Qed.

(** An RSU 1000 units from the standing vehicle of [lone_traci]. *)
Definition remote_roster : list RSU := [mkRSU 1 1000 0].

Lemma chandler_baware_predict_stationary traci vehicle_id time_ahead :
  getSpeed traci vehicle_id = 0 ->
  ChandlerBAware.predict_future_position traci vehicle_id time_ahead
  = getPosition traci vehicle_id.
Proof.
  intros Hs. unfold ChandlerBAware.predict_future_position. cbv zeta.
  rewrite Hs, !Rmult_0_l, !Rplus_0_r. destruct (getPosition traci vehicle_id); reflexivity.
Qed.

Lemma remote_roster_out_of_range t :
  no_rsu_in_range lone_traci "veh0" 1 remote_roster t.
Proof.
  intros rsu [<- | []]. unfold dag_distance_at.
  rewrite chandler_baware_predict_stationary by reflexivity.
  change (getPosition lone_traci "veh0") with ((0, 0) : Pos).
  rewrite distance_same_y. rsolve.
Qed.

(** C3, witness: the remote RSU is out of range at tick 1, and the live set
    stays [start_node]. *)
Lemma live_set_carry_forward_witness :
  ChandlerBAware.tick_step lone_traci "veh0" remote_roster 1
    (add_node empty_graph ChandlerBAware.start_node, [ChandlerBAware.start_node]) 1
  = (add_node empty_graph ChandlerBAware.start_node, [ChandlerBAware.start_node]).
Proof.
  apply (proj1 live_set_carry_forward). apply remote_roster_out_of_range.
Defined.

(** ** The schedule when no RSU is ever in range *)

Ltac graph_step :=
  cbv beta iota zeta delta
      [fold_left add_edge add_node set_add existsb nodes edges set_weight app
       relax_node label_of out_edges filter relax set_label node_eqb name_eqb
       fst snd andb orb negb option_map empty_graph ChandlerBAware.start_node];
  cbn [Z.eqb Pos.eqb];
  rewrite ?Z.eqb_refl.

Ltac graph_simpl := repeat progress graph_step.

Lemma ticks_out_of_range traci vehicle_id rsus timestep ticks : forall G last_nodes,
  (forall t, In t ticks -> no_rsu_in_range traci vehicle_id timestep rsus t) ->
  fold_left (ChandlerBAware.tick_step traci vehicle_id rsus timestep) ticks (G, last_nodes)
  = (G, last_nodes).
Proof.
  induction ticks as [| t rest IH]; intros G last_nodes Hfar; cbn [fold_left];
    [reflexivity |].
  rewrite tick_step_out_of_range by (apply Hfar; left; reflexivity).
  apply IH. intros t' Ht'. apply Hfar. right. assumption.
Qed.

Lemma dag_graph_without_coverage traci vehicle_id rsus horizon timestep :
  (forall t, In t (range2 1 (horizon + 1)) ->
             no_rsu_in_range traci vehicle_id timestep rsus t) ->
  ChandlerBAware.dag_graph traci vehicle_id rsus horizon timestep
  = mkDiGraph [ChandlerBAware.start_node; (end_name, (horizon + 1)%Z)]
              [(ChandlerBAware.start_node, (end_name, (horizon + 1)%Z), 0)].
Proof.
  intros Hfar. unfold ChandlerBAware.dag_graph, ChandlerBAware.after_ticks.
  rewrite ticks_out_of_range by exact Hfar.
  graph_simpl. reflexivity.
Qed.

Lemma construct_dag_without_coverage traci vehicle_id rsus horizon timestep :
  (forall t, In t (range2 1 (horizon + 1)) ->
             no_rsu_in_range traci vehicle_id timestep rsus t) ->
  ChandlerBAware.construct_dag traci vehicle_id rsus horizon timestep
  = [ChandlerBAware.start_node; (end_name, (horizon + 1)%Z)].
Proof.
  intros Hfar. unfold ChandlerBAware.construct_dag. cbv zeta.
  rewrite dag_graph_without_coverage by exact Hfar.
  unfold shortest_path. graph_simpl. reflexivity.
Qed.

(** C2 (as amended).  When no RSU is within the 400-unit range threshold of
    the predicted position at any tick 1..H, the scheduler returns the
    two-node path [(start, 0); (end, H+1)], which holds no RSU: the live set
    is still [(start, 0)] after the ticks, so the end node is linked to the
    start node and is reachable. *)
Theorem schedule_without_coverage : forall traci vehicle_id rsus horizon timestep,
  (forall t, In t (range2 1 (horizon + 1)) ->
             no_rsu_in_range traci vehicle_id timestep rsus t) ->
  ChandlerBAware.construct_dag traci vehicle_id rsus horizon timestep
  = [ChandlerBAware.start_node; (end_name, (horizon + 1)%Z)]
  /\ forall name t,
       In (name, t) (ChandlerBAware.construct_dag traci vehicle_id rsus horizon timestep) ->
       name = start_name \/ name = end_name.
Proof.
  intros traci vehicle_id rsus horizon timestep Hfar.
  rewrite construct_dag_without_coverage by exact Hfar.
  split; [reflexivity |].
  intros name t [H | [H | []]]; inversion H; auto.
Qed.

(** C2, witness: the remote roster, horizon 10. *)
Lemma schedule_without_coverage_witness :
  ChandlerBAware.construct_dag lone_traci "veh0" remote_roster 10 1
  = [ChandlerBAware.start_node; (end_name, 11%Z)].
Proof.
  apply (proj1 (schedule_without_coverage lone_traci "veh0" remote_roster 10 1
                  (fun t _ => remote_roster_out_of_range t))).
Defined.

(** C2, counterexample.  With the only RSU 1000 units away at every tick the
    scheduler returns two nodes, not the one-node path. *)
Lemma schedule_without_coverage_has_end_node :
  (forall t, In t (range2 1 (10 + 1)) ->
             no_rsu_in_range lone_traci "veh0" 1 remote_roster t)
  /\ ChandlerBAware.construct_dag lone_traci "veh0" remote_roster 10 1
     = [(start_name, 0%Z); (end_name, 11%Z)]
  /\ ChandlerBAware.construct_dag lone_traci "veh0" remote_roster 10 1
     <> [(start_name, 0%Z)].
Proof.
  assert (Hfar : forall t, In t (range2 1 (10 + 1)) ->
                           no_rsu_in_range lone_traci "veh0" 1 remote_roster t)
    by (intros t _; apply remote_roster_out_of_range).
  split; [exact Hfar |].
  rewrite (construct_dag_without_coverage _ _ _ _ _ Hfar).
  split; [reflexivity | discriminate].
Qed.

(** ** Walks and the relaxation pass *)

Lemma name_eqb_eq a b : name_eqb a b = true <-> a = b.
Proof.
  destruct a, b; cbn [name_eqb]; split; intros H;
    try reflexivity; try discriminate.
  - apply Z.eqb_eq in H. congruence.
  - inversion H. apply Z.eqb_refl.
Qed.

Lemma node_eqb_eq a b : node_eqb a b = true <-> a = b.
Proof.
  destruct a as [na ta], b as [nb tb]. unfold node_eqb. cbn [fst snd].
  rewrite andb_true_iff, name_eqb_eq, Z.eqb_eq. split.
  - intros [-> ->]. reflexivity.
  - intros H. inversion H. split; reflexivity.
Qed.

Lemma node_eqb_refl a : node_eqb a a = true.
Proof. apply node_eqb_eq. reflexivity. Qed.

Lemma node_eqb_neq a b : node_eqb a b = false <-> a <> b.
Proof.
  split.
  - intros H Heq. apply node_eqb_eq in Heq. congruence.
  - intros H. destruct (node_eqb a b) eqn:E; [| reflexivity].
    apply node_eqb_eq in E. contradiction.
Qed.

Lemma label_of_set_label x v l L :
  label_of x (set_label v l L) = if node_eqb x v then Some l else label_of x L.
Proof.
  induction L as [| [m l'] rest IH]; cbn [set_label label_of]; [reflexivity |].
  destruct (node_eqb v m) eqn:Evm; cbn [label_of].
  - apply node_eqb_eq in Evm. subst m. destruct (node_eqb x v); reflexivity.
  - rewrite IH. destruct (node_eqb x m) eqn:Exm; [| reflexivity].
    apply node_eqb_eq in Exm. subst m.
    assert (Hxv : node_eqb x v = false)
      by (apply node_eqb_neq; apply node_eqb_neq in Evm; congruence).
    rewrite Hxv. reflexivity.
Qed.

Section Walks.
Variable G : DiGraph.

(** A walk from [s]: the nodes visited and the sum of the weights of its
    edges.  The edges of a walk via [P] leave nodes that satisfy [P]. *)
Inductive walk_via (P : Node -> Prop) (s : Node) : Node -> list Node -> R -> Prop :=
| walk_start : walk_via P s s [s] 0
| walk_step : forall v x w p c,
    walk_via P s v p c -> P v -> In (v, x, w) (edges G) ->
    walk_via P s x (p ++ [x]) (c + w).

Definition walk : Node -> Node -> list Node -> R -> Prop := walk_via (fun _ => True).

(** Every label is the weight and the node list of a walk. *)
Definition sound (s : Node) (L : Labels) : Prop :=
  forall v d p, label_of v L = Some (d, p) -> walk s v p d.

(** Labels never get worse. *)
Definition improves (L L' : Labels) : Prop :=
  forall x d q, label_of x L = Some (d, q) ->
                exists d' q', label_of x L' = Some (d', q') /\ d' <= d.

Lemma improves_refl L : improves L L.
Proof. intros x d q H. exists d, q. split; [assumption | lra]. Qed.

Lemma improves_trans L1 L2 L3 : improves L1 L2 -> improves L2 L3 -> improves L1 L3.
Proof.
  intros H12 H23 x d q H.
  destruct (H12 x d q H) as (d2 & q2 & H2 & Hle2).
  destruct (H23 x d2 q2 H2) as (d3 & q3 & H3 & Hle3).
  exists d3, q3. split; [assumption | lra].
Qed.

Lemma relax_improves du pu L e : improves L (relax du pu L e).
Proof.
  destruct e as [[u v] w]. intros x d q H. unfold relax.
  destruct (label_of v L) as [[dv pv] |] eqn:Ev.
  - destruct (Rltb (du + w) dv) eqn:Elt; [| exists d, q; split; [assumption | lra]].
    rewrite label_of_set_label. destruct (node_eqb x v) eqn:Exv.
    + apply node_eqb_eq in Exv. subst x. rewrite Ev in H. inversion H; subst.
      apply Rltb_iff in Elt. exists (du + w), (pu ++ [v]). split; [reflexivity | lra].
    + exists d, q. split; [assumption | lra].
  - rewrite label_of_set_label. destruct (node_eqb x v) eqn:Exv.
    + apply node_eqb_eq in Exv. subst x. congruence.
    + exists d, q. split; [assumption | lra].
Qed.

Lemma relax_target du pu L u v w :
  exists d' q', label_of v (relax du pu L (u, v, w)) = Some (d', q') /\ d' <= du + w.
Proof.
  unfold relax. destruct (label_of v L) as [[dv pv] |] eqn:Ev.
  - destruct (Rltb (du + w) dv) eqn:Elt.
    + rewrite label_of_set_label, node_eqb_refl.
      exists (du + w), (pu ++ [v]). split; [reflexivity | lra].
    + exists dv, pv. split; [assumption |].
      destruct (Rle_dec dv (du + w)); [assumption |].
      rewrite Rltb_true in Elt by lra. discriminate.
  - rewrite label_of_set_label, node_eqb_refl.
    exists (du + w), (pu ++ [v]). split; [reflexivity | lra].
Qed.

Lemma relax_sound s du pu L u v w :
  sound s L -> walk s u pu du -> In (u, v, w) (edges G) ->
  sound s (relax du pu L (u, v, w)).
Proof.
  intros HL Hu He.
  assert (Hnew : walk s v (pu ++ [v]) (du + w))
    by (apply walk_step with (v := u); [exact Hu | exact I | exact He]).
  intros x d p. unfold relax.
  destruct (label_of v L) as [[dv pv] |] eqn:Ev.
  - destruct (Rltb (du + w) dv); [| apply HL].
    rewrite label_of_set_label. destruct (node_eqb x v) eqn:Exv; [| apply HL].
    apply node_eqb_eq in Exv. subst x. intros H. inversion H; subst. exact Hnew.
  - rewrite label_of_set_label. destruct (node_eqb x v) eqn:Exv; [| apply HL].
    apply node_eqb_eq in Exv. subst x. intros H. inversion H; subst. exact Hnew.
Qed.

Lemma fold_relax_spec s u du pu es : forall L,
  (forall e, In e es -> In e (edges G) /\ fst (fst e) = u) ->
  sound s L -> walk s u pu du ->
  sound s (fold_left (relax du pu) es L)
  /\ improves L (fold_left (relax du pu) es L)
  /\ (forall v w, In (u, v, w) es ->
        exists d' q', label_of v (fold_left (relax du pu) es L) = Some (d', q')
                      /\ d' <= du + w).
Proof.
  induction es as [| e rest IH]; intros L Hes HL Hu; cbn [fold_left].
  - split; [assumption |]. split; [apply improves_refl | intros v w []].
  - destruct (Hes e (or_introl eq_refl)) as [He Hsrc].
    destruct e as [[u' v'] w']. cbn [fst] in Hsrc. subst u'.
    assert (HL1 : sound s (relax du pu L (u, v', w')))
      by (apply relax_sound; assumption).
    destruct (IH (relax du pu L (u, v', w'))
                 (fun e' He' => Hes e' (or_intror He')) HL1 Hu) as (Hs & Hi & Ht).
    split; [assumption |]. split.
    + eapply improves_trans; [apply relax_improves | exact Hi].
    + intros v w [Heq | Hin]; [| apply Ht; assumption].
      inversion Heq; subst.
      destruct (relax_target du pu L u v w) as (d1 & q1 & H1 & Hle1).
      destruct (Hi v d1 q1 H1) as (d2 & q2 & H2 & Hle2).
      exists d2, q2. split; [assumption | lra].
Qed.

Lemma out_edges_spec u e : In e (out_edges G u) <-> In e (edges G) /\ fst (fst e) = u.
Proof.
  unfold out_edges. rewrite filter_In, node_eqb_eq. tauto.
Qed.

Lemma relax_node_spec s L u :
  sound s L ->
  sound s (relax_node G L u)
  /\ improves L (relax_node G L u)
  /\ (forall du pu v w,
        label_of u L = Some (du, pu) -> In (u, v, w) (edges G) ->
        exists d' q', label_of v (relax_node G L u) = Some (d', q') /\ d' <= du + w).
Proof.
  intros HL. unfold relax_node.
  destruct (label_of u L) as [[du pu] |] eqn:Eu.
  - destruct (fold_relax_spec s u du pu (out_edges G u) L) as (Hs & Hi & Ht).
    + intros e He. apply out_edges_spec. assumption.
    + assumption.
    + apply HL. assumption.
    + split; [assumption |]. split; [assumption |].
      intros du' pu' v w Heq He. inversion Heq; subst.
      apply Ht. apply out_edges_spec. split; [assumption | reflexivity].
  - split; [assumption |]. split; [apply improves_refl |].
    intros du pu v w Heq. discriminate.
Qed.

End Walks.

Lemma sorted_before {A : Type} (le : A -> A -> Prop) (before after : list A) (x : A) :
  StronglySorted le (before ++ x :: after) -> forall y, In y before -> le y x.
Proof.
  induction before as [| b before IH]; cbn [app]; intros H y Hy; [destruct Hy |].
  inversion H as [| ? ? Hrest Hall]; subst. destruct Hy as [<- | Hy].
  - rewrite Forall_forall in Hall. apply Hall. apply in_or_app. right. left. reflexivity.
  - apply IH; assumption.
Qed.

(** The relaxation pass on a graph whose nodes are listed by non-decreasing
    rank and whose edges go from a lower to a strictly higher rank. *)
Section TopologicalPass.
Variable G : DiGraph.
Variable rank : Node -> Z.
Hypothesis edges_ascend :
  forall u v w, In (u, v, w) (edges G) -> (rank u < rank v)%Z.
Hypothesis edges_from_nodes :
  forall u v w, In (u, v, w) (edges G) -> In u (nodes G).
Hypothesis nodes_sorted :
  StronglySorted (fun a b => (rank a <= rank b)%Z) (nodes G).
Variable s : Node.

(** The labels are at least as good as every walk whose edges leave the
    nodes of [P]. *)
Definition complete (P : list Node) (L : Labels) : Prop :=
  forall v p c, walk_via G (fun x => In x P) s v p c ->
                exists d q, label_of v L = Some (d, q) /\ d <= c.

Lemma walk_via_snoc_split P u v p c :
  (forall x, In x P -> (rank x <= rank u)%Z) ->
  walk_via G (fun x => In x (P ++ [u])) s v p c ->
  walk_via G (fun x => In x P) s v p c
  \/ exists p' c' w,
       walk_via G (fun x => In x P) s u p' c' /\ In (u, v, w) (edges G) /\ c = c' + w.
Proof.
  intros Hrank H. induction H as [| v x w p c H IH Hv He].
  - left. apply walk_start.
  - apply in_app_or in Hv. destruct IH as [IH | (p' & c' & w0 & Hu & He0 & Hc)].
    + destruct Hv as [Hv | [<- | []]].
      * left. apply walk_step with (v := v); assumption.
      * right. exists p, c, w. split; [assumption |]. split; [assumption | reflexivity].
    + exfalso. apply edges_ascend in He0.
      destruct Hv as [Hv | [<- | []]]; [apply Hrank in Hv |]; lia.
Qed.

Lemma pass_invariant rest : forall P L,
  nodes G = P ++ rest ->
  sound G s L -> complete P L ->
  sound G s (fold_left (relax_node G) rest L)
  /\ complete (P ++ rest) (fold_left (relax_node G) rest L).
Proof.
  induction rest as [| u rest IH]; intros P L Hnodes HL HC; cbn [fold_left].
  - rewrite app_nil_r. split; assumption.
  - destruct (relax_node_spec G s L u HL) as (HL1 & Himp & Htarget).
    assert (Hrank : forall x, In x P -> (rank x <= rank u)%Z).
    { intros x Hx. pose proof nodes_sorted as Hs. rewrite Hnodes in Hs.
      apply (sorted_before _ _ _ _ Hs x Hx). }
    assert (HC1 : complete (P ++ [u]) (relax_node G L u)).
    { intros v p c Hw.
      destruct (walk_via_snoc_split P u v p c Hrank Hw)
        as [Hold | (p' & c' & w & Hu & He & ->)].
      - destruct (HC v p c Hold) as (d & q & Hd & Hle).
        destruct (Himp v d q Hd) as (d' & q' & Hd' & Hle').
        exists d', q'. split; [assumption | lra].
      - destruct (HC u p' c' Hu) as (du & pu & Hdu & Hle).
        destruct (Htarget du pu v w Hdu He) as (d' & q' & Hd' & Hle').
        exists d', q'. split; [assumption | lra]. }
    replace (P ++ u :: rest) with ((P ++ [u]) ++ rest)
      by (rewrite <- app_assoc; reflexivity).
    apply IH; [rewrite <- app_assoc; exact Hnodes | assumption | assumption].
Qed.

Lemma walk_via_nodes v p c :
  walk G s v p c -> walk_via G (fun x => In x (nodes G)) s v p c.
Proof.
  intros H. induction H as [| v x w p c H IH Hv He].
  - apply walk_start.
  - apply walk_step with (v := v); [assumption | | assumption].
    apply edges_from_nodes in He. assumption.
Qed.

(** The pass finds a walk of least weight when there is a walk, and answers
    [None] only when there is none. *)
Lemma shortest_path_optimal t :
  match shortest_path G s t with
  | Some q => exists d, walk G s t q d /\ forall p c, walk G s t p c -> d <= c
  | None => forall p c, ~ walk G s t p c
  end.
Proof.
  unfold shortest_path. cbv zeta.
  destruct (pass_invariant (nodes G) [] [(s, (0, [s]))]) as (Hsound & Hcomplete).
  - reflexivity.
  - intros v d p. cbn [label_of]. destruct (node_eqb v s) eqn:E; [| discriminate].
    apply node_eqb_eq in E. subst v. intros H. inversion H; subst. apply walk_start.
  - intros v p c H. destruct H as [| v x w p c H Hin He]; [| destruct Hin].
    exists 0, [s]. cbn [label_of]. rewrite node_eqb_refl. split; [reflexivity | lra].
  - cbn [app] in Hcomplete.
    set (L := fold_left (relax_node G) (nodes G) [(s, (0, [s]))]) in *.
    destruct (label_of t L) as [[d q] |] eqn:E; cbn [option_map snd].
    + exists d. split; [apply Hsound; assumption |].
      intros p c Hw. apply walk_via_nodes in Hw.
      destruct (Hcomplete t p c Hw) as (d' & q' & Hd' & Hle). congruence.
    + intros p c Hw. apply walk_via_nodes in Hw.
      destruct (Hcomplete t p c Hw) as (d' & q' & Hd' & Hle). congruence.
Qed.

End TopologicalPass.

(** ** The scheduler's graph is ordered by tick *)

(** The rank of a node: its tick, 0 for the start node, and for the end node
    its tick or 1 when the horizon is negative. *)
Definition rank_of (n : Node) : Z :=
  match fst n with
  | start_name => 0%Z
  | rsu_name _ => snd n
  | end_name => Z.max 1 (snd n)
  end.

Definition rank_le (a b : Node) : Prop := (rank_of a <= rank_of b)%Z.

(** Nodes listed by non-decreasing rank, edges between listed nodes and
    strictly ascending in rank. *)
Definition ranked (G : DiGraph) : Prop :=
  StronglySorted rank_le (nodes G)
  /\ forall u v w, In (u, v, w) (edges G) ->
                   (rank_of u < rank_of v)%Z /\ In u (nodes G) /\ In v (nodes G).

Definition reachable (G : DiGraph) (n : Node) : Prop :=
  exists p c, walk G ChandlerBAware.start_node n p c.

(** Every edge of [G] is an edge of [G'], possibly with another weight. *)
Definition keeps_edges (G G' : DiGraph) : Prop :=
  forall a b c, In (a, b, c) (edges G) -> exists c', In (a, b, c') (edges G').

Lemma keeps_edges_refl G : keeps_edges G G.
Proof. intros a b c H. exists c. assumption. Qed.

Lemma keeps_edges_trans G1 G2 G3 :
  keeps_edges G1 G2 -> keeps_edges G2 G3 -> keeps_edges G1 G3.
Proof.
  intros H12 H23 a b c H. destruct (H12 a b c H) as [c' H']. apply (H23 a b c' H').
Qed.

Lemma reachable_keeps G G' n : keeps_edges G G' -> reachable G n -> reachable G' n.
Proof.
  intros Hk (p & c & H). unfold reachable.
  induction H as [| v x w p c H IH _ He].
  - exists [ChandlerBAware.start_node], 0. apply walk_start.
  - destruct IH as (p' & c' & IH). destruct (Hk v x w He) as [w' He'].
    exists (p' ++ [x]), (c' + w'). apply walk_step with (v := v); [exact IH | exact I | exact He'].
Qed.

Lemma existsb_node_eqb n s : existsb (node_eqb n) s = true <-> In n s.
Proof.
  rewrite existsb_exists. split.
  - intros (x & Hx & E). apply node_eqb_eq in E. subst. assumption.
  - intros H. exists n. split; [assumption | apply node_eqb_refl].
Qed.

Lemma set_add_in n s : In n s -> set_add n s = s.
Proof. intros H. unfold set_add. apply existsb_node_eqb in H. rewrite H. reflexivity. Qed.

Lemma set_add_spec x n s : In x (set_add n s) <-> x = n \/ In x s.
Proof.
  unfold set_add. destruct (existsb (node_eqb n) s) eqn:E.
  - apply existsb_node_eqb in E. split; [auto |]. intros [-> | H]; assumption.
  - rewrite in_app_iff. cbn [In]. split; [intros [H | [H | []]] | intros [H | H]]; auto.
Qed.

Lemma sorted_snoc {A : Type} (le : A -> A -> Prop) (l : list A) (n : A) :
  StronglySorted le l -> (forall x, In x l -> le x n) -> StronglySorted le (l ++ [n]).
Proof.
  induction l as [| a l IH]; intros Hs Hle; cbn [app].
  - constructor; constructor.
  - inversion Hs as [| ? ? Hrest Hall]; subst. constructor.
    + apply IH; [assumption |]. intros x Hx. apply Hle. right. assumption.
    + apply Forall_app. split; [assumption |].
      constructor; [apply Hle; left; reflexivity | constructor].
Qed.

Lemma set_add_sorted n s :
  StronglySorted rank_le s -> (forall x, In x s -> rank_le x n) ->
  StronglySorted rank_le (set_add n s).
Proof.
  intros Hs Hle. unfold set_add.
  destruct (existsb (node_eqb n) s); [assumption | apply sorted_snoc; assumption].
Qed.

Lemma set_weight_in u v w es e :
  In e (set_weight u v w es) -> e = (u, v, w) \/ In e es.
Proof.
  induction es as [| [[u' v'] w'] rest IH]; cbn [set_weight].
  - intros [<- | []]. left. reflexivity.
  - destruct (node_eqb u u' && node_eqb v v').
    + intros [<- | H]; [left; reflexivity | right; right; assumption].
    + intros [<- | H]; [right; left; reflexivity |].
      destruct (IH H) as [-> | H']; [left; reflexivity | right; right; assumption].
Qed.

Lemma set_weight_has u v w es : In (u, v, w) (set_weight u v w es).
Proof.
  induction es as [| [[u' v'] w'] rest IH]; cbn [set_weight].
  - left. reflexivity.
  - destruct (node_eqb u u' && node_eqb v v'); [left; reflexivity | right; exact IH].
Qed.

Lemma set_weight_keeps u v w es a b c :
  In (a, b, c) es -> exists c', In (a, b, c') (set_weight u v w es).
Proof.
  induction es as [| [[u' v'] w'] rest IH]; cbn [set_weight]; [intros [] |].
  destruct (node_eqb u u' && node_eqb v v') eqn:E.
  - apply andb_true_iff in E. destruct E as [Eu Ev].
    apply node_eqb_eq in Eu, Ev. subst u' v'.
    intros [H | H].
    + inversion H; subst. exists w. left. reflexivity.
    + exists c. right. assumption.
  - intros [H | H].
    + exists c. left. assumption.
    + destruct (IH H) as [c' H']. exists c'. right. assumption.
Qed.

Lemma add_edge_present G u v w :
  In u (nodes G) -> In v (nodes G) ->
  add_edge G u v w = mkDiGraph (nodes G) (set_weight u v w (edges G)).
Proof.
  intros Hu Hv. unfold add_edge, add_node. cbn [nodes edges].
  rewrite (set_add_in u) by assumption. rewrite (set_add_in v) by assumption.
  reflexivity.
Qed.

(** The edges [for last_node in last_nodes: G.add_edge(last_node, node, w)]
    adds, when all the end points are in the graph. *)
Lemma add_edges_spec node w last_nodes : forall G,
  In node (nodes G) -> (forall n, In n last_nodes -> In n (nodes G)) ->
  let G' := fold_left (fun G last_node => add_edge G last_node node w) last_nodes G in
  nodes G' = nodes G
  /\ (forall e, In e (edges G') ->
                In e (edges G) \/ exists n, In n last_nodes /\ e = (n, node, w))
  /\ keeps_edges G G'
  /\ (forall n, In n last_nodes -> exists w', In (n, node, w') (edges G')).
Proof.
  induction last_nodes as [| n rest IH]; intros G Hnode Hlast; cbn [fold_left].
  - split; [reflexivity |]. split; [auto |]. split; [apply keeps_edges_refl |].
    intros n [].
  - rewrite add_edge_present by (auto; apply Hlast; left; reflexivity).
    set (G1 := mkDiGraph (nodes G) (set_weight n node w (edges G))).
    destruct (IH G1) as (Hn & He & Hk & Hnew).
    + assumption.
    + intros m Hm. apply Hlast. right. assumption.
    + assert (Hk1 : keeps_edges G G1)
        by (intros a b c H; eapply set_weight_keeps; eassumption).
      split; [exact Hn |]. split; [| split].
      * intros e Hin. destruct (He e Hin) as [H1 | (m & Hm & ->)].
        -- apply set_weight_in in H1. destruct H1 as [-> | H1]; [| left; assumption].
           right. exists n. split; [left; reflexivity | reflexivity].
        -- right. exists m. split; [right; assumption | reflexivity].
      * eapply keeps_edges_trans; eassumption.
      * intros m [<- | Hm]; [| apply Hnew; assumption].
        apply (Hk n node w). apply set_weight_has.
Qed.

(** Adding a node of rank [r] and edges into it from [last_nodes], all of
    rank below [r], to a ranked graph whose nodes have rank at most [r]. *)
Lemma add_layer_node node w last_nodes G :
  ranked G ->
  (forall n, In n (nodes G) -> (rank_of n <= rank_of node)%Z) ->
  (forall n, In n last_nodes ->
             In n (nodes G) /\ reachable G n /\ (rank_of n < rank_of node)%Z) ->
  let G' := fold_left (fun G last_node => add_edge G last_node node w) last_nodes
                      (add_node G node) in
  ranked G'
  /\ (forall n, In n (nodes G') <-> n = node \/ In n (nodes G))
  /\ keeps_edges G G'
  /\ (last_nodes <> [] -> reachable G' node).
Proof.
  intros [Hsorted Hedges] Hle Hlast. cbv zeta.
  set (G1 := add_node G node).
  assert (Hnode1 : In node (nodes G1)) by (apply set_add_spec; auto).
  assert (Hlast1 : forall n, In n last_nodes -> In n (nodes G1)).
  { intros n Hn. apply set_add_spec. right. apply Hlast. assumption. }
  destruct (add_edges_spec node w last_nodes G1 Hnode1 Hlast1) as (Hn & He & Hk & Hnew).
  set (G' := fold_left (fun G last_node => add_edge G last_node node w) last_nodes G1) in *.
  assert (Hnodes : forall n, In n (nodes G') <-> n = node \/ In n (nodes G)).
  { intros n. rewrite Hn. apply set_add_spec. }
  assert (Hkeep : keeps_edges G G') by exact Hk.
  split; [| split; [exact Hnodes | split; [exact Hkeep |]]].
  - split.
    + rewrite Hn. apply set_add_sorted; assumption.
    + intros u v c Hin. destruct (He (u, v, c) Hin) as [Hold | (n & Hnl & Heq)].
      * destruct (Hedges u v c Hold) as (Hr & Hu & Hv).
        split; [assumption |]. split; apply Hnodes; right; assumption.
      * inversion Heq; subst. destruct (Hlast n Hnl) as (Hin' & _ & Hr).
        split; [assumption |]. split; apply Hnodes; [right; assumption | left; reflexivity].
  - intros Hne. destruct last_nodes as [| n rest]; [contradiction |].
    destruct (Hlast n (or_introl eq_refl)) as (_ & Hreach & _).
    destruct (reachable_keeps G G' n Hkeep Hreach) as (p & c & Hw).
    destruct (Hnew n (or_introl eq_refl)) as [w' Hw'].
    exists (p ++ [node]), (c + w'). apply walk_step with (v := n); [exact Hw | exact I | exact Hw'].
Qed.

(** What holds of the graph and the set [current_nodes] inside tick [t]. *)
Definition tick_inv (t : Z) (last_nodes : list Node) (st : DiGraph * list Node) : Prop :=
  ranked (fst st)
  /\ (forall n, In n (nodes (fst st)) -> (rank_of n <= t)%Z)
  /\ (forall n, In n last_nodes ->
                In n (nodes (fst st)) /\ reachable (fst st) n /\ (rank_of n < t)%Z)
  /\ (forall n, In n (snd st) -> In n (nodes (fst st)) /\ reachable (fst st) n).

Lemma rsu_step_inv future_pos t last_nodes st rsu :
  last_nodes <> [] ->
  tick_inv t last_nodes st ->
  tick_inv t last_nodes (ChandlerBAware.rsu_step future_pos t last_nodes st rsu).
Proof.
  intros Hne Hinv. destruct st as [G current]. unfold ChandlerBAware.rsu_step.
  destruct (Rleb (distance_to future_pos rsu) 400); [| exact Hinv].
  cbv zeta. destruct Hinv as (Hr & Hle & Hlast & Hcur). cbn [fst snd] in *.
  set (node := (rsu_name (rsu_id rsu), t)).
  set (w := - (1 / (1 + distance_to future_pos rsu))).
  assert (Hrank : rank_of node = t) by reflexivity.
  destruct (add_layer_node node w last_nodes G Hr) as (Hr' & Hnodes & Hkeep & Hreach).
  - intros n Hn. rewrite Hrank. apply Hle. assumption.
  - intros n Hn. rewrite Hrank. apply Hlast. assumption.
  - set (G' := fold_left (fun G last_node => add_edge G last_node node w) last_nodes
                         (add_node G node)) in *.
    unfold tick_inv. cbn [fst snd]. split; [exact Hr' |]. split; [| split].
    + intros n Hn. apply Hnodes in Hn. destruct Hn as [-> | Hn]; [lia | apply Hle; assumption].
    + intros n Hn. destruct (Hlast n Hn) as (Hin & Hre & Hlt).
      split; [apply Hnodes; right; assumption |].
      split; [apply (reachable_keeps G G'); assumption | assumption].
    + intros n Hn. apply set_add_spec in Hn. destruct Hn as [-> | Hn].
      * split; [apply Hnodes; left; reflexivity | apply Hreach; assumption].
      * destruct (Hcur n Hn) as (Hin & Hre).
        split; [apply Hnodes; right; assumption | apply (reachable_keeps G G'); assumption].
Qed.

Lemma rsu_steps_inv future_pos t last_nodes rsus : forall st,
  last_nodes <> [] ->
  tick_inv t last_nodes st ->
  tick_inv t last_nodes (fold_left (ChandlerBAware.rsu_step future_pos t last_nodes) rsus st).
Proof.
  induction rsus as [| rsu rest IH]; intros st Hne Hinv; cbn [fold_left]; [assumption |].
  apply IH; [assumption |]. apply rsu_step_inv; assumption.
Qed.

(** What holds of the graph and the live set between two ticks, [b] being
    the last tick visited. *)
Definition loop_inv (b : Z) (st : DiGraph * list Node) : Prop :=
  ranked (fst st)
  /\ (forall n, In n (nodes (fst st)) -> (rank_of n <= b)%Z)
  /\ snd st <> []
  /\ (forall n, In n (snd st) -> In n (nodes (fst st)) /\ reachable (fst st) n).

Lemma tick_step_inv traci vehicle_id rsus timestep b t st :
  (b < t)%Z -> loop_inv b st ->
  loop_inv t (ChandlerBAware.tick_step traci vehicle_id rsus timestep st t).
Proof.
  intros Hbt (Hr & Hle & Hne & Hlast). destruct st as [G last_nodes].
  cbn [fst snd] in *. unfold ChandlerBAware.tick_step. cbv zeta.
  set (future_pos := ChandlerBAware.predict_future_position traci vehicle_id
                       (IZR t * timestep)).
  assert (Hinit : tick_inv t last_nodes (G, [])).
  { unfold tick_inv. cbn [fst snd]. split; [exact Hr |]. split; [| split].
    - intros n Hn. apply Hle in Hn. lia.
    - intros n Hn. destruct (Hlast n Hn) as (Hin & Hre).
      split; [assumption |]. split; [assumption |]. apply Hle in Hin. lia.
    - intros n []. }
  pose proof (rsu_steps_inv future_pos t last_nodes rsus (G, []) Hne Hinit) as Hfin.
  destruct (fold_left (ChandlerBAware.rsu_step future_pos t last_nodes) rsus (G, []))
    as [G' current].
  destruct Hfin as (Hr' & Hle' & Hlast' & Hcur'). cbn [fst snd] in *.
  unfold loop_inv. cbn [fst snd]. split; [exact Hr' |]. split; [exact Hle' |].
  destruct current as [| c rest].
  - split; [exact Hne |]. intros n Hn. destruct (Hlast' n Hn) as (Hin & Hre & _).
    split; assumption.
  - split; [discriminate | exact Hcur'].
Qed.

Lemma ticks_inv traci vehicle_id rsus timestep ticks : forall b st,
  loop_inv b st ->
  StronglySorted Z.lt ticks ->
  (forall t, In t ticks -> (b < t)%Z) ->
  exists b', (b' = b \/ In b' ticks)
             /\ loop_inv b' (fold_left (ChandlerBAware.tick_step traci vehicle_id rsus timestep)
                                       ticks st).
Proof.
  induction ticks as [| t rest IH]; intros b st Hinv Hsorted Hlt; cbn [fold_left].
  - exists b. split; [left; reflexivity | assumption].
  - inversion Hsorted as [| ? ? Hrest Hall]; subst.
    rewrite Forall_forall in Hall.
    destruct (IH t (ChandlerBAware.tick_step traci vehicle_id rsus timestep st t))
      as (b' & Hb' & Hinv').
    + apply tick_step_inv with (b := b); [apply Hlt; left; reflexivity | assumption].
    + assumption.
    + assumption.
    + exists b'. split; [| assumption].
      right. destruct Hb' as [-> | Hb']; [left; reflexivity | right; assumption].
Qed.

Lemma range2_in start stop t : In t (range2 start stop) -> (start <= t < stop)%Z.
Proof.
  unfold range2. rewrite in_map_iff. intros (i & <- & Hi). apply in_seq in Hi. lia.
Qed.

Lemma range2_sorted start stop : StronglySorted Z.lt (range2 start stop).
Proof.
  unfold range2. generalize (Z.to_nat (stop - start)) as n. generalize 0%nat as k.
  intros k n. revert k.
  induction n as [| n IH]; intros k; cbn [seq map]; constructor.
  - apply IH.
  - rewrite Forall_forall. intros x Hx. apply in_map_iff in Hx.
    destruct Hx as (i & <- & Hi). apply in_seq in Hi. lia.
Qed.

(** The graph the scheduler builds is ranked, and its end node can be
    reached from the start node. *)
Lemma dag_graph_ranked traci vehicle_id rsus horizon timestep :
  ranked (ChandlerBAware.dag_graph traci vehicle_id rsus horizon timestep)
  /\ reachable (ChandlerBAware.dag_graph traci vehicle_id rsus horizon timestep)
               (end_name, (horizon + 1)%Z).
Proof.
  unfold ChandlerBAware.dag_graph, ChandlerBAware.after_ticks.
  destruct (ticks_inv traci vehicle_id rsus timestep (range2 1 (horizon + 1)) 0%Z
              (add_node empty_graph ChandlerBAware.start_node, [ChandlerBAware.start_node]))
    as (b & Hb & Hinv).
  - unfold loop_inv. cbn [fst snd add_node empty_graph nodes edges].
    change (set_add ChandlerBAware.start_node []) with [ChandlerBAware.start_node].
    split; [split |]; [constructor; constructor | intros u v w [] |].
    split; [intros n [<- | []]; cbn; lia |].
    split; [discriminate |].
    intros n [<- | []]. split; [left; reflexivity |].
    exists [ChandlerBAware.start_node], 0. apply walk_start.
  - apply range2_sorted.
  - intros t Ht. apply range2_in in Ht. lia.
  - destruct (fold_left _ (range2 1 (horizon + 1)) _) as [G last_nodes].
    destruct Hinv as (Hr & Hle & Hne & Hlast). cbn [fst snd] in *.
    assert (Hbound : (b < rank_of (end_name, (horizon + 1)%Z))%Z).
    { unfold rank_of. cbn [fst snd].
      destruct Hb as [-> | Hb]; [lia | apply range2_in in Hb; lia]. }
    destruct (add_layer_node (end_name, (horizon + 1)%Z) 0 last_nodes G Hr)
      as (Hr' & _ & _ & Hreach).
    + intros n Hn. apply Hle in Hn. lia.
    + intros n Hn. destruct (Hlast n Hn) as (Hin & Hre).
      split; [assumption |]. split; [assumption |]. apply Hle in Hin. lia.
    + split; [exact Hr' | apply Hreach; exact Hne].
Qed.


(** ** The schedule the relaxation pass returns

    The scenario of two RSUs whose predicted qualities cross at tick 5 is
    settled on the graph [two_rsu_graph], which is the graph the scheduler
    builds when the RSUs 1 and 2 are both in range at every tick 1..10. *)

Definition rsu_node (i t : Z) : Node := (rsu_name i, t).

(** The edges into the two nodes of tick [t] from the nodes [prev], in the
    order the scheduler adds them; [a] and [b] are the predicted qualities of
    RSU 1 and RSU 2. *)
Definition layer_edges (t : Z) (prev : list Node) (a b : Z -> R) : list (Node * Node * R) :=
  map (fun n => (n, rsu_node 1 t, - a t)) prev ++ map (fun n => (n, rsu_node 2 t, - b t)) prev.

Definition layer (t : Z) : list Node := [rsu_node 1 t; rsu_node 2 t].

Definition two_rsu_graph (a b : Z -> R) : DiGraph :=
  mkDiGraph
    (ChandlerBAware.start_node :: flat_map layer (range2 1 11) ++ [(end_name, 11%Z)])
    (layer_edges 1 [ChandlerBAware.start_node] a b
     ++ flat_map (fun t => layer_edges t (layer (t - 1)) a b) (range2 2 11)
     ++ map (fun n => (n, (end_name, 11%Z), 0)) (layer 10)).

(** RSU 1 for the ticks 1..4, RSU 2 for the ticks 5..10. *)
Definition crossing_schedule : list Node :=
  ChandlerBAware.start_node
  :: map (rsu_node 1) (range2 1 5) ++ map (rsu_node 2) (range2 5 11) ++ [(end_name, 11%Z)].

(** One step of the pass and of the relaxation of the edges of a node, as
    rewriting rules. *)
Lemma pass_step G L u rest du pu :
  label_of u L = Some (du, pu) ->
  fold_left (relax_node G) (u :: rest) L
  = fold_left (relax_node G) rest (fold_left (relax du pu) (out_edges G u) L).
Proof. intros H. cbn [fold_left]. unfold relax_node at 2. rewrite H. reflexivity. Qed.

Lemma fold_relax_new du pu L u v w es :
  label_of v L = None ->
  fold_left (relax du pu) ((u, v, w) :: es) L
  = fold_left (relax du pu) es (set_label v (du + w, pu ++ [v]) L).
Proof. intros H. cbn [fold_left]. unfold relax at 2. rewrite H. reflexivity. Qed.

Lemma fold_relax_better du pu L u v w es dv pv :
  label_of v L = Some (dv, pv) -> du + w < dv ->
  fold_left (relax du pu) ((u, v, w) :: es) L
  = fold_left (relax du pu) es (set_label v (du + w, pu ++ [v]) L).
Proof.
  intros H Hlt. cbn [fold_left]. unfold relax at 2. rewrite H, Rltb_true by assumption.
  reflexivity.
Qed.

Lemma fold_relax_keep du pu L u v w es dv pv :
  label_of v L = Some (dv, pv) -> dv <= du + w ->
  fold_left (relax du pu) ((u, v, w) :: es) L = fold_left (relax du pu) es L.
Proof.
  intros H Hle. cbn [fold_left]. unfold relax at 2. rewrite H, Rltb_false by assumption.
  reflexivity.
Qed.

Lemma fold_relax_nil du pu L : fold_left (relax du pu) [] L = L.
Proof. reflexivity. Qed.

Ltac struct_cbv :=
  cbv beta iota zeta delta
      [out_edges filter edges nodes set_label app node_eqb name_eqb fst snd andb
       Z.eqb Pos.eqb].

Ltac relax_edges :=
  repeat first
    [ rewrite fold_relax_nil
    | erewrite fold_relax_new by reflexivity
    | erewrite fold_relax_better; [ | reflexivity | lra ]
    | erewrite fold_relax_keep; [ | reflexivity | lra ] ];
  struct_cbv.

Ltac pass_node := erewrite pass_step by reflexivity; struct_cbv; relax_edges.

Lemma two_rsu_schedule (a b : Z -> R) :
  (a 1%Z > b 1%Z /\ a 2%Z > b 2%Z /\ a 3%Z > b 3%Z /\ a 4%Z > b 4%Z) ->
  (a 5%Z < b 5%Z /\ a 6%Z < b 6%Z /\ a 7%Z < b 7%Z /\ a 8%Z < b 8%Z /\ a 9%Z < b 9%Z /\ a 10%Z < b 10%Z) ->
  shortest_path (two_rsu_graph a b) ChandlerBAware.start_node (end_name, 11%Z)
  = Some crossing_schedule.
Proof.
  intros (A1 & A2 & A3 & A4) (B5 & B6 & B7 & B8 & B9 & B10).
  unfold shortest_path.
  cbv beta iota zeta delta
    [two_rsu_graph layer_edges layer rsu_node range2 flat_map map seq app Z.to_nat
     Pos.to_nat Pos.iter_op Nat.add Z.sub Z.add Z.opp Z.pos_sub Z.of_nat Pos.of_succ_nat
     Pos.succ Pos.add Pos.pred_double Z.succ_double Z.pred_double Z.double
     ChandlerBAware.start_node nodes].
  do 22 pass_node.
  cbv beta iota zeta delta
    [fold_left option_map label_of node_eqb name_eqb fst snd andb Z.eqb Pos.eqb
     crossing_schedule rsu_node range2 map seq app Z.to_nat
     Pos.to_nat Pos.iter_op Nat.add Z.sub Z.add Z.opp Z.pos_sub Z.of_nat Pos.of_succ_nat
     Pos.succ Pos.add Pos.pred_double Z.succ_double Z.pred_double Z.double
     ChandlerBAware.start_node].
  reflexivity.
Qed.

(** [potential_datarate] of an RSU at tick [t]: the predicted link quality. *)
Definition potential_datarate (traci : Traci) (vehicle_id : string) (timestep : R)
    (rsu : RSU) (t : Z) : R :=
  1 / (1 + dag_distance_at traci vehicle_id timestep rsu t).

Lemma tick_step_two traci vehicle_id timestep x1 y1 x2 y2 G last_nodes t :
  dag_distance_at traci vehicle_id timestep (mkRSU 1 x1 y1) t <= 400 ->
  dag_distance_at traci vehicle_id timestep (mkRSU 2 x2 y2) t <= 400 ->
  ChandlerBAware.tick_step traci vehicle_id [mkRSU 1 x1 y1; mkRSU 2 x2 y2] timestep
    (G, last_nodes) t
  = (fold_left (fun G last_node =>
                  add_edge G last_node (rsu_node 2 t)
                    (- potential_datarate traci vehicle_id timestep (mkRSU 2 x2 y2) t))
       last_nodes
       (add_node
          (fold_left (fun G last_node =>
                        add_edge G last_node (rsu_node 1 t)
                          (- potential_datarate traci vehicle_id timestep (mkRSU 1 x1 y1) t))
             last_nodes (add_node G (rsu_node 1 t)))
          (rsu_node 2 t)),
     layer t).
Proof.
  intros H1 H2. unfold ChandlerBAware.tick_step. cbv zeta. cbn [fold_left].
  unfold ChandlerBAware.rsu_step. cbv zeta. cbn [rsu_id].
  fold (dag_distance_at traci vehicle_id timestep (mkRSU 1 x1 y1) t).
  fold (dag_distance_at traci vehicle_id timestep (mkRSU 2 x2 y2) t).
  rewrite !Rleb_true by assumption.
  unfold set_add, layer, rsu_node, potential_datarate.
  cbn [existsb app node_eqb name_eqb fst snd Z.eqb Pos.eqb andb orb].
  reflexivity.
Qed.

Lemma crossing_dag_graph traci vehicle_id timestep x1 y1 x2 y2 :
  (forall t, (1 <= t <= 10)%Z ->
     dag_distance_at traci vehicle_id timestep (mkRSU 1 x1 y1) t <= 400
     /\ dag_distance_at traci vehicle_id timestep (mkRSU 2 x2 y2) t <= 400) ->
  ChandlerBAware.dag_graph traci vehicle_id [mkRSU 1 x1 y1; mkRSU 2 x2 y2] 10 timestep
  = two_rsu_graph (potential_datarate traci vehicle_id timestep (mkRSU 1 x1 y1))
                  (potential_datarate traci vehicle_id timestep (mkRSU 2 x2 y2)).
Proof.
  intros Hrange.
  unfold ChandlerBAware.dag_graph, ChandlerBAware.after_ticks.
  change (range2 1 (10 + 1)) with [1; 2; 3; 4; 5; 6; 7; 8; 9; 10]%Z.
  cbn [fold_left].
  rewrite !tick_step_two by (apply Hrange; lia).
  cbv beta iota zeta delta
    [two_rsu_graph layer_edges layer rsu_node range2 flat_map map seq app Z.to_nat
     Pos.to_nat Pos.iter_op Nat.add Z.sub Z.add Z.opp Z.pos_sub Z.of_nat Pos.of_succ_nat
     Pos.succ Pos.add Pos.pred_double Z.succ_double Z.pred_double Z.double
     ChandlerBAware.start_node nodes edges
     fold_left add_edge add_node set_add existsb set_weight node_eqb name_eqb
     fst snd andb orb empty_graph Z.eqb Pos.eqb].
  reflexivity.
Qed.

(** The weight of the walk through [u :: rest], when its edges exist. *)
Fixpoint walk_weight (G : DiGraph) (u : Node) (rest : list Node) (acc : R) : option R :=
  match rest with
  | [] => Some acc
  | v :: rest' =>
      match find (fun e => node_eqb (fst (fst e)) u && node_eqb (snd (fst e)) v) (edges G) with
      | Some (_, _, w) => walk_weight G v rest' (acc + w)
      | None => None
      end
  end.

Fixpoint path_end (u : Node) (rest : list Node) : Node :=
  match rest with
  | [] => u
  | v :: rest' => path_end v rest'
  end.

Lemma walk_weight_walk G s rest : forall u p acc c,
  walk G s u p acc -> walk_weight G u rest acc = Some c ->
  walk G s (path_end u rest) (p ++ rest) c.
Proof.
  induction rest as [| v rest IH]; intros u p acc c Hw Hc; cbn [walk_weight path_end] in *.
  - inversion Hc; subst. rewrite app_nil_r. exact Hw.
  - destruct (find _ (edges G)) as [[[u' v'] w] |] eqn:E; [| discriminate].
    apply find_some in E. destruct E as [Hin Hb]. cbn [fst snd] in Hb.
    apply andb_true_iff in Hb. destruct Hb as [Hu Hv].
    apply node_eqb_eq in Hu, Hv. subst u' v'.
    replace (p ++ v :: rest) with ((p ++ [v]) ++ rest)
      by (rewrite <- app_assoc; reflexivity).
    apply IH with (acc := acc + w); [| assumption].
    apply walk_step with (v := u); [exact Hw | exact I | exact Hin].
Qed.

Lemma walk_of_weight G s rest c c' :
  walk_weight G s rest 0 = Some c -> c = c' -> walk G s (path_end s rest) (s :: rest) c'.
Proof.
  intros H <-. apply (walk_weight_walk G s rest s [s] 0 c); [apply walk_start | exact H].
Qed.

(** Sum of [f] over the ticks [ts]. *)
Definition sum_over (f : Z -> R) (ts : list Z) : R :=
  fold_right (fun t acc => f t + acc) 0 ts.

(** The schedule that stays with RSU [i] for the whole horizon. *)
Definition single_schedule (i : Z) : list Node :=
  ChandlerBAware.start_node :: map (rsu_node i) (range2 1 11) ++ [(end_name, 11%Z)].

Ltac walk_cbv :=
  cbv beta iota zeta delta
    [two_rsu_graph layer_edges layer rsu_node range2 flat_map map seq app Z.to_nat
     Pos.to_nat Pos.iter_op Nat.add Z.sub Z.add Z.opp Z.pos_sub Z.of_nat Pos.of_succ_nat
     Pos.succ Pos.add Pos.pred_double Z.succ_double Z.pred_double Z.double
     ChandlerBAware.start_node nodes edges crossing_schedule single_schedule
     walk_weight find node_eqb name_eqb fst snd andb Z.eqb Pos.eqb path_end
     sum_over fold_right].

Lemma two_rsu_walks (a b : Z -> R) :
  walk (two_rsu_graph a b) ChandlerBAware.start_node (end_name, 11%Z) crossing_schedule
       (- (sum_over a (range2 1 5) + sum_over b (range2 5 11)))
  /\ walk (two_rsu_graph a b) ChandlerBAware.start_node (end_name, 11%Z) (single_schedule 1)
          (- sum_over a (range2 1 11))
  /\ walk (two_rsu_graph a b) ChandlerBAware.start_node (end_name, 11%Z) (single_schedule 2)
          (- sum_over b (range2 1 11)).
Proof.
  split; [| split].
  - eapply (walk_of_weight _ _ (tl crossing_schedule)).
    + walk_cbv. cbn [tl]. walk_cbv. reflexivity.
    + walk_cbv. ring.
  - eapply (walk_of_weight _ _ (tl (single_schedule 1))).
    + walk_cbv. cbn [tl]. walk_cbv. reflexivity.
    + walk_cbv. ring.
  - eapply (walk_of_weight _ _ (tl (single_schedule 2))).
    + walk_cbv. cbn [tl]. walk_cbv. reflexivity.
    + walk_cbv. ring.
Qed.

(** The schedule the scheduler returns is a walk of least weight from the
    start node to the end node of its graph. *)
Lemma construct_dag_optimal traci vehicle_id rsus horizon timestep :
  exists weight,
    walk (ChandlerBAware.dag_graph traci vehicle_id rsus horizon timestep)
         ChandlerBAware.start_node (end_name, (horizon + 1)%Z)
         (ChandlerBAware.construct_dag traci vehicle_id rsus horizon timestep) weight
    /\ forall p c,
         walk (ChandlerBAware.dag_graph traci vehicle_id rsus horizon timestep)
              ChandlerBAware.start_node (end_name, (horizon + 1)%Z) p c ->
         weight <= c.
Proof.
  destruct (dag_graph_ranked traci vehicle_id rsus horizon timestep)
    as [[Hsorted Hedges] (p0 & c0 & Hreach)].
  unfold ChandlerBAware.construct_dag. cbv zeta.
  pose proof (shortest_path_optimal
                (ChandlerBAware.dag_graph traci vehicle_id rsus horizon timestep) rank_of
                (fun u v w H => proj1 (Hedges u v w H))
                (fun u v w H => proj1 (proj2 (Hedges u v w H)))
                Hsorted ChandlerBAware.start_node (end_name, (horizon + 1)%Z)) as Hopt.
  destruct (shortest_path _ _ _) as [q |]; [exact Hopt |].
  exfalso. apply (Hopt p0 c0 Hreach).
Qed.

Lemma crossing_scenario traci vehicle_id timestep x1 y1 x2 y2 :
  let rsus := [mkRSU 1 x1 y1; mkRSU 2 x2 y2] in
  let q1 := potential_datarate traci vehicle_id timestep (mkRSU 1 x1 y1) in
  let q2 := potential_datarate traci vehicle_id timestep (mkRSU 2 x2 y2) in
  let G := ChandlerBAware.dag_graph traci vehicle_id rsus 10 timestep in
  (forall t, (1 <= t <= 10)%Z ->
     dag_distance_at traci vehicle_id timestep (mkRSU 1 x1 y1) t <= 400
     /\ dag_distance_at traci vehicle_id timestep (mkRSU 2 x2 y2) t <= 400) ->
  (forall t, (1 <= t < 5)%Z -> q2 t < q1 t) ->
  (forall t, (5 <= t <= 10)%Z -> q1 t < q2 t) ->
  ChandlerBAware.construct_dag traci vehicle_id rsus 10 timestep = crossing_schedule
  /\ walk G ChandlerBAware.start_node (end_name, 11%Z) crossing_schedule
          (- (sum_over q1 (range2 1 5) + sum_over q2 (range2 5 11)))
  /\ walk G ChandlerBAware.start_node (end_name, 11%Z) (single_schedule 1)
          (- sum_over q1 (range2 1 11))
  /\ walk G ChandlerBAware.start_node (end_name, 11%Z) (single_schedule 2)
          (- sum_over q2 (range2 1 11))
  /\ sum_over q1 (range2 1 11) <= sum_over q1 (range2 1 5) + sum_over q2 (range2 5 11)
  /\ sum_over q2 (range2 1 11) <= sum_over q1 (range2 1 5) + sum_over q2 (range2 5 11).
Proof.
  intros rsus q1 q2 G Hrange Hbefore Hafter.
  assert (HG : G = two_rsu_graph q1 q2) by (apply crossing_dag_graph; exact Hrange).
  pose proof (Hbefore 1%Z ltac:(lia)) as A1. pose proof (Hbefore 2%Z ltac:(lia)) as A2.
  pose proof (Hbefore 3%Z ltac:(lia)) as A3. pose proof (Hbefore 4%Z ltac:(lia)) as A4.
  pose proof (Hafter 5%Z ltac:(lia)) as B5. pose proof (Hafter 6%Z ltac:(lia)) as B6.
  pose proof (Hafter 7%Z ltac:(lia)) as B7. pose proof (Hafter 8%Z ltac:(lia)) as B8.
  pose proof (Hafter 9%Z ltac:(lia)) as B9. pose proof (Hafter 10%Z ltac:(lia)) as B10.
  destruct (two_rsu_walks q1 q2) as (W & W1 & W2).
  split; [| split; [| split; [| split; [| split]]]].
  - unfold ChandlerBAware.construct_dag. cbv zeta. fold rsus. fold G. rewrite HG.
    change (10 + 1)%Z with 11%Z.
    rewrite two_rsu_schedule; [reflexivity | auto | repeat split; assumption].
  - rewrite HG. exact W.
  - rewrite HG. exact W1.
  - rewrite HG. exact W2.
  - walk_cbv. lra.
  - walk_cbv. lra.
Qed.

(** The relaxation pass of the specification.  With it, for every vehicle
    state, roster, horizon and time step the scheduler returns a walk from
    the start node to the end node of its graph whose total quality (the
    negated sum of its edge weights) is at least that of every such walk.
    For two RSUs that are in range at every tick 1..10 and whose predicted
    qualities cross at tick 5 (RSU 1 better at the ticks 1..4, RSU 2 better at
    the ticks 5..10) the schedule keeps RSU 1 for the ticks 1..4 and switches
    to RSU 2 at tick 5, and its total quality is at least the total of either
    single-RSU schedule, which are walks of the graph too. *)
Lemma relaxation_pass_schedule :
  (forall traci vehicle_id rsus horizon timestep,
      exists weight,
        walk (ChandlerBAware.dag_graph traci vehicle_id rsus horizon timestep)
             ChandlerBAware.start_node (end_name, (horizon + 1)%Z)
             (ChandlerBAware.construct_dag traci vehicle_id rsus horizon timestep) weight
        /\ forall p c,
             walk (ChandlerBAware.dag_graph traci vehicle_id rsus horizon timestep)
                  ChandlerBAware.start_node (end_name, (horizon + 1)%Z) p c ->
             - c <= - weight)
  /\ (forall traci vehicle_id timestep x1 y1 x2 y2,
      let rsus := [mkRSU 1 x1 y1; mkRSU 2 x2 y2] in
      let q1 := potential_datarate traci vehicle_id timestep (mkRSU 1 x1 y1) in
      let q2 := potential_datarate traci vehicle_id timestep (mkRSU 2 x2 y2) in
      let G := ChandlerBAware.dag_graph traci vehicle_id rsus 10 timestep in
      (forall t, (1 <= t <= 10)%Z ->
         dag_distance_at traci vehicle_id timestep (mkRSU 1 x1 y1) t <= 400
         /\ dag_distance_at traci vehicle_id timestep (mkRSU 2 x2 y2) t <= 400) ->
      (forall t, (1 <= t < 5)%Z -> q2 t < q1 t) ->
      (forall t, (5 <= t <= 10)%Z -> q1 t < q2 t) ->
      ChandlerBAware.construct_dag traci vehicle_id rsus 10 timestep = crossing_schedule
      /\ walk G ChandlerBAware.start_node (end_name, 11%Z) crossing_schedule
              (- (sum_over q1 (range2 1 5) + sum_over q2 (range2 5 11)))
      /\ walk G ChandlerBAware.start_node (end_name, 11%Z) (single_schedule 1)
              (- sum_over q1 (range2 1 11))
      /\ walk G ChandlerBAware.start_node (end_name, 11%Z) (single_schedule 2)
              (- sum_over q2 (range2 1 11))
      /\ sum_over q1 (range2 1 11) <= sum_over q1 (range2 1 5) + sum_over q2 (range2 5 11)
      /\ sum_over q2 (range2 1 11) <= sum_over q1 (range2 1 5) + sum_over q2 (range2 5 11)).
Proof.
  split.
  - intros traci vehicle_id rsus horizon timestep.
    destruct (construct_dag_optimal traci vehicle_id rsus horizon timestep)
      as (weight & Hw & Hopt).
    exists weight. split; [exact Hw |].
    intros p c Hp. apply Ropp_le_contravar. apply (Hopt p c Hp).
  - exact crossing_scenario.
Qed.

(** One vehicle at (0,0) driving along the x axis at speed 10; one RSU at
    the origin and one 90 units down the road. *)
Definition crossing_traci : Traci :=
  mkTraci ["veh0"%string] (fun _ => (0, 0)) (fun _ => 10) (fun _ => 0)
          (fun _ => 5) (fun _ => 2).

Lemma crossing_distance_at i a t :
  dag_distance_at crossing_traci "veh0" 1 (mkRSU i a 0) t = Rabs (10 * IZR t - a).
Proof.
  unfold dag_distance_at, ChandlerBAware.predict_future_position. cbv zeta.
  change (getPosition crossing_traci "veh0") with ((0, 0) : Pos).
  change (getSpeed crossing_traci "veh0") with 10.
  change (getAngle crossing_traci "veh0") with 0.
  cbn [fst snd]. rewrite radians_0, cos_0, sin_0.
  replace (0 + 10 * (IZR t * 1) * 0) with 0 by ring.
  rewrite distance_same_y. f_equal. ring.
Qed.

Lemma inv_one_plus_strict x y : 0 <= x -> x < y -> 1 / (1 + y) < 1 / (1 + x).
Proof.
  intros Hx Hxy. unfold Rdiv. rewrite !Rmult_1_l.
  apply Rinv_lt_contravar; [| lra]. apply Rmult_lt_0_compat; lra.
Qed.

Lemma crossing_in_range t :
  (1 <= t <= 10)%Z ->
  dag_distance_at crossing_traci "veh0" 1 (mkRSU 1 0 0) t <= 400
  /\ dag_distance_at crossing_traci "veh0" 1 (mkRSU 2 90 0) t <= 400.
Proof.
  intros Ht. rewrite !crossing_distance_at.
  assert (1 <= IZR t <= 10) by (split; apply IZR_le; lia).
  split; rsolve.
Qed.

Lemma crossing_before t :
  (1 <= t < 5)%Z ->
  potential_datarate crossing_traci "veh0" 1 (mkRSU 2 90 0) t
  < potential_datarate crossing_traci "veh0" 1 (mkRSU 1 0 0) t.
Proof.
  intros Ht. unfold potential_datarate. rewrite !crossing_distance_at.
  assert (1 <= IZR t <= 4) by (split; apply IZR_le; lia).
  apply inv_one_plus_strict; rsolve.
Qed.

Lemma crossing_after t :
  (5 <= t <= 10)%Z ->
  potential_datarate crossing_traci "veh0" 1 (mkRSU 1 0 0) t
  < potential_datarate crossing_traci "veh0" 1 (mkRSU 2 90 0) t.
Proof.
  intros Ht. unfold potential_datarate. rewrite !crossing_distance_at.
  assert (5 <= IZR t <= 10) by (split; apply IZR_le; lia).
  apply inv_one_plus_strict; rsolve.
Qed.

(** The vehicle of [crossing_traci] is nearer to RSU 1 up to tick 4 and
    nearer to RSU 2 from tick 5 on. *)
Lemma relaxation_pass_schedule_crossing :
  ChandlerBAware.construct_dag crossing_traci "veh0" [mkRSU 1 0 0; mkRSU 2 90 0] 10 1
  = crossing_schedule.
Proof.
  apply (proj2 relaxation_pass_schedule crossing_traci "veh0"%string 1 0 0 90 0
           crossing_in_range crossing_before crossing_after).
Qed.

(** ** The search of the library on the scheduler's graph *)

(** *** The search does not depend on how the weights are represented

    A map [h] between two kinds of weights that respects zero, the sum and
    the two comparisons carries a run of the search over to a run with the
    same outcome. *)
Section SearchTransfer.
Context {W1 W2 : Type}.
Variables (zero1 : W1) (plus1 : W1 -> W1 -> W1) (ltb1 eqb1 : W1 -> W1 -> bool).
Variables (zero2 : W2) (plus2 : W2 -> W2 -> W2) (ltb2 eqb2 : W2 -> W2 -> bool).
Variable h : W1 -> W2.
Hypothesis h_zero : h zero1 = zero2.
Hypothesis h_plus : forall a b, h (plus1 a b) = plus2 (h a) (h b).
Hypothesis h_ltb : forall a b, ltb2 (h a) (h b) = ltb1 a b.
Hypothesis h_eqb : forall a b, eqb2 (h a) (h b) = eqb1 a b.

Definition map_dict (d : Networkx.Dict W1) : Networkx.Dict W2 :=
  map (fun nv => (fst nv, h (snd nv))) d.

Definition map_entry (e : @Networkx.Entry W1) : @Networkx.Entry W2 :=
  (h (fst (fst e)), snd (fst e), snd e).

Definition map_side (s : @Networkx.Side W1) : @Networkx.Side W2 :=
  Networkx.mkSide (map_dict (Networkx.dists s)) (Networkx.paths s)
                  (map map_entry (Networkx.fringe s)) (map_dict (Networkx.seen s)).

Definition map_final (f : option (W1 * list Node)) : option (W2 * list Node) :=
  option_map (fun dp => (h (fst dp), snd dp)) f.

Definition map_relaxed (r : @Networkx.Relaxed W1) : @Networkx.Relaxed W2 :=
  (map_side (fst (fst r)), snd (fst r), map_final (snd r)).

Definition map_state (st : @Networkx.State W1) : @Networkx.State W2 :=
  Networkx.mkState (map_side (Networkx.forward st)) (map_side (Networkx.backward st))
                   (Networkx.count st) (map_final (Networkx.final st))
                   (Networkx.backwards st).

Definition map_edges (edges : list (Node * Node * W1)) : list (Node * Node * W2) :=
  map (fun e => (fst e, h (snd e))) edges.

Lemma get_map_dict n d : Networkx.get n (map_dict d) = option_map h (Networkx.get n d).
Proof.
  induction d as [| [m v] rest IH]; cbn [map_dict map Networkx.get fst snd]; [reflexivity |].
  destruct (node_eqb n m); [reflexivity | exact IH].
Qed.

Lemma put_map_dict n v d :
  Networkx.put n (h v) (map_dict d) = map_dict (Networkx.put n v d).
Proof.
  induction d as [| [m v'] rest IH]; cbn [map_dict map Networkx.put fst snd]; [reflexivity |].
  destruct (node_eqb n m); cbn [map fst snd]; [reflexivity |].
  f_equal. exact IH.
Qed.

Lemma entry_lt_map a b :
  Networkx.entry_lt ltb2 eqb2 (map_entry a) (map_entry b) = Networkx.entry_lt ltb1 eqb1 a b.
Proof.
  destruct a as [[da ca] na], b as [[db cb] nb].
  unfold Networkx.entry_lt, map_entry. cbn [fst snd]. rewrite h_eqb, h_ltb. reflexivity.
Qed.

Lemma smallest_map heap : forall e,
  Networkx.smallest ltb2 eqb2 (map_entry e) (map map_entry heap)
  = map_entry (Networkx.smallest ltb1 eqb1 e heap).
Proof.
  induction heap as [| e' rest IH]; intros e; cbn [map Networkx.smallest]; [reflexivity |].
  rewrite entry_lt_map. destruct (Networkx.entry_lt ltb1 eqb1 e' e); apply IH.
Qed.

Lemma without_map c heap :
  Networkx.without c (map map_entry heap) = map map_entry (Networkx.without c heap).
Proof.
  induction heap as [| e rest IH]; cbn [map Networkx.without]; [reflexivity |].
  unfold map_entry at 1. cbn [fst snd].
  destruct (snd (fst e) =? c)%Z; cbn [map]; [reflexivity |]. f_equal. exact IH.
Qed.

Lemma heappop_map heap :
  Networkx.heappop ltb2 eqb2 (map map_entry heap)
  = option_map (fun mr => (map_entry (fst mr), map map_entry (snd mr)))
               (Networkx.heappop ltb1 eqb1 heap).
Proof.
  destruct heap as [| e rest]; [reflexivity |].
  unfold Networkx.heappop. cbn [map option_map fst snd]. cbv zeta.
  rewrite smallest_map.
  change (map_entry e :: map map_entry rest) with (map map_entry (e :: rest)).
  unfold map_entry at 2. cbn [fst snd]. rewrite without_map. reflexivity.
Qed.

Lemma succ_map edges v :
  Networkx.succ (map_edges edges) v
  = map (fun nw => (fst nw, h (snd nw))) (Networkx.succ edges v).
Proof.
  unfold Networkx.succ, map_edges.
  induction edges as [| e rest IH]; cbn [map filter fst snd]; [reflexivity |].
  destruct (node_eqb (fst (fst e)) v); cbn [map fst snd]; rewrite IH; reflexivity.
Qed.

Lemma pred_map edges v :
  Networkx.pred (map_edges edges) v
  = map (fun nw => (fst nw, h (snd nw))) (Networkx.pred edges v).
Proof.
  unfold Networkx.pred, map_edges.
  induction edges as [| e rest IH]; cbn [map filter fst snd]; [reflexivity |].
  destruct (node_eqb (snd (fst e)) v); cbn [map fst snd]; rewrite IH; reflexivity.
Qed.

Lemma relax_map forwards other v dist st nb :
  Networkx.relax plus2 ltb2 forwards (map_side other) v (h dist)
                 (option_map map_relaxed st) (fst nb, h (snd nb))
  = option_map map_relaxed (Networkx.relax plus1 ltb1 forwards other v dist st nb).
Proof.
  destruct st as [[[this c] final] |]; [| reflexivity].
  destruct nb as [w cost]. cbn [option_map map_relaxed fst snd Networkx.relax].
  cbv zeta. cbn [map_side Networkx.dists Networkx.seen Networkx.paths Networkx.fringe].
  rewrite !get_map_dict, <- h_plus.
  destruct (Networkx.get w (Networkx.dists this)) as [dw |]; cbn [option_map].
  - rewrite h_ltb. destruct (ltb1 (plus1 dist cost) dw); reflexivity.
  - assert (Hseen :
      match option_map h (Networkx.get w (Networkx.seen this)) with
      | Some sw => ltb2 (h (plus1 dist cost)) sw
      | None => true
      end
      = match Networkx.get w (Networkx.seen this) with
        | Some sw => ltb1 (plus1 dist cost) sw
        | None => true
        end).
    { destruct (Networkx.get w (Networkx.seen this)); cbn [option_map];
        [apply h_ltb | reflexivity]. }
    rewrite Hseen. clear Hseen.
    destruct (match Networkx.get w (Networkx.seen this) with
              | Some sw => ltb1 (plus1 dist cost) sw
              | None => true
              end); [| reflexivity].
    unfold map_relaxed, map_side.
    cbn [option_map fst snd Networkx.dists Networkx.seen Networkx.paths Networkx.fringe].
    rewrite put_map_dict, map_app. cbn [map]. unfold map_entry at 2. cbn [fst snd].
    f_equal. f_equal.
    destruct (Networkx.get w (Networkx.seen other)) as [sw' |]; cbn [option_map];
      [| reflexivity].
    destruct forwards.
    + rewrite <- h_plus.
      destruct final as [[finaldist finalpath] |]; cbn [map_final option_map fst snd].
      * rewrite h_ltb. destruct (ltb1 (plus1 (plus1 dist cost) sw') finaldist); reflexivity.
      * reflexivity.
    + rewrite <- h_plus.
      destruct final as [[finaldist finalpath] |]; cbn [map_final option_map fst snd].
      * rewrite h_ltb. destruct (ltb1 (plus1 sw' (plus1 dist cost)) finaldist); reflexivity.
      * reflexivity.
Qed.

Lemma fold_relax_map forwards other v dist nbs : forall st,
  fold_left (Networkx.relax plus2 ltb2 forwards (map_side other) v (h dist))
            (map (fun nw => (fst nw, h (snd nw))) nbs) (option_map map_relaxed st)
  = option_map map_relaxed
      (fold_left (Networkx.relax plus1 ltb1 forwards other v dist) nbs st).
Proof.
  induction nbs as [| nb rest IH]; intros st; cbn [map fold_left]; [reflexivity |].
  rewrite relax_map. apply IH.
Qed.

Lemma search_map edges fuel : forall st,
  Networkx.search plus2 ltb2 eqb2 (map_edges edges) fuel (map_state st)
  = Networkx.search plus1 ltb1 eqb1 edges fuel st.
Proof.
  induction fuel as [| fuel IH]; intros st; [reflexivity |].
  destruct st as [fw bw c final back]. cbn [Networkx.search].
  cbn [map_state Networkx.forward Networkx.backward Networkx.count Networkx.final
       Networkx.backwards].
  destruct fw as [d0 p0 f0 s0], bw as [d1 p1 f1 s1].
  cbn [map_side Networkx.fringe Networkx.dists Networkx.paths Networkx.seen].
  destruct f0 as [| e0 f0]; [reflexivity |].
  destruct f1 as [| e1 f1]; [reflexivity |].
  cbv zeta.
  destruct back; cbn [negb].
  - (* forwards *)
    unfold map_side.
    cbn [map Networkx.fringe Networkx.dists Networkx.paths Networkx.seen].
    change (map_entry e0 :: map map_entry f0) with (map map_entry (e0 :: f0)).
    rewrite heappop_map.
    destruct (Networkx.heappop ltb1 eqb1 (e0 :: f0)) as [[[[dist cnt] v] rest] |];
      cbn [option_map fst snd map_entry]; [| reflexivity].
    rewrite get_map_dict.
    destruct (Networkx.get v d0) as [dv |]; cbn [option_map].
    + rewrite <- (IH (Networkx.mkState (Networkx.mkSide d0 p0 rest s0)
                        (Networkx.mkSide d1 p1 (e1 :: f1) s1) c final false)).
      reflexivity.
    + rewrite get_map_dict.
      destruct (Networkx.get v d1) as [dv |]; cbn [option_map].
      * destruct final as [[fd fp] |]; reflexivity.
      * rewrite succ_map.
        change (Networkx.mkSide (map_dict d1) p1 (map_entry e1 :: map map_entry f1)
                                (map_dict s1))
          with (map_side (Networkx.mkSide d1 p1 (e1 :: f1) s1)).
        rewrite put_map_dict.
        change (Some (Networkx.mkSide (map_dict (Networkx.put v dist d0)) p0
                        (map map_entry rest) (map_dict s0), c, map_final final))
          with (option_map map_relaxed
                  (Some (Networkx.mkSide (Networkx.put v dist d0) p0 rest s0, c, final))).
        rewrite fold_relax_map.
        destruct (fold_left _ (Networkx.succ edges v) _) as [[[this c'] final'] |];
          cbn [option_map map_relaxed fst snd]; [| reflexivity].
        rewrite <- (IH (Networkx.mkState this (Networkx.mkSide d1 p1 (e1 :: f1) s1)
                          c' final' false)).
        reflexivity.
  - (* backwards *)
    unfold map_side.
    cbn [map Networkx.fringe Networkx.dists Networkx.paths Networkx.seen].
    change (map_entry e1 :: map map_entry f1) with (map map_entry (e1 :: f1)).
    rewrite heappop_map.
    destruct (Networkx.heappop ltb1 eqb1 (e1 :: f1)) as [[[[dist cnt] v] rest] |];
      cbn [option_map fst snd map_entry]; [| reflexivity].
    rewrite get_map_dict.
    destruct (Networkx.get v d1) as [dv |]; cbn [option_map].
    + rewrite <- (IH (Networkx.mkState (Networkx.mkSide d0 p0 (e0 :: f0) s0)
                        (Networkx.mkSide d1 p1 rest s1) c final true)).
      reflexivity.
    + rewrite get_map_dict.
      destruct (Networkx.get v d0) as [dv |]; cbn [option_map].
      * destruct final as [[fd fp] |]; reflexivity.
      * rewrite pred_map.
        change (Networkx.mkSide (map_dict d0) p0 (map_entry e0 :: map map_entry f0)
                                (map_dict s0))
          with (map_side (Networkx.mkSide d0 p0 (e0 :: f0) s0)).
        rewrite put_map_dict.
        change (Some (Networkx.mkSide (map_dict (Networkx.put v dist d1)) p1
                        (map map_entry rest) (map_dict s1), c, map_final final))
          with (option_map map_relaxed
                  (Some (Networkx.mkSide (Networkx.put v dist d1) p1 rest s1, c, final))).
        rewrite fold_relax_map.
        destruct (fold_left _ (Networkx.pred edges v) _) as [[[this c'] final'] |];
          cbn [option_map map_relaxed fst snd]; [| reflexivity].
        rewrite <- (IH (Networkx.mkState (Networkx.mkSide d0 p0 (e0 :: f0) s0) this
                          c' final' true)).
        reflexivity.
Qed.

Lemma bidirectional_dijkstra_map nodes edges source target :
  Networkx.bidirectional_dijkstra zero2 plus2 ltb2 eqb2 nodes (map_edges edges) source target
  = Networkx.bidirectional_dijkstra zero1 plus1 ltb1 eqb1 nodes edges source target.
Proof.
  unfold Networkx.bidirectional_dijkstra.
  destruct (negb (existsb (node_eqb source) nodes) || negb (existsb (node_eqb target) nodes));
    [reflexivity |].
  destruct (node_eqb source target); [reflexivity |].
  replace (List.length (map_edges edges)) with (List.length edges)
    by (unfold map_edges; rewrite length_map; reflexivity).
  rewrite <- search_map. unfold Networkx.start_state, map_state, map_side, map_dict, map_entry.
  cbn [map fst snd Networkx.forward Networkx.backward Networkx.count Networkx.final
       Networkx.backwards Networkx.dists Networkx.paths Networkx.fringe Networkx.seen
       map_final option_map].
  rewrite h_zero. reflexivity.
Qed.

End SearchTransfer.

(** *** Rational weights

    The weights of the failing schedule are rational; on rationals the search
    can be run. *)

Definition Qltb (a b : Q) : bool := negb (Qle_bool b a).

Lemma Q2R_zero : Q2R 0%Q = 0.
Proof. unfold Q2R. cbn [Qnum Qden]. lra. Qed.

Lemma Rltb_Q2R a b : Rltb (Q2R a) (Q2R b) = Qltb a b.
Proof.
  unfold Qltb. destruct (Qle_bool b a) eqn:E; cbn [negb].
  - apply Rltb_false. apply Qle_Rle. apply Qle_bool_iff. exact E.
  - apply Rltb_true. apply Qlt_Rlt. apply Qnot_le_lt. intros H.
    apply Qle_bool_iff in H. congruence.
Qed.

Lemma Reqb_Q2R a b : Reqb (Q2R a) (Q2R b) = Qeq_bool a b.
Proof.
  destruct (Qeq_bool a b) eqn:E.
  - apply Reqb_true. apply Qeq_eqR. apply Qeq_bool_iff. exact E.
  - apply Reqb_false. intros H. apply eqR_Qeq in H. apply Qeq_bool_iff in H. congruence.
Qed.

(** The library's search on a graph whose weights are the rationals
    [edges]. *)
Lemma shortest_path_rational (G : DiGraph) (edges_q : list (Node * Node * Q))
    (source target : Node) :
  edges G = map_edges Q2R edges_q ->
  Networkx.shortest_path G source target
  = Networkx.bidirectional_dijkstra 0%Q Qplus Qltb Qeq_bool (nodes G) edges_q source target.
Proof.
  intros HG. unfold Networkx.shortest_path. rewrite HG.
  apply (bidirectional_dijkstra_map 0%Q Qplus Qltb Qeq_bool 0 Rplus Rltb Reqb Q2R).
  - exact Q2R_zero.
  - exact Q2R_plus.
  - exact Rltb_Q2R.
  - exact Reqb_Q2R.
Qed.

(** *** Two RSUs in range at every tick

    The graph the scheduler builds for the roster of the RSUs [i] and [j]
    when both are in range at every tick 1..10, [wa] and [wb] being the
    weights of the edges into their nodes. *)

Definition pair_layer (i j t : Z) : list Node := [rsu_node i t; rsu_node j t].

Definition pair_layer_edges {W : Type} (i j t : Z) (prev : list Node) (wa wb : Z -> W)
    : list (Node * Node * W) :=
  map (fun n => (n, rsu_node i t, wa t)) prev ++ map (fun n => (n, rsu_node j t, wb t)) prev.

Definition pair_edges {W : Type} (i j : Z) (wa wb : Z -> W) (zero : W)
    : list (Node * Node * W) :=
  pair_layer_edges i j 1 [ChandlerBAware.start_node] wa wb
  ++ flat_map (fun t => pair_layer_edges i j t (pair_layer i j (t - 1)) wa wb) (range2 2 11)
  ++ map (fun n => (n, (end_name, 11%Z), zero)) (pair_layer i j 10).

Definition pair_nodes (i j : Z) : list Node :=
  ChandlerBAware.start_node :: flat_map (pair_layer i j) (range2 1 11) ++ [(end_name, 11%Z)].

Lemma tick_step_pair traci vehicle_id timestep x1 y1 x2 y2 G last_nodes t :
  dag_distance_at traci vehicle_id timestep (mkRSU 6 x1 y1) t <= 400 ->
  dag_distance_at traci vehicle_id timestep (mkRSU 1 x2 y2) t <= 400 ->
  ChandlerBAware.tick_step traci vehicle_id [mkRSU 6 x1 y1; mkRSU 1 x2 y2] timestep
    (G, last_nodes) t
  = (fold_left (fun G last_node =>
                  add_edge G last_node (rsu_node 1 t)
                    (- potential_datarate traci vehicle_id timestep (mkRSU 1 x2 y2) t))
       last_nodes
       (add_node
          (fold_left (fun G last_node =>
                        add_edge G last_node (rsu_node 6 t)
                          (- potential_datarate traci vehicle_id timestep (mkRSU 6 x1 y1) t))
             last_nodes (add_node G (rsu_node 6 t)))
          (rsu_node 1 t)),
     pair_layer 6 1 t).
Proof.
  intros H1 H2. unfold ChandlerBAware.tick_step. cbv zeta. cbn [fold_left].
  unfold ChandlerBAware.rsu_step. cbv zeta. cbn [rsu_id].
  fold (dag_distance_at traci vehicle_id timestep (mkRSU 6 x1 y1) t).
  fold (dag_distance_at traci vehicle_id timestep (mkRSU 1 x2 y2) t).
  rewrite !Rleb_true by assumption.
  unfold set_add, pair_layer, rsu_node, potential_datarate.
  cbn [existsb app node_eqb name_eqb fst snd Z.eqb Pos.eqb andb orb].
  reflexivity.
Qed.

Ltac pair_cbv :=
  cbv beta iota zeta delta
    [pair_edges pair_nodes pair_layer_edges pair_layer rsu_node range2 flat_map map seq app
     Z.to_nat Pos.to_nat Pos.iter_op Nat.add Z.sub Z.add Z.opp Z.pos_sub Z.of_nat
     Pos.of_succ_nat Pos.succ Pos.add Pos.pred_double Z.succ_double Z.pred_double Z.double
     ChandlerBAware.start_node nodes edges].

Lemma pair_dag_graph traci vehicle_id timestep x1 y1 x2 y2 :
  (forall t, (1 <= t <= 10)%Z ->
     dag_distance_at traci vehicle_id timestep (mkRSU 6 x1 y1) t <= 400
     /\ dag_distance_at traci vehicle_id timestep (mkRSU 1 x2 y2) t <= 400) ->
  ChandlerBAware.dag_graph traci vehicle_id [mkRSU 6 x1 y1; mkRSU 1 x2 y2] 10 timestep
  = mkDiGraph (pair_nodes 6 1)
      (pair_edges 6 1
         (fun t => - potential_datarate traci vehicle_id timestep (mkRSU 6 x1 y1) t)
         (fun t => - potential_datarate traci vehicle_id timestep (mkRSU 1 x2 y2) t) 0).
Proof.
  intros Hrange.
  unfold ChandlerBAware.dag_graph, ChandlerBAware.after_ticks.
  change (range2 1 (10 + 1)) with [1; 2; 3; 4; 5; 6; 7; 8; 9; 10]%Z.
  cbn [fold_left].
  rewrite !tick_step_pair by (apply Hrange; lia).
  cbv beta iota zeta delta
    [pair_edges pair_nodes pair_layer_edges pair_layer rsu_node range2 flat_map map seq app
     Z.to_nat Pos.to_nat Pos.iter_op Nat.add Z.sub Z.add Z.opp Z.pos_sub Z.of_nat
     Pos.of_succ_nat Pos.succ Pos.add Pos.pred_double Z.succ_double Z.pred_double Z.double
     ChandlerBAware.start_node nodes edges
     fold_left add_edge add_node set_add existsb set_weight node_eqb name_eqb
     fst snd andb orb empty_graph Z.eqb Pos.eqb].
  reflexivity.
Qed.

(** *** The vehicle of [crossing_traci] between the RSUs 6 and 1

    The vehicle drives from RSU 6, at the origin, towards RSU 1, 90 units
    down the road, and passes it at tick 9.  The predicted qualities are
    [1/(1 + 10 t)] and [1/(1 + |10 t - 90|)]: RSU 6 is the better one at the
    ticks 1..4, RSU 1 from tick 5 on. *)

Definition crossing_roster : list RSU := [mkRSU 6 0 0; mkRSU 1 90 0].

Definition weight_6 (t : Z) : Q := - (1 # Z.to_pos (1 + 10 * t)).
Definition weight_1 (t : Z) : Q := - (1 # Z.to_pos (1 + Z.abs (10 * t - 90))).

Lemma crossing_weight_6 t :
  (1 <= t <= 10)%Z ->
  - potential_datarate crossing_traci "veh0" 1 (mkRSU 6 0 0) t = Q2R (weight_6 t).
Proof.
  intros Ht. unfold potential_datarate. rewrite crossing_distance_at.
  assert (Hc : (t = 1 \/ t = 2 \/ t = 3 \/ t = 4 \/ t = 5 \/ t = 6 \/ t = 7 \/ t = 8
                \/ t = 9 \/ t = 10)%Z) by lia.
  repeat destruct Hc as [-> | Hc]; try subst t;
    unfold Q2R, weight_6; cbn [Qnum Qden Qopp Z.to_pos Z.add Z.mul Pos.add Pos.mul Z.opp
                               Pos.succ];
    match goal with |- context [Rabs ?x] =>
      replace (Rabs x) with x by (symmetry; apply Rabs_right; lra) end;
    field.
Qed.

Lemma crossing_weight_1 t :
  (1 <= t <= 10)%Z ->
  - potential_datarate crossing_traci "veh0" 1 (mkRSU 1 90 0) t = Q2R (weight_1 t).
Proof.
  intros Ht. unfold potential_datarate. rewrite crossing_distance_at.
  assert (Hc : (t = 1 \/ t = 2 \/ t = 3 \/ t = 4 \/ t = 5 \/ t = 6 \/ t = 7 \/ t = 8
                \/ t = 9 \/ t = 10)%Z) by lia.
  repeat destruct Hc as [-> | Hc]; try subst t;
    unfold Q2R; 
    match goal with |- context [weight_1 ?k] =>
      let q := eval vm_compute in (weight_1 k) in change (weight_1 k) with q end;
    cbn [Qnum Qden];
    match goal with |- context [Rabs ?x] =>
      first [ replace (Rabs x) with x by (symmetry; apply Rabs_right; lra)
            | replace (Rabs x) with (- x) by (symmetry; apply Rabs_left; lra) ] end;
    field.
Qed.

Lemma crossing_edges_rational :
  pair_edges 6 1
    (fun t => - potential_datarate crossing_traci "veh0" 1 (mkRSU 6 0 0) t)
    (fun t => - potential_datarate crossing_traci "veh0" 1 (mkRSU 1 90 0) t) 0
  = map_edges Q2R (pair_edges 6 1 weight_6 weight_1 0%Q).
Proof.
  unfold map_edges. pair_cbv. cbn [fst snd].
  rewrite !crossing_weight_6, !crossing_weight_1 by lia.
  rewrite Q2R_zero. reflexivity.
Qed.

(** The schedule the library's search returns: RSU 6 for the ticks 1..4,
    RSU 1 for the ticks 5..8 and RSU 6 again for the ticks 9 and 10. *)
Definition returned_schedule : list Node :=
  ChandlerBAware.start_node
  :: map (rsu_node 6) (range2 1 5) ++ map (rsu_node 1) (range2 5 9)
  ++ map (rsu_node 6) (range2 9 11) ++ [(end_name, 11%Z)].

(** The schedule that changes from RSU 6 to RSU 1 at tick 5 and stays. *)
Definition switching_schedule : list Node :=
  ChandlerBAware.start_node
  :: map (rsu_node 6) (range2 1 5) ++ map (rsu_node 1) (range2 5 11) ++ [(end_name, 11%Z)].

Lemma crossing_search :
  Networkx.shortest_path
    (ChandlerBAware.dag_graph crossing_traci "veh0" crossing_roster 10 1)
    ChandlerBAware.start_node (end_name, 11%Z)
  = Networkx.Path returned_schedule.
Proof.
  unfold crossing_roster.
  rewrite (shortest_path_rational _ (pair_edges 6 1 weight_6 weight_1 0%Q)).
  - rewrite pair_dag_graph; [| intros t Ht; rewrite !crossing_distance_at;
      assert (1 <= IZR t <= 10) by (split; apply IZR_le; lia); split; rsolve].
    cbn [nodes]. vm_compute. reflexivity.
  - rewrite pair_dag_graph; [| intros t Ht; rewrite !crossing_distance_at;
      assert (1 <= IZR t <= 10) by (split; apply IZR_le; lia); split; rsolve].
    cbn [edges]. exact crossing_edges_rational.
Qed.

Ltac pair_walk_cbv :=
  cbv beta iota zeta delta
    [pair_edges pair_nodes pair_layer_edges pair_layer rsu_node range2 flat_map map seq app
     Z.to_nat Pos.to_nat Pos.iter_op Nat.add Z.sub Z.add Z.opp Z.pos_sub Z.of_nat
     Pos.of_succ_nat Pos.succ Pos.add Pos.pred_double Z.succ_double Z.pred_double Z.double
     ChandlerBAware.start_node nodes edges returned_schedule switching_schedule
     single_schedule walk_weight find node_eqb name_eqb fst snd andb Z.eqb Pos.eqb path_end
     sum_over fold_right tl].

Lemma pair_walks (a b : Z -> R) :
  let G := mkDiGraph (pair_nodes 6 1) (pair_edges 6 1 (fun t => - a t) (fun t => - b t) 0) in
  walk G ChandlerBAware.start_node (end_name, 11%Z) returned_schedule
       (- (sum_over a (range2 1 5) + sum_over b (range2 5 9) + sum_over a (range2 9 11)))
  /\ walk G ChandlerBAware.start_node (end_name, 11%Z) switching_schedule
          (- (sum_over a (range2 1 5) + sum_over b (range2 5 11)))
  /\ walk G ChandlerBAware.start_node (end_name, 11%Z) (single_schedule 1)
          (- sum_over b (range2 1 11)).
Proof.
  cbv zeta. split; [| split].
  - eapply (walk_of_weight _ _ (tl returned_schedule)).
    + pair_walk_cbv. reflexivity.
    + pair_walk_cbv. ring.
  - eapply (walk_of_weight _ _ (tl switching_schedule)).
    + pair_walk_cbv. reflexivity.
    + pair_walk_cbv. ring.
  - eapply (walk_of_weight _ _ (tl (single_schedule 1))).
    + pair_walk_cbv. reflexivity.
    + pair_walk_cbv. ring.
Qed.

Lemma crossing_quality_6 t :
  (1 <= t <= 10)%Z ->
  potential_datarate crossing_traci "veh0" 1 (mkRSU 6 0 0) t = - Q2R (weight_6 t).
Proof. intros Ht. rewrite <- crossing_weight_6 by exact Ht. ring. Qed.

Lemma crossing_quality_1 t :
  (1 <= t <= 10)%Z ->
  potential_datarate crossing_traci "veh0" 1 (mkRSU 1 90 0) t = - Q2R (weight_1 t).
Proof. intros Ht. rewrite <- crossing_weight_1 by exact Ht. ring. Qed.

Ltac quality_values :=
  cbv beta iota zeta delta
    [sum_over fold_right range2 map seq Z.to_nat Pos.to_nat Pos.iter_op Nat.add Z.sub Z.add
     Z.opp Z.pos_sub Z.of_nat Pos.of_succ_nat Pos.succ Pos.add Pos.pred_double
     Z.succ_double Z.pred_double Z.double];
  rewrite !crossing_quality_6, !crossing_quality_1 by lia;
  repeat match goal with
         | |- context [weight_6 ?k] =>
             let q := eval vm_compute in (weight_6 k) in change (weight_6 k) with q
         | |- context [weight_1 ?k] =>
             let q := eval vm_compute in (weight_1 k) in change (weight_1 k) with q
         end;
  unfold Q2R; cbn [Qnum Qden].

(** C1.  The vehicle of [crossing_traci] and the roster of RSU 6 at the
    origin and RSU 1 at (90, 0), both in range at every tick 1..10, with
    predicted qualities that cross at tick 5.  The search the program calls
    returns the schedule with RSU 6 at the ticks 1..4, RSU 1 at the ticks
    5..8 and RSU 6 again at the ticks 9 and 10.  It is a path of the graph
    from start to end, and so are the schedule that changes to RSU 1 at tick
    5 and stays, and the schedule that keeps RSU 1 throughout; the total
    quality of the returned schedule is below the total of RSU 1 alone, which
    is below the total of the schedule that changes at tick 5. *)
Theorem horizon_schedule_not_optimal :
  let G := ChandlerBAware.dag_graph crossing_traci "veh0" crossing_roster 10 1 in
  let q6 := potential_datarate crossing_traci "veh0" 1 (mkRSU 6 0 0) in
  let q1 := potential_datarate crossing_traci "veh0" 1 (mkRSU 1 90 0) in
  let returned := sum_over q6 (range2 1 5) + sum_over q1 (range2 5 9)
                  + sum_over q6 (range2 9 11) in
  let switching := sum_over q6 (range2 1 5) + sum_over q1 (range2 5 11) in
  ChandlerBAware.construct_dag_nx crossing_traci "veh0" crossing_roster 10 1
  = Networkx.Path returned_schedule
  /\ walk G ChandlerBAware.start_node (end_name, 11%Z) returned_schedule (- returned)
  /\ walk G ChandlerBAware.start_node (end_name, 11%Z) switching_schedule (- switching)
  /\ walk G ChandlerBAware.start_node (end_name, 11%Z) (single_schedule 1)
          (- sum_over q1 (range2 1 11))
  /\ returned < sum_over q1 (range2 1 11) < switching
  /\ 2 * returned < switching.
Proof.
  cbv zeta.
  assert (HG : ChandlerBAware.dag_graph crossing_traci "veh0" crossing_roster 10 1
               = mkDiGraph (pair_nodes 6 1)
                   (pair_edges 6 1
                      (fun t => - potential_datarate crossing_traci "veh0" 1 (mkRSU 6 0 0) t)
                      (fun t => - potential_datarate crossing_traci "veh0" 1 (mkRSU 1 90 0) t)
                      0)).
  { apply pair_dag_graph. intros t Ht. rewrite !crossing_distance_at.
    assert (1 <= IZR t <= 10) by (split; apply IZR_le; lia). split; rsolve. }
  destruct (pair_walks (potential_datarate crossing_traci "veh0" 1 (mkRSU 6 0 0))
                       (potential_datarate crossing_traci "veh0" 1 (mkRSU 1 90 0)))
    as (Wr & Ws & W1).
  split; [| split; [| split; [| split; [| split; [split |]]]]].
  - unfold ChandlerBAware.construct_dag_nx. cbv zeta.
    change (10 + 1)%Z with 11%Z. rewrite crossing_search. reflexivity.
  - rewrite HG. exact Wr.
  - rewrite HG. exact Ws.
  - rewrite HG. exact W1.
  - quality_values. lra.
  - quality_values. lra.
  - quality_values. lra.
Qed.

(** Without coverage at any tick 1..10 the graph has the single edge from
    the start node to the end node, and the library's search returns the
    path of these two nodes, as the relaxation pass does. *)
Lemma construct_dag_nx_without_coverage traci vehicle_id rsus timestep :
  (forall t, In t (range2 1 (10 + 1)) ->
             no_rsu_in_range traci vehicle_id timestep rsus t) ->
  ChandlerBAware.construct_dag_nx traci vehicle_id rsus 10 timestep
  = Networkx.Path [ChandlerBAware.start_node; (end_name, 11%Z)].
Proof.
  intros Hfar. unfold ChandlerBAware.construct_dag_nx. cbv zeta.
  rewrite (dag_graph_without_coverage _ _ _ _ _ Hfar).
  rewrite (shortest_path_rational _
             [(ChandlerBAware.start_node, (end_name, (10 + 1)%Z), 0%Q)]).
  - cbn [nodes]. vm_compute. reflexivity.
  - cbn [edges map_edges map fst snd]. rewrite Q2R_zero. reflexivity.
Qed.


(** * Part III: the selection loops and the tick loop *)

(** ** The score loop of the look-ahead scripts *)

(** The loop [for rsu in rsus] of the look-ahead scripts, for a strength and
    a duration given as functions of the RSU. *)
Section ScoreLoop.
Variables (strength : RSU -> R) (duration : RSU -> Z).

Definition score_of (rsu : RSU) : R := strength rsu * IZR (duration rsu).

Definition score_step (v : Smart.Vars) (rsu : RSU) : Smart.Vars :=
  if Rltb (Smart.best_score v) (score_of rsu)
  then Smart.mkVars (Some rsu) (score_of rsu) (Some (strength rsu)) (Some (duration rsu))
  else Smart.mkVars (Smart.best_rsu v) (Smart.best_score v)
                    (Some (strength rsu)) (Some (duration rsu)).

Lemma score_loop_best (rsus : list RSU) : forall v,
  (Smart.best_rsu (fold_left score_step rsus v),
   Smart.best_score (fold_left score_step rsus v))
  = fold_left (pick RSU score_of) rsus (Smart.best_rsu v, Smart.best_score v).
Proof.
  induction rsus as [| rsu rest IH]; intros v; cbn [fold_left]; [reflexivity |].
  rewrite IH. f_equal. unfold score_step, pick. cbn [snd].
  destruct (Rltb (Smart.best_score v) (score_of rsu)); reflexivity.
Qed.

Lemma score_loop_last (rsus : list RSU) (rsu : RSU) : forall v,
  Smart.signal_strength (fold_left score_step (rsus ++ [rsu]) v) = Some (strength rsu)
  /\ Smart.connection_duration (fold_left score_step (rsus ++ [rsu]) v)
     = Some (duration rsu).
Proof.
  intros v. rewrite fold_left_app. cbn [fold_left]. unfold score_step.
  destruct (Rltb _ _); split; reflexivity.
Qed.

End ScoreLoop.

Lemma fold_left_ext_in {A B : Type} (f g : A -> B -> A) (l : list B) :
  (forall a b, In b l -> f a b = g a b) ->
  forall a, fold_left f l a = fold_left g l a.
Proof.
  induction l as [| b l IH]; intros H a; cbn [fold_left]; [reflexivity |].
  rewrite H by (left; reflexivity). apply IH.
  intros a' b' Hin. apply H. right. assumption.
Qed.

Lemma fold_left_none {A B : Type} (f : option A -> B -> option A) (l : list B) :
  (forall b, f None b = None) -> fold_left f l None = None.
Proof.
  intros H. induction l as [| b l IH]; cbn [fold_left]; [reflexivity |].
  rewrite H. exact IH.
Qed.

Lemma fold_left_some {A B : Type} (f : option A -> B -> option A) (g : A -> B -> A)
    (l : list B) :
  (forall a b, f (Some a) b = Some (g a b)) ->
  forall a, fold_left f l (Some a) = Some (fold_left g l a).
Proof.
  intros H. induction l as [| b l IH]; intros a; cbn [fold_left]; [reflexivity |].
  rewrite H. apply IH.
Qed.

(** What a non-empty list ends with. *)
Lemma list_last_split {A : Type} (l : list A) :
  l = [] \/ exists front x, l = front ++ [x].
Proof.
  induction l as [| x l _] using rev_ind; [left; reflexivity |].
  right. exists l, x. reflexivity.
Qed.

(** ** [run_simulation_smart.py]: what the selection loop writes *)

(** The duration [estimate_connection_duration(vehicle_id, rsu)] returns
    with its default arguments, and the score of the RSU. *)
Definition smart_duration_of (traci : Traci) (vehicle_id : string) (rsu : RSU) : Z :=
  match Smart.estimate_connection_duration traci vehicle_id rsu 10 1 with
  | Some d => d
  | None => 0%Z
  end.

Definition smart_score_of (traci : Traci) (vehicle_id : string) (rsu : RSU) : R :=
  smart_strength_of traci vehicle_id rsu * IZR (smart_duration_of traci vehicle_id rsu).

Lemma smart_estimate_default traci vehicle_id rsu :
  Smart.estimate_connection_duration traci vehicle_id rsu 10 1
  = Some (smart_duration_of traci vehicle_id rsu).
Proof.
  unfold smart_duration_of, Smart.estimate_connection_duration.
  rewrite py_range_step_1. reflexivity.
Qed.

Lemma smart_select_rsu_loop traci vehicle_id rsus :
  Smart.select_rsu traci vehicle_id rsus =
  Some (fold_left (score_step (smart_strength_of traci vehicle_id)
                              (smart_duration_of traci vehicle_id))
                  rsus (Smart.mkVars None 0 None None)).
Proof.
  unfold Smart.select_rsu. cbv zeta. apply fold_left_some.
  intros v rsu. unfold Smart.select_step. rewrite smart_estimate_default.
  cbv zeta. unfold score_step, score_of, smart_strength_of.
  destruct (Rltb _ _); reflexivity.
Qed.

Lemma smart_strength_of_pos traci vehicle_id rsu : 0 < smart_strength_of traci vehicle_id rsu.
Proof.
  unfold smart_strength_of. rewrite smart_strength_spec.
  apply spec_strength_pos; [apply distance_to_nonneg | lra].
Qed.

(** The default estimate is positive exactly when the vehicle is predicted
    within range one tick ahead. *)
Lemma smart_duration_of_pos traci vehicle_id rsu :
  (1 <= smart_duration_of traci vehicle_id rsu)%Z <->
  smart_distance_at traci vehicle_id rsu 1 <= 400.
Proof.
  unfold smart_duration_of, Smart.estimate_connection_duration.
  rewrite py_range_step_1, smart_duration_loop_rollout.
  pose proof (rollout_range_spec
                (fun t => negb (Rltb 400 (smart_distance_at traci vehicle_id rsu t))) 10)
    as H.
  cbv zeta in H. change (10 + 1)%Z with 11%Z in *.
  destruct H as (Hb & Hv & Hstop).
  set (d := rollout _ 1 (range2 1 11) 0) in *.
  split.
  - intros Hd. specialize (Hv 1%Z ltac:(lia)). cbv beta in Hv.
    apply not_Rltb_le. assumption.
  - intros Hin.
    destruct (Z_lt_le_dec d 1) as [Hlt | Hge]; [| assumption].
    assert (d = 0%Z) by lia.
    specialize (Hstop ltac:(lia)). cbv beta in Hstop. rewrite H in Hstop.
    apply not_Rltb_gt in Hstop.
    change (0 + 1)%Z with 1%Z in Hstop. lra.
Qed.

Lemma smart_duration_of_nonneg traci vehicle_id rsu :
  (0 <= smart_duration_of traci vehicle_id rsu <= 10)%Z.
Proof.
  unfold smart_duration_of, Smart.estimate_connection_duration.
  rewrite py_range_step_1, smart_duration_loop_rollout.
  pose proof (rollout_range_spec
                (fun t => negb (Rltb 400 (smart_distance_at traci vehicle_id rsu t))) 10)
    as H.
  cbv zeta in H. change (10 + 1)%Z with 11%Z in *. lia.
Qed.

Lemma smart_score_of_pos traci vehicle_id rsu :
  0 < smart_score_of traci vehicle_id rsu <->
  smart_distance_at traci vehicle_id rsu 1 <= 400.
Proof.
  rewrite <- smart_duration_of_pos. unfold smart_score_of.
  pose proof (smart_strength_of_pos traci vehicle_id rsu) as Hs.
  pose proof (smart_duration_of_nonneg traci vehicle_id rsu) as Hd.
  split.
  - intros H. destruct (Z_lt_le_dec (smart_duration_of traci vehicle_id rsu) 1); [| assumption].
    assert (E : smart_duration_of traci vehicle_id rsu = 0%Z) by lia.
    rewrite E in H. lra.
  - intros H. apply IZR_le in H. nra.
Qed.


(** The two outcomes of the score loop started from
    [best_rsu = None; best_score = 0]: no RSU has a positive score and none
    is chosen, or the first RSU of the roster with the highest score is
    chosen, and the loop variables hold the strength and the duration of the
    RSU the roster ends with. *)
Lemma score_loop_cases (strength : RSU -> R) (duration : RSU -> Z) (rsus : list RSU) :
  let score := score_of strength duration in
  let v := fold_left (score_step strength duration) rsus (Smart.mkVars None 0 None None) in
  (Smart.best_rsu v = None /\ forall rsu, In rsu rsus -> score rsu <= 0)
  \/ (exists before best after front last_rsu,
        rsus = before ++ best :: after /\ rsus = front ++ [last_rsu] /\
        v = Smart.mkVars (Some best) (score best)
                         (Some (strength last_rsu)) (Some (duration last_rsu)) /\
        0 < score best /\
        (forall rsu, In rsu before -> score rsu < score best) /\
        (forall rsu, In rsu after -> score rsu <= score best)).
Proof.
  cbv zeta.
  pose proof (score_loop_best strength duration rsus (Smart.mkVars None 0 None None)) as Hb.
  cbn [Smart.best_rsu Smart.best_score] in Hb.
  destruct (fold_pick_spec RSU (score_of strength duration) rsus None 0)
    as [[Heq Hle] | (l1 & x & l2 & Hl & Heq & Hlt & H1 & H2)]; rewrite Heq in Hb.
  - left. split; [congruence | assumption].
  - right. destruct (list_last_split rsus) as [-> | (front & last_rsu & Hlast)].
    + destruct l1; discriminate.
    + exists l1, x, l2, front, last_rsu.
      split; [assumption |]. split; [assumption |]. split.
      * pose proof (score_loop_last strength duration front last_rsu
                      (Smart.mkVars None 0 None None)) as [Hs Hd].
        rewrite <- Hlast in Hs, Hd.
        destruct (fold_left _ rsus _) as [b s sg cd].
        cbn [Smart.best_rsu Smart.best_score Smart.signal_strength
             Smart.connection_duration] in *.
        congruence.
      * repeat split; assumption.
Qed.

(** X1.  [run_simulation_smart.py] writes a row for a vehicle exactly when
    some RSU of the roster is within the range of 400 of the position
    predicted for the vehicle one tick ahead. *)
Theorem smart_row_written_iff_in_range : forall traci step vehicle_id rsus,
  (exists row, Smart.vehicle_row traci step vehicle_id rsus = Some row) <->
  (exists rsu, In rsu rsus /\ smart_distance_at traci vehicle_id rsu 1 <= 400).
Proof.
  intros traci step vehicle_id rsus.
  unfold Smart.vehicle_row. rewrite smart_select_rsu_loop.
  destruct (score_loop_cases (smart_strength_of traci vehicle_id)
              (smart_duration_of traci vehicle_id) rsus)
    as [[Hnone Hle] | (l1 & best & l2 & front & last_rsu & Hl & _ & Hv & Hpos & _)].
  - destruct (fold_left _ rsus _) as [b s sg cd]. cbn [Smart.best_rsu] in Hnone. subst b.
    split.
    + intros [row Hrow]. discriminate.
    + intros (rsu & Hin & Hd). exfalso.
      apply smart_score_of_pos in Hd. specialize (Hle rsu Hin).
      unfold smart_score_of in Hd. unfold score_of in Hle. lra.
  - rewrite Hv. split.
    + intros _. exists best. split.
      * rewrite Hl. apply in_or_app. right. left. reflexivity.
      * apply smart_score_of_pos. exact Hpos.
    + intros _. eexists. reflexivity.
Qed.

(** X2.  The row [run_simulation_smart.py] writes for a vehicle names the
    first RSU of the roster whose score is the highest, with that score,
    which is positive; the strength and the duration in the row are those of
    the RSU the roster ends with.  When no row is written, every RSU has
    score 0. *)
Theorem smart_row_contents : forall traci step vehicle_id rsus,
  let score := smart_score_of traci vehicle_id in
  match Smart.vehicle_row traci step vehicle_id rsus with
  | None => forall rsu, In rsu rsus -> score rsu = 0
  | Some row =>
      Smart.row_step row = step /\ Smart.row_vehicle row = vehicle_id /\
      exists before best after front last_rsu,
        rsus = before ++ best :: after /\ rsus = front ++ [last_rsu] /\
        Smart.row_rsu row = rsu_id best /\
        Smart.row_score row = score best /\ 0 < score best /\
        (forall rsu, In rsu before -> score rsu < score best) /\
        (forall rsu, In rsu after -> score rsu <= score best) /\
        Smart.row_signal row = smart_strength_of traci vehicle_id last_rsu /\
        Smart.estimate_connection_duration traci vehicle_id last_rsu 10 1
        = Some (Smart.row_duration row)
  end.
Proof.
  intros traci step vehicle_id rsus score.
  unfold Smart.vehicle_row. rewrite smart_select_rsu_loop.
  destruct (score_loop_cases (smart_strength_of traci vehicle_id)
              (smart_duration_of traci vehicle_id) rsus)
    as [[Hnone Hle] | (l1 & best & l2 & front & last_rsu & Hl & Hlast & Hv & Hpos & H1 & H2)].
  - destruct (fold_left _ rsus _) as [b s sg cd]. cbn [Smart.best_rsu] in Hnone. subst b.
    intros rsu Hin. specialize (Hle rsu Hin).
    pose proof (smart_strength_of_pos traci vehicle_id rsu) as Hs.
    pose proof (smart_duration_of_nonneg traci vehicle_id rsu) as Hd.
    assert (0 <= IZR (smart_duration_of traci vehicle_id rsu))
      by (apply IZR_le; lia).
    unfold score, smart_score_of. unfold score_of in Hle. nra.
  - rewrite Hv. cbn [Smart.row_step Smart.row_vehicle Smart.row_rsu Smart.row_score
                     Smart.row_signal Smart.row_duration].
    split; [reflexivity |]. split; [reflexivity |].
    exists l1, best, l2, front, last_rsu.
    repeat split; try assumption; try reflexivity.
Qed.


(** ** [run_chandleraz_simulation_smart.py]: the log stays empty *)

Lemma chandler_select_rsu_loop traci vehicle_id rsus :
  In vehicle_id (getIDList traci) ->
  ChandlerSmart.select_rsu traci vehicle_id rsus =
  Some (fold_left
          (score_step (ChandlerSmart.calculate_signal_strength
                         (ChandlerSmart.predict_future_position traci vehicle_id 2))
                      (fun _ => 0%Z))
          rsus (Smart.mkVars None 0 None None)).
Proof.
  intros Hin. unfold ChandlerSmart.select_rsu. cbv zeta. apply fold_left_some.
  intros v rsu. unfold ChandlerSmart.select_step.
  rewrite chandler_estimate_of_listed_vehicle by (assumption || discriminate).
  cbv zeta. unfold score_step, score_of.
  destruct (Rltb _ _); reflexivity.
Qed.

Lemma chandler_row_of_listed_vehicle traci step vehicle_id rsus :
  In vehicle_id (getIDList traci) ->
  ChandlerSmart.vehicle_row traci step vehicle_id rsus = None.
Proof.
  intros Hin. unfold ChandlerSmart.vehicle_row.
  rewrite chandler_select_rsu_loop by assumption.
  destruct (score_loop_cases
              (ChandlerSmart.calculate_signal_strength
                 (ChandlerSmart.predict_future_position traci vehicle_id 2))
              (fun _ => 0%Z) rsus)
    as [[Hnone _] | (l1 & best & l2 & front & last_rsu & _ & _ & _ & Hpos & _)].
  - destruct (fold_left _ rsus _) as [b s sg cd]. cbn [Smart.best_rsu] in Hnone.
    subst b. reflexivity.
  - exfalso. unfold score_of in Hpos. lra.
Qed.

Lemma flat_map_nil_in {A B : Type} (f : A -> list B) (l : list A) :
  (forall a, In a l -> f a = []) -> flat_map f l = [].
Proof.
  induction l as [| a l IH]; intros H; cbn [flat_map]; [reflexivity |].
  rewrite H by (left; reflexivity). cbn [app]. apply IH.
  intros a' Hin. apply H. right. assumption.
Qed.

(** X3.  [run_chandleraz_simulation_smart.py] never writes a row: the
    subject vehicle is among the obstacles of its own rollout, so every
    duration is 0, every score is 0 and no RSU is ever chosen, whatever the
    simulator reports and whatever the roster. *)
Theorem chandler_smart_log_is_empty : forall sim rsus,
  ChandlerSmart.run_simulation sim rsus = [].
Proof.
  intros sim rsus. unfold ChandlerSmart.run_simulation, run_all.
  apply flat_map_nil_in. intros step _. unfold step_rows.
  apply flat_map_nil_in. intros vehicle_id Hin.
  rewrite chandler_row_of_listed_vehicle by assumption. reflexivity.
Qed.

(** ** [run_simulation_b-aware.py]: what the selection loop writes *)

(** Strength, default duration and score of an RSU for a vehicle, and the
    predicted distance at a future tick. *)
Definition baware_strength_of (traci : Traci) (vehicle_id : string) (rsu : RSU) : R :=
  BAware.calculate_signal_strength (getPosition traci vehicle_id) rsu
    (BAware.nearby_obstacles traci vehicle_id).

Definition baware_duration_of (traci : Traci) (vehicle_id : string) (rsu : RSU) : Z :=
  match BAware.estimate_connection_duration traci vehicle_id rsu 10 1 with
  | Some d => d
  | None => 0%Z
  end.

Definition baware_score_of (traci : Traci) (vehicle_id : string) (rsu : RSU) : R :=
  baware_strength_of traci vehicle_id rsu * IZR (baware_duration_of traci vehicle_id rsu).

Definition baware_distance_at (traci : Traci) (vehicle_id : string) (rsu : RSU) (t : Z) : R :=
  distance_to (BAware.predict_future_position traci vehicle_id (IZR t)) rsu.

Lemma baware_duration_loop_rollout traci vehicle_id rsu step_size ticks : forall duration,
  BAware.duration_loop traci vehicle_id rsu step_size ticks duration =
  rollout (fun t => negb (Rltb 400 (baware_distance_at traci vehicle_id rsu t)))
          step_size ticks duration.
Proof.
  induction ticks as [| t rest IH]; intros duration;
    cbn [BAware.duration_loop rollout]; [reflexivity |].
  cbv zeta. fold (baware_distance_at traci vehicle_id rsu t).
  destruct (Rltb 400 (baware_distance_at traci vehicle_id rsu t)); cbn [negb];
    [reflexivity | apply IH].
Qed.

Lemma baware_estimate_default traci vehicle_id rsu :
  BAware.estimate_connection_duration traci vehicle_id rsu 10 1
  = Some (baware_duration_of traci vehicle_id rsu).
Proof. reflexivity. Qed.

Lemma baware_select_rsu_loop traci vehicle_id rsus :
  BAware.select_rsu traci vehicle_id rsus =
  Some (fold_left (score_step (baware_strength_of traci vehicle_id)
                              (baware_duration_of traci vehicle_id))
                  rsus (Smart.mkVars None 0 None None)).
Proof.
  unfold BAware.select_rsu. cbv zeta. apply fold_left_some.
  intros v rsu. unfold BAware.select_step. rewrite baware_estimate_default.
  cbv zeta. unfold score_step, score_of, baware_strength_of.
  destruct (Rltb _ _); reflexivity.
Qed.

Lemma baware_strength_pos vehicle_pos rsu obstacles :
  0 < BAware.calculate_signal_strength vehicle_pos rsu obstacles <= 1.
Proof.
  rewrite baware_strength_closed.
  pose proof (distance_to_nonneg vehicle_pos rsu) as Hd.
  pose proof (pow_1_5_ge_1 (blocking_count vehicle_pos rsu obstacles)) as Hk.
  destruct (Reqb (distance_to vehicle_pos rsu) 0); [lra |].
  assert (He : 0 <= distance_to vehicle_pos rsu *
                    1.5 ^ blocking_count vehicle_pos rsu obstacles) by nra.
  rewrite Rmax_0_inv_one_plus by assumption.
  split; [apply inv_one_plus_pos | apply inv_one_plus_le_1]; assumption.
Qed.

Lemma baware_duration_of_spec traci vehicle_id rsu :
  (0 <= baware_duration_of traci vehicle_id rsu <= 10)%Z /\
  ((1 <= baware_duration_of traci vehicle_id rsu)%Z <->
   baware_distance_at traci vehicle_id rsu 1 <= 400).
Proof.
  unfold baware_duration_of, BAware.estimate_connection_duration.
  rewrite py_range_step_1, baware_duration_loop_rollout.
  pose proof (rollout_range_spec
                (fun t => negb (Rltb 400 (baware_distance_at traci vehicle_id rsu t))) 10)
    as H.
  cbv zeta in H. change (10 + 1)%Z with 11%Z in *.
  destruct H as (Hb & Hv & Hstop).
  set (d := rollout _ 1 (range2 1 11) 0) in *.
  split; [lia |]. split.
  - intros Hd. specialize (Hv 1%Z ltac:(lia)). cbv beta in Hv.
    apply not_Rltb_le. assumption.
  - intros Hin.
    destruct (Z_lt_le_dec d 1) as [Hlt | Hge]; [| assumption].
    assert (d = 0%Z) by lia.
    specialize (Hstop ltac:(lia)). cbv beta in Hstop. rewrite H in Hstop.
    apply not_Rltb_gt in Hstop.
    change (0 + 1)%Z with 1%Z in Hstop. lra.
Qed.

Lemma baware_score_of_pos traci vehicle_id rsu :
  0 < baware_score_of traci vehicle_id rsu <->
  baware_distance_at traci vehicle_id rsu 1 <= 400.
Proof.
  destruct (baware_duration_of_spec traci vehicle_id rsu) as [Hd Hiff].
  rewrite <- Hiff. unfold baware_score_of.
  pose proof (baware_strength_pos (getPosition traci vehicle_id) rsu
                (BAware.nearby_obstacles traci vehicle_id)) as Hs.
  fold (baware_strength_of traci vehicle_id rsu) in Hs.
  split.
  - intros H. destruct (Z_lt_le_dec (baware_duration_of traci vehicle_id rsu) 1); [| assumption].
    assert (E : baware_duration_of traci vehicle_id rsu = 0%Z) by lia.
    rewrite E in H. lra.
  - intros H. apply IZR_le in H. nra.
Qed.

(** X4.  [run_simulation_b-aware.py] writes a row for a vehicle exactly
    when some RSU is within the range of 400 of the position predicted one
    tick ahead.  The row names the first RSU of the roster with the highest
    score, with that score; its strength and duration are those of the RSU
    the roster ends with. *)
Theorem baware_row_contents : forall traci step vehicle_id rsus,
  let score := baware_score_of traci vehicle_id in
  match BAware.vehicle_row traci step vehicle_id rsus with
  | None => forall rsu, In rsu rsus -> 400 < baware_distance_at traci vehicle_id rsu 1
  | Some row =>
      Smart.row_step row = step /\ Smart.row_vehicle row = vehicle_id /\
      exists before best after front last_rsu,
        rsus = before ++ best :: after /\ rsus = front ++ [last_rsu] /\
        Smart.row_rsu row = rsu_id best /\
        Smart.row_score row = score best /\
        baware_distance_at traci vehicle_id best 1 <= 400 /\
        (forall rsu, In rsu before -> score rsu < score best) /\
        (forall rsu, In rsu after -> score rsu <= score best) /\
        Smart.row_signal row = baware_strength_of traci vehicle_id last_rsu /\
        BAware.estimate_connection_duration traci vehicle_id last_rsu 10 1
        = Some (Smart.row_duration row)
  end.
Proof.
  intros traci step vehicle_id rsus score.
  unfold BAware.vehicle_row. rewrite baware_select_rsu_loop.
  destruct (score_loop_cases (baware_strength_of traci vehicle_id)
              (baware_duration_of traci vehicle_id) rsus)
    as [[Hnone Hle] | (l1 & best & l2 & front & last_rsu & Hl & Hlast & Hv & Hpos & H1 & H2)].
  - destruct (fold_left _ rsus _) as [b s sg cd]. cbn [Smart.best_rsu] in Hnone. subst b.
    intros rsu Hin. specialize (Hle rsu Hin).
    destruct (Rlt_le_dec 400 (baware_distance_at traci vehicle_id rsu 1)) as [| Hd];
      [assumption |].
    apply baware_score_of_pos in Hd. unfold baware_score_of in Hd.
    unfold score_of in Hle. lra.
  - rewrite Hv. cbn [Smart.row_step Smart.row_vehicle Smart.row_rsu Smart.row_score
                     Smart.row_signal Smart.row_duration].
    split; [reflexivity |]. split; [reflexivity |].
    exists l1, best, l2, front, last_rsu.
    split; [assumption |]. split; [assumption |]. split; [reflexivity |].
    split; [reflexivity |]. split; [apply baware_score_of_pos; exact Hpos |].
    split; [assumption |]. split; [assumption |]. split; reflexivity.
Qed.


(** ** The tick loop *)

Lemma range2_unfold start stop :
  range2 start stop =
  if (start <? stop)%Z then start :: range2 (start + 1) stop else [].
Proof.
  unfold range2. destruct (Z.ltb_spec start stop) as [Hlt | Hge].
  - replace (Z.to_nat (stop - start)) with (S (Z.to_nat (stop - (start + 1)))) by lia.
    cbn [seq map]. f_equal; [lia |].
    rewrite <- seq_shift, map_map. apply map_ext. intros i. lia.
  - replace (Z.to_nat (stop - start)) with 0%nat by lia. reflexivity.
Qed.

(** What the log of a tick loop with [break] looks like: the rows are in the
    order of their steps; every row belongs to a step within the budget and
    to a vehicle the simulator listed at that step; and the simulator listed
    some vehicle at every step up to that one. *)
Definition tick_ordered {Row : Type} (row_step : Row -> Z) (row_vehicle : Row -> string)
    (sim : Simulator) (budget : Z) (rows : list Row) : Prop :=
  StronglySorted (fun a b => (row_step a <= row_step b)%Z) rows /\
  forall row, In row rows ->
    (0 <= row_step row < budget)%Z /\
    In (row_vehicle row) (getIDList (sim (row_step row))) /\
    forall k, (0 <= k <= row_step row)%Z -> getIDList (sim k) <> [].

Section TickLoopFacts.
Context {Row : Type}.
Variable vehicle_rows : Traci -> Z -> string -> list Row.
Variables (row_step : Row -> Z) (row_vehicle : Row -> string).
Hypothesis row_keys : forall traci step vehicle_id row,
  In row (vehicle_rows traci step vehicle_id) ->
  row_step row = step /\ row_vehicle row = vehicle_id.

Lemma step_rows_keys traci step row :
  In row (step_rows vehicle_rows traci step) ->
  row_step row = step /\ In (row_vehicle row) (getIDList traci).
Proof.
  unfold step_rows. rewrite in_flat_map. intros (v & Hv & Hin).
  destruct (row_keys _ _ _ _ Hin) as [-> ->]. split; [reflexivity | assumption].
Qed.

Lemma sorted_app_steps (l1 l2 : list Row) (step : Z) :
  (forall row, In row l1 -> row_step row = step) ->
  (forall row, In row l2 -> (step <= row_step row)%Z) ->
  StronglySorted (fun a b => (row_step a <= row_step b)%Z) l2 ->
  StronglySorted (fun a b => (row_step a <= row_step b)%Z) (l1 ++ l2).
Proof.
  intros H1 H2 Hs. induction l1 as [| a l1 IH]; cbn [app]; [assumption |].
  constructor.
  - apply IH. intros row Hin. apply H1. right. assumption.
  - rewrite Forall_forall. intros b Hb.
    rewrite (H1 a (or_introl eq_refl)).
    apply in_app_or in Hb. destruct Hb as [Hb | Hb].
    + rewrite (H1 b) by (right; assumption). lia.
    + apply H2. assumption.
Qed.

Lemma run_until_empty_from (sim : Simulator) (budget : Z) (n : nat) : forall start,
  Z.to_nat (budget - start) = n ->
  (0 <= start)%Z ->
  (forall k, (0 <= k < start)%Z -> getIDList (sim k) <> []) ->
  let rows := run_until_empty vehicle_rows sim (range2 start budget) in
  StronglySorted (fun a b => (row_step a <= row_step b)%Z) rows /\
  forall row, In row rows ->
    (start <= row_step row < budget)%Z /\
    In (row_vehicle row) (getIDList (sim (row_step row))) /\
    forall k, (0 <= k <= row_step row)%Z -> getIDList (sim k) <> [].
Proof.
  induction n as [| n IH]; intros start Hn Hstart Hbefore; cbv zeta;
    rewrite range2_unfold; destruct (Z.ltb_spec start budget) as [Hlt | Hge];
    try lia; cbn [run_until_empty].
  - split; [constructor | intros row []].
  - destruct (getIDList (sim start)) as [| v0 ids] eqn:Hids.
    + split; [constructor | intros row []].
    + assert (Hnow : getIDList (sim start) <> []) by (rewrite Hids; discriminate).
      destruct (IH (start + 1)%Z) as [Hsorted Hrows]; [lia | lia | |].
      { intros k Hk. destruct (Z.eq_dec k start) as [-> | ]; [assumption |].
        apply Hbefore. lia. }
      split.
      * apply sorted_app_steps with (step := start).
        -- intros row Hin. apply step_rows_keys in Hin. tauto.
        -- intros row Hin. apply Hrows in Hin. lia.
        -- assumption.
      * intros row Hin. apply in_app_or in Hin. destruct Hin as [Hin | Hin].
        -- apply step_rows_keys in Hin. destruct Hin as [Hs Hv]. rewrite Hs.
           split; [lia |]. split; [assumption |].
           intros k Hk. destruct (Z.eq_dec k start) as [-> | ]; [assumption |].
           apply Hbefore. lia.
        -- destruct (Hrows row Hin) as (Hb & Hv & Hk).
           split; [lia |]. split; assumption.
Qed.

Lemma run_until_empty_ordered (sim : Simulator) (budget : Z) :
  tick_ordered row_step row_vehicle sim budget
    (run_until_empty vehicle_rows sim (range2 0 budget)).
Proof.
  destruct (run_until_empty_from sim budget (Z.to_nat (budget - 0)) 0%Z eq_refl)
    as [Hs Hr]; [lia | intros k Hk; lia |].
  split; [assumption |]. intros row Hin.
  destruct (Hr row Hin) as (Hb & Hv & Hk). repeat split; try assumption; lia.
Qed.

(** Every vehicle listed at a step the loop reaches gets the rows of its
    body. *)
Lemma run_until_empty_complete (sim : Simulator) (budget : Z) (n : nat) : forall start,
  Z.to_nat (budget - start) = n ->
  forall step vehicle_id row,
    (start <= step < budget)%Z ->
    (forall k, (start <= k <= step)%Z -> getIDList (sim k) <> []) ->
    In vehicle_id (getIDList (sim step)) ->
    In row (vehicle_rows (sim step) step vehicle_id) ->
    In row (run_until_empty vehicle_rows sim (range2 start budget)).
Proof.
  induction n as [| n IH]; intros start Hn step v row Hstep Hrun Hv Hrow;
    rewrite range2_unfold; destruct (Z.ltb_spec start budget) as [Hlt | Hge];
    try lia; cbn [run_until_empty].
  pose proof (Hrun start ltac:(lia)) as Hnow.
  destruct (getIDList (sim start)) as [| v0 ids] eqn:Hids; [congruence |].
  apply in_or_app. destruct (Z.eq_dec step start) as [-> | Hne].
  - left. unfold step_rows. rewrite in_flat_map. exists v. split; assumption.
  - right. apply (IH (start + 1)%Z ltac:(lia) step v row); try assumption; [lia |].
    intros k Hk. apply Hrun. lia.
Qed.

End TickLoopFacts.

Lemma base_row_keys rsus traci step vehicle_id row :
  In row (written (Base.vehicle_row traci step vehicle_id rsus)) ->
  Base.row_step row = step /\ Base.row_vehicle row = vehicle_id.
Proof.
  unfold Base.vehicle_row.
  destruct (Base.select_rsu traci vehicle_id rsus) as [[best |] s]; cbn [written In];
    [| tauto].
  intros [<- | []]. split; reflexivity.
Qed.

Lemma i10base_row_keys rsus traci step vehicle_id row :
  In row (written (I10Base.vehicle_row traci step vehicle_id rsus)) ->
  Base.row_step row = step /\ Base.row_vehicle row = vehicle_id.
Proof.
  unfold I10Base.vehicle_row.
  destruct (I10Base.select_rsu traci vehicle_id rsus) as [[best |] s]; cbn [written In];
    [| tauto].
  intros [<- | []]. split; reflexivity.
Qed.

Lemma chandler_base_row_keys rsus traci step vehicle_id row :
  In row (written (ChandlerBase.vehicle_row traci step vehicle_id rsus)) ->
  Base.row_step row = step /\ Base.row_vehicle row = vehicle_id.
Proof.
  unfold ChandlerBase.vehicle_row.
  destruct (ChandlerBase.select_rsu traci vehicle_id rsus) as [[best |] s];
    cbn [written In]; [| tauto].
  intros [<- | []]. split; reflexivity.
Qed.

Lemma smart_row_keys rsus traci step vehicle_id row :
  In row (written (Smart.vehicle_row traci step vehicle_id rsus)) ->
  Smart.row_step row = step /\ Smart.row_vehicle row = vehicle_id.
Proof.
  unfold Smart.vehicle_row.
  destruct (Smart.select_rsu traci vehicle_id rsus) as [[[b |] s [sg |] [cd |]] |];
    cbn [written In]; try tauto.
  intros [<- | []]. split; reflexivity.
Qed.

Lemma baware_row_keys rsus traci step vehicle_id row :
  In row (written (BAware.vehicle_row traci step vehicle_id rsus)) ->
  Smart.row_step row = step /\ Smart.row_vehicle row = vehicle_id.
Proof.
  unfold BAware.vehicle_row.
  destruct (BAware.select_rsu traci vehicle_id rsus) as [[[b |] s [sg |] [cd |]] |];
    cbn [written In]; try tauto.
  intros [<- | []]. split; reflexivity.
Qed.

(** X5.  In the five scripts whose tick loop has the [break], the rows of
    the log are in the order of their steps; every row carries a step below
    the budget (500 or 100) and a vehicle the simulator listed at that step;
    and no row is written at or after the first step at which the simulator
    lists no vehicle. *)
Theorem log_is_tick_ordered : forall sim rsus,
  tick_ordered Base.row_step Base.row_vehicle sim 500 (Base.run_simulation sim rsus) /\
  tick_ordered Smart.row_step Smart.row_vehicle sim 500 (Smart.run_simulation sim rsus) /\
  tick_ordered Smart.row_step Smart.row_vehicle sim 500 (BAware.run_simulation sim rsus) /\
  tick_ordered Base.row_step Base.row_vehicle sim 100 (I10Base.run_simulation sim rsus) /\
  tick_ordered Base.row_step Base.row_vehicle sim 100
    (ChandlerBase.run_simulation sim rsus).
Proof.
  intros sim rsus.
  split; [| split; [| split; [| split]]]; apply run_until_empty_ordered.
  - apply base_row_keys.
  - apply smart_row_keys.
  - apply baware_row_keys.
  - apply i10base_row_keys.
  - apply chandler_base_row_keys.
Qed.


(** ** [run_simulation_base.py]: one row for every listed vehicle *)

Lemma base_strength_le_1 traci vehicle_pos rsu vehicle_id :
  Base.calculate_signal_strength traci vehicle_pos rsu vehicle_id <= 1.
Proof.
  rewrite base_strength_spec.
  apply spec_strength_le_1; [apply distance_to_nonneg | lra].
Qed.

(** X6.  With a non-empty roster, [run_simulation_base.py] logs every
    vehicle the simulator lists at every step it reaches (a step below 500
    up to which the simulator always listed some vehicle): the row names an
    RSU of the roster together with the strength computed for that RSU,
    which lies in (0, 1] and is the highest of the roster. *)
Theorem base_logs_every_listed_vehicle : forall sim rsus step vehicle_id,
  rsus <> [] ->
  (0 <= step < 500)%Z ->
  (forall k, (0 <= k <= step)%Z -> getIDList (sim k) <> []) ->
  In vehicle_id (getIDList (sim step)) ->
  let strength :=
    fun rsu => Base.calculate_signal_strength (sim step)
                 (getPosition (sim step) vehicle_id) rsu vehicle_id in
  exists best,
    In best rsus /\
    In (Base.mkRow step vehicle_id (rsu_id best) (strength best))
       (Base.run_simulation sim rsus) /\
    0 < strength best <= 1 /\
    forall rsu, In rsu rsus -> strength rsu <= strength best.
Proof.
  intros sim rsus step vehicle_id Hne Hstep Hrun Hin strength.
  assert (Hsel : exists best,
    In best rsus /\
    Base.select_rsu (sim step) vehicle_id rsus = (Some best, strength best) /\
    forall rsu, In rsu rsus -> strength rsu <= strength best).
  { unfold Base.select_rsu. cbv zeta.
    change (Base.select_step (sim step) (getPosition (sim step) vehicle_id) vehicle_id)
      with (pick RSU strength).
    destruct (fold_pick_spec RSU strength rsus None 0)
      as [[Heq Hle] | (l1 & x & l2 & Hl & Heq & Hlt & H1 & H2)].
    - destruct rsus as [| r rest]; [congruence |].
      exfalso. specialize (Hle r (or_introl eq_refl)).
      pose proof (base_strength_pos (sim step) (getPosition (sim step) vehicle_id)
                    r vehicle_id).
      unfold strength in Hle. lra.
    - exists x. split; [subst rsus; apply in_or_app; right; left; reflexivity |].
      split; [assumption |].
      intros rsu Hr. subst rsus. apply in_app_or in Hr.
      destruct Hr as [Hr | [<- | Hr]].
      + specialize (H1 rsu Hr). lra.
      + lra.
      + apply H2. assumption. }
  destruct Hsel as (best & Hbest & Hsel & Hmax).
  exists best. split; [assumption |]. split; [| split; [| assumption]].
  - unfold Base.run_simulation.
    apply (run_until_empty_complete _ sim 500 (Z.to_nat (500 - 0)) 0%Z eq_refl
             step vehicle_id); try assumption.
    unfold Base.vehicle_row. rewrite Hsel. left. reflexivity.
  - split; [apply base_strength_pos | apply base_strength_le_1].
Qed.

Lemma base_logs_every_listed_vehicle_witness :
  exists best,
    In best [rsu_at_100] /\
    In (Base.mkRow 0 "veh0" (rsu_id best)
          (Base.calculate_signal_strength lone_traci (getPosition lone_traci "veh0")
             best "veh0"))
       (Base.run_simulation (fun _ => lone_traci) [rsu_at_100]) /\
    0 < Base.calculate_signal_strength lone_traci (getPosition lone_traci "veh0")
          best "veh0" <= 1 /\
    forall rsu, In rsu [rsu_at_100] ->
      Base.calculate_signal_strength lone_traci (getPosition lone_traci "veh0") rsu "veh0"
      <= Base.calculate_signal_strength lone_traci (getPosition lone_traci "veh0")
           best "veh0".
Proof.
  apply (base_logs_every_listed_vehicle (fun _ => lone_traci) [rsu_at_100] 0 "veh0").
  - discriminate.
  - lia.
  - intros k _. discriminate.
  - left. reflexivity.
Defined.

(** ** [run_i10west_simulation_base.py]: the nearest RSU wins *)

Lemma spec_strength_strict d1 d2 b k :
  0 <= d1 -> d1 < d2 -> 1 <= k -> spec_strength d2 b k < spec_strength d1 b k.
Proof.
  intros H1 H12 Hk. unfold spec_strength.
  rewrite (Reqb_false d2 0) by lra. cbv zeta.
  assert (Hm : 1 <= (if b then k else 1)) by (destruct b; lra).
  rewrite Rmax_0_inv_one_plus by nra.
  destruct (Reqb d1 0) eqn:E1.
  - apply Rlt_le_trans with (1 / (1 + 0)); [| rewrite Rplus_0_r; lra].
    apply inv_one_plus_strict; nra.
  - assert (d1 <> 0) by (intros H0; apply Reqb_true in H0; congruence).
    rewrite Rmax_0_inv_one_plus by nra.
    apply inv_one_plus_strict; nra.
Qed.

Lemma i10base_self_blocks traci rsu vehicle_id obstacles :
  In vehicle_id obstacles ->
  I10Base.check_obstacle_ids traci (getPosition traci vehicle_id) rsu obstacles = true.
Proof.
  induction obstacles as [| o rest IH]; cbn [In I10Base.check_obstacle_ids]; [tauto |].
  intros [-> | Hin].
  - rewrite in_los_box_self. reflexivity.
  - rewrite (IH Hin). destruct (in_los_box _ _ _); reflexivity.
Qed.

Lemma i10base_strength_spec traci vehicle_pos rsu :
  I10Base.calculate_signal_strength traci vehicle_pos rsu =
  spec_strength (distance_to vehicle_pos rsu)
                (I10Base.check_for_obstacles traci vehicle_pos rsu) 5.
Proof.
  unfold I10Base.calculate_signal_strength, spec_strength. cbv zeta.
  destruct (Reqb (distance_to vehicle_pos rsu) 0); [reflexivity |].
  destruct (I10Base.check_for_obstacles traci vehicle_pos rsu); [reflexivity |].
  rewrite Rmult_1_r. reflexivity.
Qed.

(** The first maximum of a strictly decreasing function of the distance is
    the first minimum of the distance. *)
Lemma first_max_is_first_nearest (g : R -> R) (d : RSU -> R) (before after : list RSU)
    (best : RSU) :
  (forall a b, 0 <= a -> a < b -> g b < g a) ->
  (forall rsu, 0 <= d rsu) ->
  (forall rsu, In rsu before -> g (d rsu) < g (d best)) ->
  (forall rsu, In rsu after -> g (d rsu) <= g (d best)) ->
  (forall rsu, In rsu before -> d best < d rsu) /\
  (forall rsu, In rsu after -> d best <= d rsu).
Proof.
  intros Hg Hd H1 H2. split; intros rsu Hin.
  - specialize (H1 rsu Hin).
    destruct (Rlt_le_dec (d best) (d rsu)) as [| Hle]; [assumption |].
    destruct Hle as [Hlt | Heq].
    + pose proof (Hg (d rsu) (d best) (Hd rsu) Hlt). lra.
    + rewrite Heq in H1. lra.
  - specialize (H2 rsu Hin).
    destruct (Rle_lt_dec (d best) (d rsu)) as [| Hlt]; [assumption |].
    pose proof (Hg (d rsu) (d best) (Hd rsu) Hlt). lra.
Qed.

(** X7.  In [run_i10west_simulation_base.py] the obstacle test does not
    skip the subject vehicle, and the strength is evaluated at the vehicle's
    own position: for every vehicle the simulator lists, every link is
    reported blocked, the strength is the blocked value for every RSU, and
    the selection returns the first RSU of the roster at the smallest
    distance. *)
Theorem i10_base_selects_nearest : forall traci vehicle_id rsus,
  In vehicle_id (getIDList traci) ->
  let distance := distance_to (getPosition traci vehicle_id) in
  (forall rsu,
      I10Base.check_for_obstacles traci (getPosition traci vehicle_id) rsu = true /\
      I10Base.calculate_signal_strength traci (getPosition traci vehicle_id) rsu
      = spec_strength (distance rsu) true 5) /\
  match I10Base.select_rsu traci vehicle_id rsus with
  | (None, _) => rsus = []
  | (Some best_rsu, best_signal) =>
      best_signal = spec_strength (distance best_rsu) true 5 /\
      exists before after,
        rsus = before ++ best_rsu :: after /\
        (forall rsu, In rsu before -> distance best_rsu < distance rsu) /\
        (forall rsu, In rsu after -> distance best_rsu <= distance rsu)
  end.
Proof.
  intros traci vehicle_id rsus Hin distance.
  assert (Hblocked : forall rsu,
    I10Base.check_for_obstacles traci (getPosition traci vehicle_id) rsu = true).
  { intros rsu. apply i10base_self_blocks. assumption. }
  assert (Hstrength : forall rsu,
    I10Base.calculate_signal_strength traci (getPosition traci vehicle_id) rsu
    = spec_strength (distance rsu) true 5).
  { intros rsu. rewrite i10base_strength_spec, Hblocked. reflexivity. }
  split; [intros rsu; split; [apply Hblocked | apply Hstrength] |].
  unfold I10Base.select_rsu. cbv zeta.
  change (I10Base.select_step traci (getPosition traci vehicle_id))
    with (pick RSU (I10Base.calculate_signal_strength traci
                      (getPosition traci vehicle_id))).
  destruct (fold_pick_spec RSU
              (I10Base.calculate_signal_strength traci (getPosition traci vehicle_id))
              rsus None 0)
    as [[Heq Hle] | (l1 & x & l2 & Hl & Heq & Hlt & H1 & H2)]; rewrite Heq.
  - destruct rsus as [| r rest]; [reflexivity |].
    exfalso. specialize (Hle r (or_introl eq_refl)). rewrite Hstrength in Hle.
    pose proof (spec_strength_pos (distance r) true 5
                  (distance_to_nonneg _ _) ltac:(lra)).
    lra.
  - split; [apply Hstrength |].
    exists l1, l2. split; [assumption |].
    apply (first_max_is_first_nearest (fun d => spec_strength d true 5) distance).
    + intros a b Ha Hab. apply spec_strength_strict; lra.
    + intros rsu. apply distance_to_nonneg.
    + intros rsu Hr. rewrite <- !Hstrength. apply H1. assumption.
    + intros rsu Hr. rewrite <- !Hstrength. apply H2. assumption.
Qed.

Lemma i10_base_selects_nearest_witness :
  (forall rsu,
      I10Base.check_for_obstacles lone_traci (getPosition lone_traci "veh0") rsu = true /\
      I10Base.calculate_signal_strength lone_traci (getPosition lone_traci "veh0") rsu
      = spec_strength (distance_to (getPosition lone_traci "veh0") rsu) true 5) /\
  match I10Base.select_rsu lone_traci "veh0" [rsu_at_100] with
  | (None, _) => [rsu_at_100] = []
  | (Some best_rsu, best_signal) =>
      best_signal
      = spec_strength (distance_to (getPosition lone_traci "veh0") best_rsu) true 5 /\
      exists before after,
        [rsu_at_100] = before ++ best_rsu :: after /\
        (forall rsu, In rsu before ->
           distance_to (getPosition lone_traci "veh0") best_rsu
           < distance_to (getPosition lone_traci "veh0") rsu) /\
        (forall rsu, In rsu after ->
           distance_to (getPosition lone_traci "veh0") best_rsu
           <= distance_to (getPosition lone_traci "veh0") rsu)
  end.
Proof.
  apply (i10_base_selects_nearest lone_traci "veh0" [rsu_at_100]).
  left. reflexivity.
Defined.

(** ** [run_chandleraz_simulation_base.py]: the widened box *)

Lemma widened_box_contains_box vehicle_pos rsu obstacle_pos obstacle_length obstacle_width :
  0 <= obstacle_length -> 0 <= obstacle_width ->
  in_los_box vehicle_pos rsu obstacle_pos = true ->
  ChandlerBase.in_widened_box vehicle_pos rsu obstacle_pos obstacle_length obstacle_width
  = true.
Proof.
  intros Hl Hw. unfold in_los_box, ChandlerBase.in_widened_box.
  rewrite !andb_true_iff, !Rleb_iff. lra.
Qed.

Lemma chandler_base_strength_spec traci vehicle_pos rsu :
  ChandlerBase.calculate_signal_strength traci vehicle_pos rsu =
  spec_strength (distance_to vehicle_pos rsu)
                (ChandlerBase.check_for_obstacles traci vehicle_pos rsu) 5.
Proof.
  unfold ChandlerBase.calculate_signal_strength, spec_strength. cbv zeta.
  destruct (Reqb (distance_to vehicle_pos rsu) 0); [reflexivity |].
  destruct (ChandlerBase.check_for_obstacles traci vehicle_pos rsu); [reflexivity |].
  rewrite Rmult_1_r. reflexivity.
Qed.

Lemma chandler_base_blocked_by traci vehicle_pos rsu obstacle_id obstacles :
  In obstacle_id obstacles ->
  ChandlerBase.in_widened_box vehicle_pos rsu (getPosition traci obstacle_id)
    (getLength traci obstacle_id) (getWidth traci obstacle_id) = true ->
  ChandlerBase.check_obstacle_ids traci vehicle_pos rsu obstacles = true.
Proof.
  induction obstacles as [| o rest IH]; cbn [In ChandlerBase.check_obstacle_ids]; [tauto |].
  cbv zeta. intros [-> | Hin] Hbox.
  - rewrite Hbox. reflexivity.
  - rewrite (IH Hin Hbox).
    destruct (ChandlerBase.in_widened_box vehicle_pos rsu (getPosition traci o)
                (getLength traci o) (getWidth traci o)); reflexivity.
Qed.

Lemma chandler_base_blocked_inv traci vehicle_pos rsu obstacles :
  ChandlerBase.check_obstacle_ids traci vehicle_pos rsu obstacles = true ->
  exists obstacle_id,
    In obstacle_id obstacles /\
    ChandlerBase.in_widened_box vehicle_pos rsu (getPosition traci obstacle_id)
      (getLength traci obstacle_id) (getWidth traci obstacle_id) = true.
Proof.
  induction obstacles as [| o rest IH]; cbn [ChandlerBase.check_obstacle_ids];
    [discriminate |].
  cbv zeta.
  destruct (ChandlerBase.in_widened_box vehicle_pos rsu (getPosition traci o)
              (getLength traci o) (getWidth traci o)) eqn:E.
  - intros _. exists o. split; [left; reflexivity | assumption].
  - intros H. destruct (IH H) as (x & Hin & Hx). exists x. split; [right |]; assumption.
Qed.

(** X8.  The obstacle test of [run_chandleraz_simulation_base.py] reports
    an obstruction exactly when some listed vehicle lies in the box widened
    by that vehicle's length and width.  The box is widened on the side of
    the larger coordinates only: an obstacle below the smaller coordinate
    never counts, whatever its dimensions.  A listed vehicle whose length
    and width are not negative obstructs every link from its own position,
    so its strength is the blocked value for every RSU. *)
Theorem chandler_base_widened_box : forall traci vehicle_pos rsu,
  (ChandlerBase.check_for_obstacles traci vehicle_pos rsu = true <->
   exists obstacle_id,
     In obstacle_id (getIDList traci) /\
     ChandlerBase.in_widened_box vehicle_pos rsu (getPosition traci obstacle_id)
       (getLength traci obstacle_id) (getWidth traci obstacle_id) = true) /\
  (forall obstacle_pos obstacle_length obstacle_width,
      fst obstacle_pos < Rmin (fst vehicle_pos) (rsu_x rsu) \/
      snd obstacle_pos < Rmin (snd vehicle_pos) (rsu_y rsu) ->
      ChandlerBase.in_widened_box vehicle_pos rsu obstacle_pos
        obstacle_length obstacle_width = false) /\
  (forall vehicle_id,
      In vehicle_id (getIDList traci) ->
      0 <= getLength traci vehicle_id -> 0 <= getWidth traci vehicle_id ->
      ChandlerBase.check_for_obstacles traci (getPosition traci vehicle_id) rsu = true /\
      ChandlerBase.calculate_signal_strength traci (getPosition traci vehicle_id) rsu
      = spec_strength (distance_to (getPosition traci vehicle_id) rsu) true 5).
Proof.
  intros traci vehicle_pos rsu. split; [| split].
  - split.
    + apply chandler_base_blocked_inv.
    + intros (o & Hin & Hbox). apply (chandler_base_blocked_by _ _ _ o); assumption.
  - intros o l w Hlow. unfold ChandlerBase.in_widened_box.
    destruct Hlow as [Hx | Hy].
    + rewrite (Rleb_false _ (fst o)) by assumption. reflexivity.
    + rewrite (Rleb_false _ (snd o)) by assumption.
      rewrite andb_false_r. reflexivity.
  - intros v Hin Hl Hw.
    assert (Hb : ChandlerBase.check_for_obstacles traci (getPosition traci v) rsu = true).
    { apply (chandler_base_blocked_by _ _ _ v); [assumption |].
      apply widened_box_contains_box; [assumption | assumption |].
      apply in_los_box_self. }
    split; [assumption |].
    rewrite chandler_base_strength_spec, Hb. reflexivity.
Qed.

(** The lone vehicle of [lone_traci], 5 long and 2 wide, obstructs its own
    link to the RSU at (100,0). *)
Lemma chandler_base_widened_box_witness :
  ChandlerBase.check_for_obstacles lone_traci (getPosition lone_traci "veh0") rsu_at_100
  = true /\
  ChandlerBase.calculate_signal_strength lone_traci (getPosition lone_traci "veh0")
    rsu_at_100
  = spec_strength (distance_to (getPosition lone_traci "veh0") rsu_at_100) true 5.
Proof.
  apply (proj2 (proj2 (chandler_base_widened_box lone_traci (0, 0) rsu_at_100))
               "veh0"%string).
  - left. reflexivity.
  - change (getLength lone_traci "veh0") with 5. lra.
  - change (getWidth lone_traci "veh0") with 2. lra.
Defined.


(** ** [construct_dag]: what the graph is made of *)

Lemma add_edges_nodes node w last_nodes : forall G n,
  In n (nodes (fold_left (fun G last_node => add_edge G last_node node w) last_nodes G)) ->
  In n (nodes G) \/ n = node \/ In n last_nodes.
Proof.
  induction last_nodes as [| m rest IH]; intros G n; cbn [fold_left]; [auto |].
  intros H. apply IH in H. destruct H as [H | [H | H]]; [| auto | right; right; right; exact H].
  unfold add_edge, add_node in H. cbn [nodes edges] in H.
  apply set_add_spec in H. destruct H as [-> | H]; [auto |].
  apply set_add_spec in H. destruct H as [-> | H]; [| auto].
  right. right. left. reflexivity.
Qed.

Lemma add_edges_edges node w last_nodes : forall G e,
  In e (edges (fold_left (fun G last_node => add_edge G last_node node w) last_nodes G)) ->
  In e (edges G) \/ exists n, In n last_nodes /\ e = (n, node, w).
Proof.
  induction last_nodes as [| m rest IH]; intros G e; cbn [fold_left]; [auto |].
  intros H. apply IH in H. destruct H as [H | (n & Hn & ->)].
  - unfold add_edge, add_node in H. cbn [nodes edges] in H.
    apply set_weight_in in H. destruct H as [-> | H]; [| auto].
    right. exists m. split; [left; reflexivity | reflexivity].
  - right. exists n. split; [right; assumption | reflexivity].
Qed.

Section DagStructure.
Variables (traci : Traci) (vehicle_id : string) (rsus : list RSU) (timestep : R).
Variable ticks : list Z.

(** The node of an RSU of the roster that is within range at one of the
    ticks, and an edge into such a node, weighted by the negated quality of
    that RSU at that tick. *)
Definition rsu_node_of (n : Node) : Prop :=
  exists rsu t,
    In rsu rsus /\ In t ticks /\ n = (rsu_name (rsu_id rsu), t) /\
    dag_distance_at traci vehicle_id timestep rsu t <= 400.

Definition rsu_edge_of (e : Node * Node * R) : Prop :=
  exists rsu t,
    In rsu rsus /\ In t ticks /\ snd (fst e) = (rsu_name (rsu_id rsu), t) /\
    dag_distance_at traci vehicle_id timestep rsu t <= 400 /\
    snd e = - (1 / (1 + dag_distance_at traci vehicle_id timestep rsu t)).

Definition built_from (st : DiGraph * list Node) : Prop :=
  (forall n, In n (nodes (fst st)) -> n = ChandlerBAware.start_node \/ rsu_node_of n)
  /\ (forall e, In e (edges (fst st)) -> rsu_edge_of e)
  /\ (forall n, In n (snd st) -> n = ChandlerBAware.start_node \/ rsu_node_of n).

Lemma rsu_step_built t last_nodes st rsu :
  In rsu rsus -> In t ticks ->
  (forall n, In n last_nodes -> n = ChandlerBAware.start_node \/ rsu_node_of n) ->
  built_from st ->
  built_from
    (ChandlerBAware.rsu_step
       (ChandlerBAware.predict_future_position traci vehicle_id (IZR t * timestep))
       t last_nodes st rsu).
Proof.
  intros Hrsu Ht Hlast Hb. destruct st as [G current]. unfold ChandlerBAware.rsu_step.
  fold (dag_distance_at traci vehicle_id timestep rsu t).
  destruct (Rleb (dag_distance_at traci vehicle_id timestep rsu t) 400) eqn:E;
    [| exact Hb].
  apply Rleb_iff in E. cbv zeta.
  destruct Hb as (Hn & He & Hc). cbn [fst snd] in *.
  assert (Hnode : rsu_node_of (rsu_name (rsu_id rsu), t))
    by (exists rsu, t; repeat split; assumption).
  unfold built_from. cbn [fst snd]. split; [| split].
  - intros n H. apply add_edges_nodes in H. destruct H as [H | [-> | H]].
    + unfold add_node in H. cbn [nodes] in H. apply set_add_spec in H.
      destruct H as [-> | H]; [right; assumption | apply Hn; assumption].
    + right. assumption.
    + apply Hlast. assumption.
  - intros e H. apply add_edges_edges in H. destruct H as [H | (n & _ & ->)].
    + apply He. exact H.
    + exists rsu, t. cbn [fst snd]. repeat split; assumption.
  - intros n H. apply set_add_spec in H.
    destruct H as [-> | H]; [right; assumption | apply Hc; assumption].
Qed.

Lemma rsu_steps_built t last_nodes rs : forall st,
  (forall rsu, In rsu rs -> In rsu rsus) -> In t ticks ->
  (forall n, In n last_nodes -> n = ChandlerBAware.start_node \/ rsu_node_of n) ->
  built_from st ->
  built_from
    (fold_left
       (ChandlerBAware.rsu_step
          (ChandlerBAware.predict_future_position traci vehicle_id (IZR t * timestep))
          t last_nodes) rs st).
Proof.
  induction rs as [| rsu rest IH]; intros st Hrs Ht Hlast Hb; cbn [fold_left];
    [assumption |].
  apply IH; try assumption.
  - intros r Hr. apply Hrs. right. assumption.
  - apply rsu_step_built; try assumption. apply Hrs. left. reflexivity.
Qed.

Lemma tick_step_built st t :
  In t ticks -> built_from st ->
  built_from (ChandlerBAware.tick_step traci vehicle_id rsus timestep st t).
Proof.
  intros Ht Hb. destruct st as [G last_nodes]. unfold ChandlerBAware.tick_step.
  cbv zeta. destruct Hb as (Hn & He & Hl). cbn [fst snd] in *.
  pose proof (rsu_steps_built t last_nodes rsus (G, []) (fun _ H => H) Ht Hl) as H.
  destruct (fold_left _ rsus (G, [])) as [G' current].
  destruct H as (Hn' & He' & Hc').
  { unfold built_from. cbn [fst snd]. split; [exact Hn |]. split; [exact He |].
    intros n []. }
  cbn [fst snd] in *. unfold built_from. cbn [fst snd].
  split; [exact Hn' |]. split; [exact He' |].
  destruct current as [| c rest]; [exact Hl | exact Hc'].
Qed.

Lemma ticks_built ts : forall st,
  (forall t, In t ts -> In t ticks) -> built_from st ->
  built_from (fold_left (ChandlerBAware.tick_step traci vehicle_id rsus timestep) ts st).
Proof.
  induction ts as [| t rest IH]; intros st Hts Hb; cbn [fold_left]; [assumption |].
  apply IH.
  - intros t' Ht'. apply Hts. right. assumption.
  - apply tick_step_built; [apply Hts; left; reflexivity | assumption].
Qed.

End DagStructure.

(** A walk of a ranked graph either has no edge or ends at a higher rank. *)
Lemma ranked_walk_rank G s x p c :
  ranked G -> walk G s x p c -> (x = s /\ p = [s]) \/ (rank_of s < rank_of x)%Z.
Proof.
  intros [_ Hedges] H. induction H as [| v x w p c H IH _ He].
  - left. split; reflexivity.
  - right. destruct (Hedges v x w He) as [Hlt _].
    destruct IH as [[-> _] | IH]; lia.
Qed.

(** The node [n] of an RSU of the roster within range at a tick of
    1..horizon, [w] being minus the quality of that RSU at that tick. *)
Definition covered_node (traci : Traci) (vehicle_id : string) (rsus : list RSU)
    (horizon : Z) (timestep : R) (n : Node) (w : R) : Prop :=
  exists rsu t,
    In rsu rsus /\ (1 <= t <= horizon)%Z /\ n = (rsu_name (rsu_id rsu), t) /\
    dag_distance_at traci vehicle_id timestep rsu t <= 400 /\
    w = - (1 / (1 + dag_distance_at traci vehicle_id timestep rsu t)).

Lemma dag_graph_built traci vehicle_id rsus horizon timestep :
  let G := ChandlerBAware.dag_graph traci vehicle_id rsus horizon timestep in
  let end_node := (end_name, (horizon + 1)%Z) in
  (forall n, In n (nodes G) ->
     n = ChandlerBAware.start_node \/ n = end_node \/
     exists w, covered_node traci vehicle_id rsus horizon timestep n w) /\
  (forall u x w, In (u, x, w) (edges G) ->
     (x = end_node /\ w = 0) \/ covered_node traci vehicle_id rsus horizon timestep x w).
Proof.
  intros G end_node.
  assert (Hcov : forall n,
    rsu_node_of traci vehicle_id rsus timestep (range2 1 (horizon + 1)) n ->
    exists w, covered_node traci vehicle_id rsus horizon timestep n w).
  { intros n (rsu & t & Hr & Ht & -> & Hd). eexists. exists rsu, t.
    apply range2_in in Ht. repeat split; try assumption; lia. }
  assert (Hecov : forall u x w,
    rsu_edge_of traci vehicle_id rsus timestep (range2 1 (horizon + 1)) (u, x, w) ->
    covered_node traci vehicle_id rsus horizon timestep x w).
  { intros u x w (rsu & t & Hr & Ht & Hx & Hd & Hw). cbn [fst snd] in Hx, Hw.
    exists rsu, t. apply range2_in in Ht. repeat split; try assumption; lia. }
  unfold G, ChandlerBAware.dag_graph, ChandlerBAware.after_ticks.
  pose proof (ticks_built traci vehicle_id rsus timestep (range2 1 (horizon + 1))
                (range2 1 (horizon + 1))
                (add_node empty_graph ChandlerBAware.start_node,
                 [ChandlerBAware.start_node]) (fun _ H => H)) as Hb.
  destruct (fold_left _ (range2 1 (horizon + 1)) _) as [G0 last_nodes].
  destruct Hb as (Hn & He & Hl).
  { unfold built_from. cbn [fst snd add_node empty_graph nodes edges].
    change (set_add ChandlerBAware.start_node []) with [ChandlerBAware.start_node].
    split; [intros n [<- | []]; left; reflexivity |].
    split; [intros e [] | intros n [<- | []]; left; reflexivity]. }
  cbn [fst snd] in *. cbv zeta. fold end_node. split.
  - intros n H. apply add_edges_nodes in H. destruct H as [H | [-> | H]].
    + unfold add_node in H. cbn [nodes] in H. apply set_add_spec in H.
      destruct H as [-> | H]; [right; left; reflexivity |].
      destruct (Hn n H) as [-> | Hrn]; [left; reflexivity |].
      right. right. apply Hcov. assumption.
    + right. left. reflexivity.
    + destruct (Hl n H) as [-> | Hrn]; [left; reflexivity |].
      right. right. apply Hcov. assumption.
  - intros u x w H. apply add_edges_edges in H. destruct H as [H | (n & _ & Heq)].
    + right. apply (Hecov u). apply He. exact H.
    + left. inversion Heq. split; reflexivity.
Qed.

(** X9.  The graph [construct_dag] builds, for every vehicle, roster,
    horizon and time step.  Its nodes are the start node, the end node and
    one node per RSU identity and tick 1..horizon at which an RSU of the
    roster is predicted within 400.  Every edge joins two nodes of the graph
    and leads to a later tick (for the end node: [max 1 (horizon+1)]); an
    edge into the end node weighs 0, an edge into an RSU node weighs minus
    the quality [1/(1+distance)] of a roster RSU of that identity within
    range at that tick, so every weight lies in [-1, 0].  The graph has no
    cycle, and the end node can be reached from the start node. *)
Theorem dag_graph_structure : forall traci vehicle_id rsus horizon timestep,
  let G := ChandlerBAware.dag_graph traci vehicle_id rsus horizon timestep in
  let end_node := (end_name, (horizon + 1)%Z) in
  let covered := covered_node traci vehicle_id rsus horizon timestep in
  (forall n, In n (nodes G) ->
     n = ChandlerBAware.start_node \/ n = end_node \/ exists w, covered n w) /\
  (forall u x w, In (u, x, w) (edges G) ->
     In u (nodes G) /\ In x (nodes G) /\ (rank_of u < rank_of x)%Z /\
     ((x = end_node /\ w = 0) \/ covered x w) /\ -1 <= w <= 0) /\
  (forall n p c, walk G n n p c -> p = [n]) /\
  reachable G end_node.
Proof.
  intros traci vehicle_id rsus horizon timestep G end_node covered.
  destruct (dag_graph_ranked traci vehicle_id rsus horizon timestep) as [Hranked Hreach].
  fold G in Hranked, Hreach. fold end_node in Hreach.
  destruct (dag_graph_built traci vehicle_id rsus horizon timestep) as [Hnodes Hedges].
  fold G in Hnodes, Hedges. fold end_node in Hnodes, Hedges. fold covered in Hnodes, Hedges.
  split; [exact Hnodes |]. split; [| split; [| exact Hreach]].
  - intros u x w Hin. destruct Hranked as [_ Hr].
    destruct (Hr u x w Hin) as (Hlt & Hu & Hx).
    split; [assumption |]. split; [assumption |]. split; [assumption |].
    destruct (Hedges u x w Hin) as [[Hxe Hw] | Hc].
    + split; [left; split; assumption | lra].
    + split; [right; exact Hc |].
      destruct Hc as (rsu & t & _ & _ & _ & _ & ->).
      pose proof (distance_to_nonneg
                    (ChandlerBAware.predict_future_position traci vehicle_id
                       (IZR t * timestep)) rsu) as Hd.
      fold (dag_distance_at traci vehicle_id timestep rsu t) in Hd.
      pose proof (inv_one_plus_pos _ Hd). pose proof (inv_one_plus_le_1 _ Hd). lra.
  - intros n p c Hw.
    destruct (ranked_walk_rank G n n p c Hranked Hw) as [[_ Heq] | Hlt]; [exact Heq | lia].
Qed.


(** ** [construct_dag]: a path has one node for every tick with coverage *)

(** Some RSU of the roster is predicted within range at tick [t]. *)
Definition covered_at (traci : Traci) (vehicle_id : string) (rsus : list RSU)
    (timestep : R) (t : Z) : bool :=
  existsb (fun rsu => Rleb (dag_distance_at traci vehicle_id timestep rsu t) 400) rsus.

(** [a] is followed by [b] in the list [L]. *)
Definition consecutive (L : list Z) (a b : Z) : Prop :=
  exists L1 L2, L = L1 ++ a :: b :: L2.

Lemma consecutive_app L L' a b : consecutive L a b -> consecutive (L ++ L') a b.
Proof.
  intros (L1 & L2 & ->). exists L1, (L2 ++ L'). rewrite <- app_assoc. reflexivity.
Qed.

Lemma nodup_split_unique {A : Type} (a : A) (l1 : list A) : forall l2 l1' l2',
  NoDup (l1 ++ a :: l2) -> l1 ++ a :: l2 = l1' ++ a :: l2' -> l1 = l1' /\ l2 = l2'.
Proof.
  induction l1 as [| b l1 IH]; intros l2 l1' l2' Hnd Heq; destruct l1' as [| b' l1'];
    cbn [app] in *.
  - inversion Heq. split; reflexivity.
  - exfalso. inversion Heq; subst. inversion Hnd as [| ? ? Hnotin _]; subst.
    apply Hnotin. apply in_or_app. right. left. reflexivity.
  - exfalso. inversion Heq; subst. inversion Hnd as [| ? ? Hnotin _]; subst.
    apply Hnotin. apply in_or_app. right. left. reflexivity.
  - inversion Heq; subst. inversion Hnd; subst.
    destruct (IH l2 l1' l2') as [-> ->]; [assumption | assumption |].
    split; reflexivity.
Qed.

Lemma sorted_lt_nodup (l : list Z) : StronglySorted Z.lt l -> NoDup l.
Proof.
  induction 1 as [| a l Hs IH Hall]; constructor; [| assumption].
  rewrite Forall_forall in Hall. intros Hin. specialize (Hall a Hin). lia.
Qed.

Lemma sorted_filter (f : Z -> bool) (l : list Z) :
  StronglySorted Z.lt l -> StronglySorted Z.lt (filter f l).
Proof.
  induction 1 as [| a l Hs IH Hall]; cbn [filter]; [constructor |].
  destruct (f a); [| assumption].
  constructor; [assumption |].
  rewrite Forall_forall in *. intros x Hx. apply filter_In in Hx. apply Hall. tauto.
Qed.

(** In a graph whose edges join consecutive ticks of a duplicate-free list
    [L], a walk from a node at the head of [L] visits a prefix of [L]. *)
Lemma walk_follows_ticks (G : DiGraph) (L : list Z) (s : Node) :
  NoDup L ->
  (forall u x w, In (u, x, w) (edges G) -> consecutive L (snd u) (snd x)) ->
  (exists rest, L = snd s :: rest) ->
  forall x p c, walk G s x p c ->
    exists q rest, map snd p = q ++ [snd x] /\ L = q ++ snd x :: rest.
Proof.
  intros Hnd Hedges [rest0 Hhead] x p c H.
  induction H as [| v x w p c H IH _ He].
  - exists [], rest0. split; [reflexivity | assumption].
  - destruct IH as (q & rest & Hp & HL).
    destruct (Hedges v x w He) as (L1 & L2 & HL').
    assert (Hsplit : q = L1 /\ rest = snd x :: L2).
    { apply (nodup_split_unique (snd v)); [rewrite <- HL; assumption | congruence]. }
    destruct Hsplit as [-> ->].
    exists (L1 ++ [snd v]), L2. split.
    + rewrite map_app. cbn [map]. f_equal. exact Hp.
    + rewrite <- app_assoc. exact HL.
Qed.

Section Gapless.
Variables (traci : Traci) (vehicle_id : string) (rsus : list RSU) (timestep : R).

(** Between two ticks: the nodes of the live set are at the last tick of
    [0 :: C], and every edge joins consecutive ticks of [0 :: C], [C] being
    the ticks with coverage so far. *)
Definition gapless (C : list Z) (st : DiGraph * list Node) : Prop :=
  (forall n, In n (snd st) -> exists front, 0%Z :: C = front ++ [snd n])
  /\ (forall u x w, In (u, x, w) (edges (fst st)) ->
        consecutive (0%Z :: C) (snd u) (snd x)).

Lemma rsu_step_gapless C t last_nodes st future_pos rsu :
  (forall n, In n last_nodes -> exists front, 0%Z :: C = front ++ [snd n]) ->
  gapless (C ++ [t]) st ->
  gapless (C ++ [t]) (ChandlerBAware.rsu_step future_pos t last_nodes st rsu).
Proof.
  intros Hlast Hg. destruct st as [G current]. unfold ChandlerBAware.rsu_step.
  destruct (Rleb (distance_to future_pos rsu) 400); [| exact Hg].
  cbv zeta. destruct Hg as [Hcur Hedges]. cbn [fst snd] in *.
  split; cbn [fst snd].
  - intros n H. apply set_add_spec in H. destruct H as [-> | H]; [| apply Hcur; assumption].
    exists (0%Z :: C). reflexivity.
  - intros u x w H. apply add_edges_edges in H. destruct H as [H | (n & Hn & Heq)].
    + apply Hedges with (w := w). exact H.
    + inversion Heq; subst. destruct (Hlast n Hn) as [front Hfront].
      exists front, []. cbn [snd].
      change (0%Z :: C ++ [t]) with ((0%Z :: C) ++ [t]). rewrite Hfront.
      rewrite <- app_assoc. reflexivity.
Qed.

Lemma rsu_steps_gapless C t last_nodes future_pos rs : forall st,
  (forall n, In n last_nodes -> exists front, 0%Z :: C = front ++ [snd n]) ->
  gapless (C ++ [t]) st ->
  gapless (C ++ [t]) (fold_left (ChandlerBAware.rsu_step future_pos t last_nodes) rs st).
Proof.
  induction rs as [| rsu rest IH]; intros st Hlast Hg; cbn [fold_left]; [assumption |].
  apply IH; [assumption |]. apply rsu_step_gapless; assumption.
Qed.

Lemma rsu_step_keeps_current future_pos t last_nodes st rsu :
  snd st <> [] -> snd (ChandlerBAware.rsu_step future_pos t last_nodes st rsu) <> [].
Proof.
  destruct st as [G current]. unfold ChandlerBAware.rsu_step.
  destruct (Rleb (distance_to future_pos rsu) 400); [| auto].
  cbv zeta. cbn [snd]. intros Hne. unfold set_add.
  destruct (existsb _ current); [assumption |]. destruct current; discriminate.
Qed.

Lemma rsu_steps_keep_current future_pos t last_nodes rs : forall st,
  snd st <> [] ->
  snd (fold_left (ChandlerBAware.rsu_step future_pos t last_nodes) rs st) <> [].
Proof.
  induction rs as [| rsu rest IH]; intros st Hne; cbn [fold_left]; [assumption |].
  apply IH. apply rsu_step_keeps_current. assumption.
Qed.

Lemma rsu_steps_covered future_pos t last_nodes rs : forall st,
  existsb (fun rsu => Rleb (distance_to future_pos rsu) 400) rs = true ->
  snd (fold_left (ChandlerBAware.rsu_step future_pos t last_nodes) rs st) <> [].
Proof.
  induction rs as [| rsu rest IH]; intros st; cbn [existsb fold_left]; [discriminate |].
  destruct (Rleb (distance_to future_pos rsu) 400) eqn:E; cbn [orb].
  - intros _. apply rsu_steps_keep_current.
    destruct st as [G current]. unfold ChandlerBAware.rsu_step. rewrite E.
    cbv zeta. cbn [snd]. unfold set_add.
    destruct (existsb _ current) eqn:Ex; [| destruct current; discriminate].
    destruct current; [discriminate Ex | discriminate].
  - intros H. apply IH. assumption.
Qed.

Lemma tick_step_gapless C st t :
  gapless C st ->
  gapless (if covered_at traci vehicle_id rsus timestep t then C ++ [t] else C)
          (ChandlerBAware.tick_step traci vehicle_id rsus timestep st t).
Proof.
  intros Hg. destruct st as [G last_nodes].
  destruct (covered_at traci vehicle_id rsus timestep t) eqn:E.
  - unfold ChandlerBAware.tick_step. cbv zeta.
    set (future_pos := ChandlerBAware.predict_future_position traci vehicle_id
                         (IZR t * timestep)).
    destruct Hg as [Hlast Hedges]. cbn [fst snd] in *.
    assert (Hinit : gapless (C ++ [t]) (G, [])).
    { split; cbn [fst snd]; [intros n [] |].
      intros u x w H. change (0%Z :: C ++ [t]) with ((0%Z :: C) ++ [t]).
      apply consecutive_app. apply Hedges with (w := w). exact H. }
    pose proof (rsu_steps_gapless C t last_nodes future_pos rsus (G, []) Hlast Hinit)
      as Hfin.
    pose proof (rsu_steps_covered future_pos t last_nodes rsus (G, []) E) as Hne.
    destruct (fold_left _ rsus (G, [])) as [G' current]. cbn [snd] in Hne.
    destruct current as [| c rest]; [congruence |]. exact Hfin.
  - rewrite tick_step_out_of_range; [exact Hg |].
    intros rsu Hin. unfold covered_at in E.
    destruct (Rlt_le_dec 400 (dag_distance_at traci vehicle_id timestep rsu t))
      as [| Hle]; [assumption |].
    exfalso. assert (Ht : existsb
      (fun rsu => Rleb (dag_distance_at traci vehicle_id timestep rsu t) 400) rsus = true).
    { apply existsb_exists. exists rsu. split; [assumption | apply Rleb_true; assumption]. }
    congruence.
Qed.

Lemma ticks_gapless ts : forall C st,
  gapless C st ->
  gapless (C ++ filter (covered_at traci vehicle_id rsus timestep) ts)
          (fold_left (ChandlerBAware.tick_step traci vehicle_id rsus timestep) ts st).
Proof.
  induction ts as [| t rest IH]; intros C st Hg; cbn [fold_left filter].
  - rewrite app_nil_r. assumption.
  - pose proof (tick_step_gapless C st t Hg) as Hstep.
    destruct (covered_at traci vehicle_id rsus timestep t).
    + replace (C ++ t :: filter (covered_at traci vehicle_id rsus timestep) rest)
        with ((C ++ [t]) ++ filter (covered_at traci vehicle_id rsus timestep) rest)
        by (rewrite <- app_assoc; reflexivity).
      apply IH. assumption.
    + apply IH. assumption.
Qed.

(** The edges of the finished graph join consecutive ticks of
    [0 :: covered ticks ++ [horizon + 1]]. *)
Lemma dag_graph_gapless horizon :
  forall u x w,
    In (u, x, w) (edges (ChandlerBAware.dag_graph traci vehicle_id rsus horizon timestep)) ->
    consecutive
      (0%Z :: filter (covered_at traci vehicle_id rsus timestep) (range2 1 (horizon + 1))
           ++ [(horizon + 1)%Z])
      (snd u) (snd x).
Proof.
  unfold ChandlerBAware.dag_graph, ChandlerBAware.after_ticks.
  pose proof (ticks_gapless (range2 1 (horizon + 1)) []
                (add_node empty_graph ChandlerBAware.start_node,
                 [ChandlerBAware.start_node])) as Hg.
  cbn [app] in Hg.
  set (C := filter (covered_at traci vehicle_id rsus timestep) (range2 1 (horizon + 1)))
    in *.
  destruct (fold_left _ (range2 1 (horizon + 1)) _) as [G last_nodes].
  destruct Hg as [Hlast Hedges].
  { split; cbn [fst snd add_node empty_graph nodes edges].
    - intros n [<- | []]. exists []. reflexivity.
    - intros u x w []. }
  cbn [fst snd] in *. intros u x w H.
  apply add_edges_edges in H. destruct H as [H | (n & Hn & Heq)].
  - change (0%Z :: C ++ [(horizon + 1)%Z]) with ((0%Z :: C) ++ [(horizon + 1)%Z]).
    apply consecutive_app. apply Hedges with (w := w). exact H.
  - inversion Heq; subst. destruct (Hlast n Hn) as [front Hfront].
    exists front, []. cbn [snd].
    change (0%Z :: C ++ [(horizon + 1)%Z]) with ((0%Z :: C) ++ [(horizon + 1)%Z]).
    rewrite Hfront, <- app_assoc. reflexivity.
Qed.

End Gapless.

Lemma covered_ticks_sorted traci vehicle_id rsus timestep horizon :
  (0 <= horizon)%Z ->
  StronglySorted Z.lt
    (0%Z :: filter (covered_at traci vehicle_id rsus timestep) (range2 1 (horizon + 1))
         ++ [(horizon + 1)%Z]).
Proof.
  intros Hh.
  assert (Hin : forall t,
    In t (filter (covered_at traci vehicle_id rsus timestep) (range2 1 (horizon + 1))) ->
    (1 <= t < horizon + 1)%Z).
  { intros t Ht. apply filter_In in Ht. apply range2_in. tauto. }
  constructor.
  - apply sorted_snoc.
    + apply sorted_filter. apply range2_sorted.
    + intros x Hx. apply Hin in Hx. lia.
  - rewrite Forall_forall. intros x Hx. apply in_app_or in Hx.
    destruct Hx as [Hx | [<- | []]]; [apply Hin in Hx |]; lia.
Qed.

Lemma dag_walk_ticks traci vehicle_id rsus horizon timestep p c :
  (0 <= horizon)%Z ->
  walk (ChandlerBAware.dag_graph traci vehicle_id rsus horizon timestep)
       ChandlerBAware.start_node (end_name, (horizon + 1)%Z) p c ->
  map snd p =
  0%Z :: filter (covered_at traci vehicle_id rsus timestep) (range2 1 (horizon + 1))
      ++ [(horizon + 1)%Z].
Proof.
  intros Hh Hw.
  set (C := filter (covered_at traci vehicle_id rsus timestep) (range2 1 (horizon + 1))).
  pose proof (covered_ticks_sorted traci vehicle_id rsus timestep horizon Hh) as Hs.
  fold C in Hs. apply sorted_lt_nodup in Hs.
  destruct (walk_follows_ticks _ (0%Z :: C ++ [(horizon + 1)%Z])
              ChandlerBAware.start_node Hs
              (dag_graph_gapless traci vehicle_id rsus timestep horizon)
              (ex_intro _ _ eq_refl) _ p c Hw) as (q & rest & Hp & HL).
  cbn [snd] in Hp, HL.
  assert (Hsplit : q = 0%Z :: C /\ rest = []).
  { apply (nodup_split_unique (horizon + 1)%Z); [rewrite <- HL; assumption |].
    rewrite <- HL. reflexivity. }
  destruct Hsplit as [-> ->]. rewrite Hp. reflexivity.
Qed.

(** X10.  For a horizon that is not negative, every path from the start
    node to the end node in the graph [construct_dag] builds visits, after
    tick 0 and before tick horizon+1, exactly the ticks 1..horizon at which
    some RSU of the roster is predicted within 400, each once and in
    increasing order: a schedule has an RSU for every tick with coverage and
    leaves out only the ticks without. *)
Theorem path_visits_covered_ticks : forall traci vehicle_id rsus horizon timestep p c,
  (0 <= horizon)%Z ->
  walk (ChandlerBAware.dag_graph traci vehicle_id rsus horizon timestep)
       ChandlerBAware.start_node (end_name, (horizon + 1)%Z) p c ->
  map snd p =
  0%Z :: filter (covered_at traci vehicle_id rsus timestep) (range2 1 (horizon + 1))
      ++ [(horizon + 1)%Z].
Proof.
  intros traci vehicle_id rsus horizon timestep p c.
  apply dag_walk_ticks.
Qed.

(** The vehicle of [crossing_traci] has both RSUs within range at every
    tick 1..10: the schedule that changes from RSU 1 to RSU 2 at tick 5 is a
    path of the graph and visits all ten ticks. *)
Lemma path_visits_covered_ticks_witness :
  map snd crossing_schedule =
  0%Z :: filter (covered_at crossing_traci "veh0" [mkRSU 1 0 0; mkRSU 2 90 0] 1)
                (range2 1 (10 + 1))
      ++ [(10 + 1)%Z].
Proof.
  apply (path_visits_covered_ticks crossing_traci "veh0" [mkRSU 1 0 0; mkRSU 2 90 0] 10 1
           crossing_schedule
           (- (sum_over (potential_datarate crossing_traci "veh0" 1 (mkRSU 1 0 0))
                        (range2 1 5)
               + sum_over (potential_datarate crossing_traci "veh0" 1 (mkRSU 2 90 0))
                          (range2 5 11)))).
  - lia.
  - rewrite crossing_dag_graph by exact crossing_in_range.
    exact (proj1 (two_rsu_walks _ _)).
Defined.


(** ** [run_simulation_b-aware.py]: the strength and the set of obstacles *)

Lemma pow_1_5_mono j k : (j <= k)%nat -> 1.5 ^ j <= 1.5 ^ k.
Proof. intros H. apply Rle_pow; [lra | assumption]. Qed.

Lemma blocking_count_app vehicle_pos rsu l1 l2 :
  blocking_count vehicle_pos rsu (l1 ++ l2)
  = (blocking_count vehicle_pos rsu l1 + blocking_count vehicle_pos rsu l2)%nat.
Proof. unfold blocking_count. rewrite filter_app, length_app. reflexivity. Qed.

Lemma blocking_count_perm vehicle_pos rsu l1 l2 :
  Permutation l1 l2 ->
  blocking_count vehicle_pos rsu l1 = blocking_count vehicle_pos rsu l2.
Proof.
  unfold blocking_count. intros H.
  induction H as [| x l l' _ IH | x y l | l l' l'' _ IH1 _ IH2]; cbn [filter].
  - reflexivity.
  - destruct (BAware.is_blocking_los vehicle_pos rsu x); cbn [List.length]; congruence.
  - destruct (BAware.is_blocking_los vehicle_pos rsu x),
             (BAware.is_blocking_los vehicle_pos rsu y); reflexivity.
  - congruence.
Qed.

(** The strength falls as the number of blocking obstacles grows. *)
Lemma baware_strength_by_count vehicle_pos rsu obstacles obstacles' :
  (blocking_count vehicle_pos rsu obstacles
   <= blocking_count vehicle_pos rsu obstacles')%nat ->
  BAware.calculate_signal_strength vehicle_pos rsu obstacles'
  <= BAware.calculate_signal_strength vehicle_pos rsu obstacles.
Proof.
  intros Hk. rewrite !baware_strength_closed.
  destruct (Reqb (distance_to vehicle_pos rsu) 0); [lra |].
  pose proof (distance_to_nonneg vehicle_pos rsu) as Hd.
  pose proof (pow_1_5_ge_1 (blocking_count vehicle_pos rsu obstacles)) as H1.
  pose proof (pow_1_5_mono _ _ Hk) as H2.
  apply Rle_max_compat_l. apply inv_one_plus_antitone; nra.
Qed.

(** X11.  The blockage-aware strength of [run_simulation_b-aware.py] lies
    in (0, 1]; it does not depend on the order in which the obstacles are
    listed; and further obstacles never raise it. *)
Theorem baware_strength_and_obstacles : forall vehicle_pos rsu obstacles,
  0 < BAware.calculate_signal_strength vehicle_pos rsu obstacles <= 1 /\
  (forall obstacles',
      Permutation obstacles obstacles' ->
      BAware.calculate_signal_strength vehicle_pos rsu obstacles'
      = BAware.calculate_signal_strength vehicle_pos rsu obstacles) /\
  (forall more,
      BAware.calculate_signal_strength vehicle_pos rsu (obstacles ++ more)
      <= BAware.calculate_signal_strength vehicle_pos rsu obstacles
      /\ BAware.calculate_signal_strength vehicle_pos rsu (more ++ obstacles)
         <= BAware.calculate_signal_strength vehicle_pos rsu obstacles).
Proof.
  intros vehicle_pos rsu obstacles. split; [apply baware_strength_pos |]. split.
  - intros obstacles' Hp. apply Rle_antisym; apply baware_strength_by_count;
      rewrite (blocking_count_perm _ _ _ _ Hp); apply Nat.le_refl.
  - intros more. split; apply baware_strength_by_count;
      rewrite blocking_count_app; lia.
Qed.

(** ** [run_chandleraz_simulation_b-aware.py]: strength with obstacle sizes *)

(** Number of obstacles that block the line of sight. *)
Definition chandler_blocking_count (traci : Traci) (vehicle_pos : Pos) (rsu : RSU)
    (obstacles : list string) : nat :=
  List.length
    (filter (fun obstacle =>
               ChandlerBAware.is_blocking_los vehicle_pos rsu
                 (getPosition traci obstacle)
                 (Rmax (getLength traci obstacle) (getWidth traci obstacle)))
            obstacles).

Lemma chandler_effective_distance traci vehicle_pos rsu obstacles : forall d,
  fold_left (ChandlerBAware.obstacle_step traci vehicle_pos rsu) obstacles d =
  d * 1.5 ^ chandler_blocking_count traci vehicle_pos rsu obstacles.
Proof.
  unfold chandler_blocking_count.
  induction obstacles as [| o rest IH]; intros d; cbn [fold_left filter List.length].
  - cbn [pow]. ring.
  - rewrite IH. unfold ChandlerBAware.obstacle_step. cbv zeta.
    destruct (ChandlerBAware.is_blocking_los vehicle_pos rsu (getPosition traci o)
                (Rmax (getLength traci o) (getWidth traci o)));
      cbn [List.length pow]; ring.
Qed.

Lemma chandler_baware_strength_closed traci vehicle_pos rsu obstacles :
  ChandlerBAware.calculate_signal_strength traci vehicle_pos rsu obstacles =
  if Reqb (distance_to vehicle_pos rsu) 0 then 1
  else 1 / (1 + distance_to vehicle_pos rsu *
                 1.5 ^ chandler_blocking_count traci vehicle_pos rsu obstacles).
Proof.
  unfold ChandlerBAware.calculate_signal_strength. cbv zeta.
  rewrite chandler_effective_distance.
  pose proof (distance_to_nonneg vehicle_pos rsu) as Hd.
  pose proof (pow_1_5_ge_1 (chandler_blocking_count traci vehicle_pos rsu obstacles)) as Hk.
  destruct (Reqb (distance_to vehicle_pos rsu) 0) eqn:E.
  - apply Reqb_iff in E. rewrite E, Rmult_0_l. rewrite Rltb_false by lra. reflexivity.
  - assert (distance_to vehicle_pos rsu <> 0)
      by (intros H0; apply Reqb_true in H0; congruence).
    rewrite Rltb_true by nra. apply Rmax_0_inv_one_plus. nra.
Qed.

Lemma chandler_baware_strength_bounds traci vehicle_pos rsu obstacles :
  0 < ChandlerBAware.calculate_signal_strength traci vehicle_pos rsu obstacles <= 1.
Proof.
  rewrite chandler_baware_strength_closed.
  pose proof (distance_to_nonneg vehicle_pos rsu) as Hd.
  pose proof (pow_1_5_ge_1 (chandler_blocking_count traci vehicle_pos rsu obstacles)) as Hk.
  destruct (Reqb (distance_to vehicle_pos rsu) 0); [lra |].
  assert (He : 0 <= distance_to vehicle_pos rsu *
                    1.5 ^ chandler_blocking_count traci vehicle_pos rsu obstacles) by nra.
  split; [apply inv_one_plus_pos | apply inv_one_plus_le_1]; assumption.
Qed.

(** X12.  The strength of [run_chandleraz_simulation_b-aware.py] is 1 at
    distance 0 and otherwise [1/(1 + distance * 1.5^k)], [k] being the number
    of listed obstacles that are nearer to the vehicle than the RSU is and
    nearer than half their larger dimension; it lies in (0, 1].  When every
    obstacle is at least half its larger dimension away from the vehicle, no
    obstacle blocks and the strength is the unobstructed [1/(1 + distance)]. *)
Theorem chandler_baware_strength : forall traci vehicle_pos rsu obstacles,
  let distance := distance_to vehicle_pos rsu in
  let blocks := fun obstacle =>
    Rltb (math_dist vehicle_pos (getPosition traci obstacle))
         (math_dist vehicle_pos (rsu_x rsu, rsu_y rsu))
    && Rltb (math_dist vehicle_pos (getPosition traci obstacle))
            (Rmax (getLength traci obstacle) (getWidth traci obstacle) / 2) in
  ChandlerBAware.calculate_signal_strength traci vehicle_pos rsu obstacles
  = (if Reqb distance 0 then 1
     else 1 / (1 + distance * 1.5 ^ List.length (filter blocks obstacles))) /\
  0 < ChandlerBAware.calculate_signal_strength traci vehicle_pos rsu obstacles <= 1 /\
  ((forall obstacle, In obstacle obstacles ->
      Rmax (getLength traci obstacle) (getWidth traci obstacle) / 2
      <= math_dist vehicle_pos (getPosition traci obstacle)) ->
   ChandlerBAware.calculate_signal_strength traci vehicle_pos rsu obstacles
   = spec_strength distance false 1.5).
Proof.
  intros traci vehicle_pos rsu obstacles distance blocks.
  split; [apply chandler_baware_strength_closed |].
  split; [apply chandler_baware_strength_bounds |].
  intros Hfar. rewrite chandler_baware_strength_closed.
  assert (Hk : chandler_blocking_count traci vehicle_pos rsu obstacles = 0%nat).
  { unfold chandler_blocking_count.
    induction obstacles as [| o rest IH]; cbn [filter]; [reflexivity |].
    unfold ChandlerBAware.is_blocking_los at 1. cbv zeta.
    rewrite (Rltb_false _ (Rmax (getLength traci o) (getWidth traci o) / 2))
      by (apply Hfar; left; reflexivity).
    rewrite andb_false_r. apply IH. intros o' Hin. apply Hfar. right. assumption. }
  rewrite Hk. unfold spec_strength. fold distance.
  destruct (Reqb distance 0); [reflexivity |]. cbv zeta. cbn [pow].
  pose proof (distance_to_nonneg vehicle_pos rsu) as Hd. fold distance in Hd.
  rewrite Rmax_0_inv_one_plus by lra. reflexivity.
Qed.

(** The truck of [obstructed_traci], 5 long, is 50 away from the vehicle at
    (0,0): it does not block the link to the RSU at (100,0). *)
Lemma chandler_baware_strength_witness :
  ChandlerBAware.calculate_signal_strength obstructed_traci (0, 0) rsu_at_100
    ["truck"%string]
  = spec_strength (distance_to (0, 0) rsu_at_100) false 1.5.
Proof.
  apply (proj2 (proj2 (chandler_baware_strength obstructed_traci (0, 0) rsu_at_100
                         ["truck"%string]))).
  intros obstacle _.
  change (getLength obstructed_traci obstacle) with 5.
  change (getWidth obstructed_traci obstacle) with 2.
  change (getPosition obstructed_traci obstacle) with ((50, 0) : Pos).
  rewrite math_dist_same_y. rsolve.
Defined.


(** ** [run_chandleraz_simulation_b-aware.py]: the rows of a schedule *)

Lemma chandler_baware_duration_loop_rollout traci vehicle_id rsu step_size ticks :
  forall duration,
  ChandlerBAware.duration_loop traci vehicle_id rsu step_size ticks duration =
  rollout (fun t => negb (Rltb 400
             (distance_to (ChandlerBAware.predict_future_position traci vehicle_id (IZR t))
                          rsu)))
          step_size ticks duration.
Proof.
  induction ticks as [| t rest IH]; intros duration;
    cbn [ChandlerBAware.duration_loop rollout]; [reflexivity |].
  cbv zeta.
  destruct (Rltb 400 _); cbn [negb]; [reflexivity | apply IH].
Qed.

Lemma chandler_baware_estimate_default traci vehicle_id rsu :
  exists d,
    ChandlerBAware.estimate_connection_duration traci vehicle_id rsu 10 1 = Some d
    /\ (0 <= d <= 10)%Z.
Proof.
  unfold ChandlerBAware.estimate_connection_duration.
  rewrite py_range_step_1, chandler_baware_duration_loop_rollout.
  eexists. split; [reflexivity |].
  pose proof (rollout_range_spec
    (fun t => negb (Rltb 400
       (distance_to (ChandlerBAware.predict_future_position traci vehicle_id (IZR t))
                    rsu))) 10) as H.
  cbv zeta in H. change (10 + 1)%Z with 11%Z in *. lia.
Qed.

Lemma find_rsu_of_roster rsus rsu :
  In rsu rsus ->
  exists r, ChandlerBAware.find_rsu (rsu_name (rsu_id rsu)) rsus = Some r
            /\ In r rsus /\ rsu_id r = rsu_id rsu.
Proof.
  intros Hin. cbn [ChandlerBAware.find_rsu].
  destruct (find (fun r => (rsu_id r =? rsu_id rsu)%Z) rsus) as [r |] eqn:E.
  - apply find_some in E. destruct E as [Hr Hid]. apply Z.eqb_eq in Hid.
    exists r. repeat split; assumption.
  - exfalso. pose proof (find_none _ _ E rsu Hin) as Hn. cbv beta in Hn.
    rewrite Z.eqb_refl in Hn. discriminate.
Qed.

(** The rows written for one node of a schedule: none for the start node
    and the end node, one for the node of an RSU of the roster. *)
Lemma schedule_rows_start_end traci step vehicle_id rsus t :
  ChandlerBAware.schedule_rows traci step vehicle_id rsus (start_name, t) = []
  /\ ChandlerBAware.schedule_rows traci step vehicle_id rsus (end_name, t) = [].
Proof. split; reflexivity. Qed.

Lemma schedule_rows_rsu traci step vehicle_id rsus rsu t :
  In rsu rsus ->
  exists r d,
    ChandlerBAware.find_rsu (rsu_name (rsu_id r)) rsus = Some r /\
    rsu_id r = rsu_id rsu /\ (0 <= d <= 10)%Z /\
    ChandlerBAware.schedule_rows traci step vehicle_id rsus (rsu_name (rsu_id rsu), t)
    = [ChandlerBAware.mkRow step vehicle_id (rsu_id r)
         (ChandlerBAware.calculate_signal_strength traci (getPosition traci vehicle_id) r
            (filter (fun v => negb (String.eqb v vehicle_id)) (getIDList traci)))
         d].
Proof.
  intros Hin. destruct (find_rsu_of_roster rsus rsu Hin) as (r & Hfind & Hr & Hid).
  destruct (chandler_baware_estimate_default traci vehicle_id r) as (d & Hd & Hb).
  exists r, d. split; [rewrite Hid; assumption |].
  split; [assumption |]. split; [assumption |].
  unfold ChandlerBAware.schedule_rows. rewrite Hfind. cbv zeta. rewrite Hd. reflexivity.
Qed.

Lemma walk_nodes G s x p c :
  ranked G -> walk G s x p c -> forall n, In n p -> n = s \/ In n (nodes G).
Proof.
  intros [_ Hedges] H. induction H as [| v x w p c H IH _ He]; intros n Hn.
  - destruct Hn as [<- | []]. left. reflexivity.
  - apply in_app_or in Hn. destruct Hn as [Hn | [<- | []]]; [apply IH; assumption |].
    right. apply (Hedges v x w He).
Qed.

Lemma length_flat_map_count {A B : Type} (f : A -> list B) (g : A -> bool) (l : list A) :
  (forall a, In a l -> List.length (f a) = if g a then 1%nat else 0%nat) ->
  List.length (flat_map f l) = List.length (filter g l).
Proof.
  induction l as [| a l IH]; intros H; cbn [flat_map filter]; [reflexivity |].
  rewrite length_app, H by (left; reflexivity).
  rewrite IH by (intros a' Ha'; apply H; right; assumption).
  destruct (g a); reflexivity.
Qed.

Lemma filter_map_comm {A B : Type} (h : A -> B) (g : B -> bool) (l : list A) :
  filter g (map h l) = map h (filter (fun a => g (h a)) l).
Proof.
  induction l as [| a l IH]; cbn [map filter]; [reflexivity |].
  destruct (g (h a)); cbn [map]; rewrite IH; reflexivity.
Qed.

Lemma filter_all {A : Type} (g : A -> bool) (l : list A) :
  (forall a, In a l -> g a = true) -> filter g l = l.
Proof.
  induction l as [| a l IH]; intros H; cbn [filter]; [reflexivity |].
  rewrite H by (left; reflexivity). rewrite IH; [reflexivity |].
  intros a' Ha'. apply H. right. assumption.
Qed.

(** X13.  For every vehicle and step, [run_chandleraz_simulation_b-aware.py]
    writes one row for every node of the schedule that names an RSU: as many
    rows as there are ticks among 1..10 at which some RSU of the roster is
    predicted within 400.  Every row carries the step, the vehicle, the
    identity of an RSU of the roster that is within range at one of those
    ticks, a strength in (0, 1] computed at the vehicle's current position
    for the first RSU of the roster with that identity, and a duration in
    0..10. *)
Theorem chandler_baware_rows_of_schedule : forall traci step vehicle_id rsus,
  let rows := ChandlerBAware.vehicle_rows traci step vehicle_id rsus in
  List.length rows
  = List.length (filter (covered_at traci vehicle_id rsus 1) (range2 1 11)) /\
  forall row, In row rows ->
    ChandlerBAware.row_step row = step /\
    ChandlerBAware.row_vehicle row = vehicle_id /\
    (exists rsu t,
        In rsu rsus /\ (1 <= t <= 10)%Z /\
        ChandlerBAware.row_rsu row = rsu_id rsu /\
        dag_distance_at traci vehicle_id 1 rsu t <= 400) /\
    (exists rsu,
        ChandlerBAware.find_rsu (rsu_name (ChandlerBAware.row_rsu row)) rsus = Some rsu /\
        ChandlerBAware.row_signal row =
        ChandlerBAware.calculate_signal_strength traci (getPosition traci vehicle_id) rsu
          (filter (fun v => negb (String.eqb v vehicle_id)) (getIDList traci))) /\
    0 < ChandlerBAware.row_signal row <= 1 /\
    (0 <= ChandlerBAware.row_duration row <= 10)%Z.
Proof.
  intros traci step vehicle_id rsus rows.
  destruct (construct_dag_optimal traci vehicle_id rsus 10 1) as (weight & Hwalk & _).
  destruct (dag_graph_ranked traci vehicle_id rsus 10 1) as [Hranked _].
  set (G := ChandlerBAware.dag_graph traci vehicle_id rsus 10 1) in *.
  set (p := ChandlerBAware.construct_dag traci vehicle_id rsus 10 1) in *.
  set (C := filter (covered_at traci vehicle_id rsus 1) (range2 1 (10 + 1))).
  (* the ticks of the schedule *)
  assert (Hticks : map snd p = 0%Z :: C ++ [(10 + 1)%Z])
    by (apply (dag_walk_ticks traci vehicle_id rsus 10 1 p weight); [lia | exact Hwalk]).
  assert (HC : forall t, In t C -> (1 <= t <= 10)%Z).
  { intros t Ht. unfold C in Ht. apply filter_In in Ht. destruct Ht as [Ht _].
    apply range2_in in Ht. lia. }
  (* the nodes of the schedule *)
  assert (Hnode : forall n, In n p ->
    n = ChandlerBAware.start_node \/ n = (end_name, (10 + 1)%Z) \/
    exists rsu t, In rsu rsus /\ (1 <= t <= 10)%Z /\ n = (rsu_name (rsu_id rsu), t) /\
                  dag_distance_at traci vehicle_id 1 rsu t <= 400).
  { intros n Hn. destruct (walk_nodes G _ _ p weight Hranked Hwalk n Hn) as [-> | Hin];
      [left; reflexivity |].
    destruct (dag_graph_built traci vehicle_id rsus 10 1) as (Hnodes & _).
    destruct (Hnodes n Hin) as [-> | [-> | (w & rsu & t & Hr & Ht & -> & Hd & _)]];
      [left; reflexivity | right; left; reflexivity |].
    right. right. exists rsu, t. repeat split; try assumption; lia. }
  split.
  - unfold rows, ChandlerBAware.vehicle_rows. cbv zeta. fold p.
    rewrite (length_flat_map_count _
               (fun n => ((1 <=? snd n) && (snd n <=? 10))%Z) p).
    + rewrite <- (length_map snd).
      rewrite <- (filter_map_comm snd (fun t => ((1 <=? t) && (t <=? 10))%Z)).
      rewrite Hticks. cbn [filter]. change (1 <=? 0)%Z with false. cbn [andb].
      rewrite filter_app. cbn [filter]. change (10 + 1 <=? 10)%Z with false.
      rewrite andb_false_r, app_nil_r.
      rewrite filter_all; [reflexivity |].
      intros t Ht. apply HC in Ht. apply andb_true_iff. split; apply Z.leb_le; lia.
    + intros n Hn.
      destruct (Hnode n Hn) as [-> | [-> | (rsu & t & Hr & Ht & -> & _)]];
        [reflexivity | reflexivity |].
      destruct (schedule_rows_rsu traci step vehicle_id rsus rsu t Hr)
        as (r & d & _ & _ & _ & ->).
      cbn [snd List.length].
      replace ((1 <=? t) && (t <=? 10))%Z with true; [reflexivity |].
      symmetry. apply andb_true_iff. split; apply Z.leb_le; lia.
  - intros row Hrow. unfold rows, ChandlerBAware.vehicle_rows in Hrow. cbv zeta in Hrow.
    fold p in Hrow. apply in_flat_map in Hrow. destruct Hrow as (n & Hn & Hrow).
    destruct (Hnode n Hn) as [-> | [-> | (rsu & t & Hr & Ht & -> & Hd)]];
      [destruct Hrow | destruct Hrow |].
    destruct (schedule_rows_rsu traci step vehicle_id rsus rsu t Hr)
      as (r & d & Hfind & Hid & Hdur & Heq).
    rewrite Heq in Hrow. destruct Hrow as [<- | []].
    cbn [ChandlerBAware.row_step ChandlerBAware.row_vehicle ChandlerBAware.row_rsu
         ChandlerBAware.row_signal ChandlerBAware.row_duration].
    split; [reflexivity |]. split; [reflexivity |]. split; [| split; [| split]].
    + exists rsu, t. repeat split; try assumption; lia.
    + exists r. split; [assumption | reflexivity].
    + apply chandler_baware_strength_bounds.
    + assumption.
Qed.


(** ** [estimate_connection_duration]: the step size *)

Lemma rollout_count viable step_size ticks : forall duration,
  exists k : nat,
    (k <= List.length ticks)%nat /\
    rollout viable step_size ticks duration = (duration + step_size * Z.of_nat k)%Z.
Proof.
  induction ticks as [| t rest IH]; intros duration; cbn [rollout List.length].
  - exists 0%nat. split; lia.
  - destruct (viable t).
    + destruct (IH (duration + step_size)%Z) as (k & Hk & ->).
      exists (S k). split; lia.
    + exists 0%nat. split; lia.
Qed.

(** X14.  [estimate_connection_duration] of [run_simulation_smart.py] and
    its step size.  A step size of 0 raises ([range] rejects it).  For a
    positive step size the estimate is a multiple of the step size, at least
    0 and at most [max(0, max_duration) + step_size - 1]: it can exceed
    [max_duration] by up to [step_size - 1].  For a negative step size the
    estimate never is positive, and is 0 when [max_duration] is not
    negative. *)
Theorem estimate_and_step_size : forall traci vehicle_id rsu max_duration step_size,
  let estimate :=
    Smart.estimate_connection_duration traci vehicle_id rsu max_duration step_size in
  (step_size = 0%Z <-> estimate = None) /\
  ((0 < step_size)%Z ->
   exists k, estimate = Some (step_size * k)%Z /\ (0 <= k)%Z /\
             (step_size * k <= Z.max 0 max_duration + step_size - 1)%Z) /\
  ((step_size < 0)%Z ->
   exists d, estimate = Some d /\ (d <= 0)%Z /\ ((0 <= max_duration)%Z -> d = 0%Z)).
Proof.
  intros traci vehicle_id rsu max_duration step_size estimate.
  unfold estimate, Smart.estimate_connection_duration, py_range.
  split; [| split].
  - destruct (Z.eqb_spec step_size 0) as [-> | Hne].
    + split; reflexivity.
    + split; [contradiction | discriminate].
  - intros Hpos. rewrite (proj2 (Z.eqb_neq step_size 0)) by lia.
    rewrite smart_duration_loop_rollout.
    match goal with |- context [rollout ?v _ ?l 0%Z] =>
      destruct (rollout_count v step_size l 0%Z) as (k & Hk & ->) end.
    exists (Z.of_nat k). split; [f_equal; lia |]. split; [lia |].
    rewrite length_map, length_seq in Hk.
    unfold range_len in Hk. rewrite (proj2 (Z.ltb_lt 0 step_size)) in Hk by lia.
    destruct (Z.ltb_spec 1 (max_duration + 1)) as [Hlt | Hge].
    + replace (max_duration + 1 - 1 - 1)%Z with (max_duration - 1)%Z in Hk by lia.
      pose proof (Z.mul_div_le (max_duration - 1) step_size Hpos) as Hdiv.
      pose proof (Z.div_pos (max_duration - 1) step_size ltac:(lia) Hpos) as Hq.
      assert (Z.of_nat k <= (max_duration - 1) / step_size + 1)%Z by lia.
      nia.
    + assert (k = 0%nat) by lia. subst k. lia.
  - intros Hneg. rewrite (proj2 (Z.eqb_neq step_size 0)) by lia.
    rewrite smart_duration_loop_rollout.
    match goal with |- context [rollout ?v _ ?l 0%Z] =>
      destruct (rollout_count v step_size l 0%Z) as (k & Hk & ->) end.
    eexists. split; [reflexivity |]. split; [nia |].
    intros Hmax. rewrite length_map, length_seq in Hk.
    unfold range_len in Hk. rewrite (proj2 (Z.ltb_ge 0 step_size)) in Hk by lia.
    rewrite (proj2 (Z.ltb_ge (max_duration + 1) 1)) in Hk by lia.
    assert (k = 0%nat) by lia. subst k. lia.
Qed.

(** Step size 3 and bound 10 for the vehicle of [moving_traci]. *)
Lemma estimate_and_step_size_witness :
  exists k,
    Smart.estimate_connection_duration moving_traci "veh0" rsu_near 10 3
    = Some (3 * k)%Z /\ (0 <= k)%Z /\ (3 * k <= Z.max 0 10 + 3 - 1)%Z.
Proof.
  apply (proj1 (proj2 (estimate_and_step_size moving_traci "veh0" rsu_near 10 3))). lia.
Defined.

(** ** Prediction: how far the predicted position can be *)

Lemma sqrt_triangle a b u v :
  sqrt ((a + u) ^ 2 + (b + v) ^ 2) <= sqrt (a ^ 2 + b ^ 2) + sqrt (u ^ 2 + v ^ 2).
Proof.
  assert (Ha : 0 <= a ^ 2 + b ^ 2) by nra.
  assert (Hu : 0 <= u ^ 2 + v ^ 2) by nra.
  pose proof (sqrt_pos (a ^ 2 + b ^ 2)) as HA.
  pose proof (sqrt_pos (u ^ 2 + v ^ 2)) as HU.
  pose proof (sqrt_sqrt _ Ha) as HA2.
  pose proof (sqrt_sqrt _ Hu) as HU2.
  set (A := sqrt (a ^ 2 + b ^ 2)) in *. set (U := sqrt (u ^ 2 + v ^ 2)) in *.
  assert (Hcs : a * u + b * v <= A * U).
  { destruct (Rle_lt_dec (a * u + b * v) (A * U)) as [| Hgt]; [assumption |].
    exfalso.
    assert (H0 : 0 <= A * U) by nra.
    assert (H1 : (A * U) * (A * U) < (a * u + b * v) * (a * u + b * v))
      by (apply Rmult_le_0_lt_compat; lra).
    assert (H2 : (A * U) * (A * U) = (a ^ 2 + b ^ 2) * (u ^ 2 + v ^ 2)).
    { rewrite <- HA2, <- HU2. ring. }
    pose proof (Rle_0_sqr (a * v - b * u)) as H3. unfold Rsqr in H3.
    assert (H4 : (a ^ 2 + b ^ 2) * (u ^ 2 + v ^ 2)
                 = (a * u + b * v) * (a * u + b * v)
                   + (a * v - b * u) * (a * v - b * u)) by ring.
    lra. }
  replace (A + U) with (sqrt ((A + U) * (A + U))) by (apply sqrt_square; lra).
  apply sqrt_le_1_alt.
  replace ((a + u) ^ 2 + (b + v) ^ 2)
    with (a ^ 2 + b ^ 2 + (u ^ 2 + v ^ 2) + 2 * (a * u + b * v)) by ring.
  replace ((A + U) * (A + U)) with (A * A + U * U + 2 * (A * U)) by ring.
  rewrite HA2, HU2. lra.
Qed.

Lemma distance_to_shift p rsu u v :
  Rabs (distance_to (fst p + u, snd p + v) rsu - distance_to p rsu)
  <= sqrt (u ^ 2 + v ^ 2).
Proof.
  unfold distance_to. cbn [fst snd].
  pose proof (sqrt_triangle (fst p - rsu_x rsu) (snd p - rsu_y rsu) u v) as H1.
  pose proof (sqrt_triangle (fst p + u - rsu_x rsu) (snd p + v - rsu_y rsu) (- u) (- v))
    as H2.
  replace (fst p - rsu_x rsu + u) with (fst p + u - rsu_x rsu) in H1 by ring.
  replace (snd p - rsu_y rsu + v) with (snd p + v - rsu_y rsu) in H1 by ring.
  replace (fst p + u - rsu_x rsu + - u) with (fst p - rsu_x rsu) in H2 by ring.
  replace (snd p + v - rsu_y rsu + - v) with (snd p - rsu_y rsu) in H2 by ring.
  replace ((- u) ^ 2 + (- v) ^ 2) with (u ^ 2 + v ^ 2) in H2 by ring.
  apply Rabs_le. lra.
Qed.

Lemma displacement_length s t theta :
  sqrt ((s * t * cos theta) ^ 2 + (s * t * sin theta) ^ 2) = Rabs (s * t).
Proof.
  replace ((s * t * cos theta) ^ 2 + (s * t * sin theta) ^ 2)
    with (Rsqr (s * t) * (Rsqr (sin theta) + Rsqr (cos theta)))
    by (unfold Rsqr; ring).
  rewrite sin2_cos2, Rmult_1_r. apply sqrt_Rsqr_abs.
Qed.

Lemma Rabs_le_bounds x b : Rabs x <= b -> - b <= x <= b.
Proof. unfold Rabs. destruct (Rcase_abs x); lra. Qed.

Lemma smart_distance_drift traci vehicle_id rsu t :
  Rabs (smart_distance_at traci vehicle_id rsu t
        - distance_to (getPosition traci vehicle_id) rsu)
  <= Rabs (getSpeed traci vehicle_id) * Rabs (IZR t).
Proof.
  unfold smart_distance_at, Smart.predict_future_position. cbv zeta.
  rewrite <- Rabs_mult, <- (displacement_length _ _ (radians (getAngle traci vehicle_id))).
  apply distance_to_shift.
Qed.

(** X15.  The prediction of [run_simulation_smart.py] moves the vehicle by
    exactly [|speed * time_ahead|], so the predicted distance to an RSU
    differs from the current distance by at most [|speed| * t] at tick [t].
    Hence a vehicle that cannot leave the range within ten ticks
    ([distance + 10 * |speed| <= 400]) gets the full estimate 10, and a
    vehicle that cannot enter it within one tick
    ([distance - |speed| > 400]) gets 0. *)
Theorem rollout_speed_guarantee : forall traci vehicle_id rsu,
  let speed := getSpeed traci vehicle_id in
  let pos := getPosition traci vehicle_id in
  let distance := distance_to pos rsu in
  (forall angle time_ahead,
      math_dist pos (Smart.predict_future_position pos speed angle time_ahead)
      = Rabs (speed * time_ahead)) /\
  (forall t, Rabs (smart_distance_at traci vehicle_id rsu t - distance)
             <= Rabs speed * Rabs (IZR t)) /\
  (distance + 10 * Rabs speed <= 400 ->
   Smart.estimate_connection_duration traci vehicle_id rsu 10 1 = Some 10%Z) /\
  (400 < distance - Rabs speed ->
   Smart.estimate_connection_duration traci vehicle_id rsu 10 1 = Some 0%Z).
Proof.
  intros traci vehicle_id rsu speed pos distance.
  split; [| split; [| split]].
  - intros angle time_ahead. unfold math_dist, Smart.predict_future_position.
    cbv zeta. cbn [fst snd].
    rewrite <- (displacement_length speed time_ahead (radians angle)).
    f_equal. ring.
  - intros t. apply smart_distance_drift.
  - intros Hin. unfold Smart.estimate_connection_duration.
    rewrite py_range_step_1, smart_duration_loop_rollout. f_equal.
    rewrite rollout_all_viable.
    + reflexivity.
    + intros t Ht. apply range2_in in Ht.
      pose proof (smart_distance_drift traci vehicle_id rsu t) as Hd.
      fold speed in Hd. fold pos in Hd. fold distance in Hd.
      assert (Ht1 : 1 <= IZR t <= 10) by (split; apply IZR_le; lia).
      rewrite (Rabs_right (IZR t)) in Hd by lra.
      pose proof (Rabs_pos speed) as Hs.
      apply Rabs_le_bounds in Hd.
      rewrite Rltb_false; [reflexivity |]. nra.
  - intros Hout. unfold Smart.estimate_connection_duration.
    rewrite py_range_step_1, smart_duration_loop_rollout. f_equal.
    change (range2 1 (10 + 1)) with (1%Z :: range2 2 11).
    cbn [rollout].
    pose proof (smart_distance_drift traci vehicle_id rsu 1) as Hd.
    fold speed in Hd. fold pos in Hd. fold distance in Hd.
    rewrite (Rabs_right 1) in Hd by lra.
    apply Rabs_le_bounds in Hd.
    rewrite Rltb_true by lra. reflexivity.
Qed.

(** The vehicle of [moving_traci], at distance 5 from [rsu_near] with speed
    1, gets the full estimate. *)
Lemma rollout_speed_guarantee_witness :
  Smart.estimate_connection_duration moving_traci "veh0" rsu_near 10 1 = Some 10%Z.
Proof.
  apply (proj1 (proj2 (proj2 (rollout_speed_guarantee moving_traci "veh0" rsu_near)))).
  change (getPosition moving_traci "veh0") with ((0, 0) : Pos).
  change (getSpeed moving_traci "veh0") with 1.
  unfold rsu_near. rewrite distance_same_y. rsolve.
Defined.


(** ** [run_i10west_simulation_smart.py]: distance over speed as duration *)

Lemma i10_smart_strength_pos traci vehicle_pos rsu vehicle_id :
  0 < I10Smart.calculate_signal_strength traci vehicle_pos rsu vehicle_id.
Proof.
  unfold I10Smart.calculate_signal_strength. cbv zeta.
  pose proof (distance_to_nonneg vehicle_pos rsu) as Hd.
  destruct (Reqb (distance_to vehicle_pos rsu) 0); [lra |].
  destruct (I10Smart.is_obstacle_in_los traci vehicle_pos rsu vehicle_id);
    rewrite Rmax_0_inv_one_plus by nra; apply inv_one_plus_pos; nra.
Qed.

(** A standing vehicle: once an RSU is chosen with an infinite score, no
    later RSU replaces it. *)
Lemma i10_smart_standing_loop traci vehicle_id predicted_pos first rest : forall v,
  getSpeed traci vehicle_id = 0 ->
  I10Smart.best_rsu v = Some first -> I10Smart.best_score v = PInf ->
  (exists signal, I10Smart.signal_strength v = Some signal) ->
  I10Smart.connection_duration v = Some PInf ->
  exists signal,
    fold_left (I10Smart.select_step traci vehicle_id predicted_pos) rest v
    = I10Smart.mkVars (Some first) PInf (Some signal) (Some PInf).
Proof.
  induction rest as [| rsu rest IH]; intros v Hs Hb Hsc [sg Hsg] Hd; cbn [fold_left].
  - exists sg. destruct v as [b s g d]. cbn in *. congruence.
  - apply IH; try assumption.
    + unfold I10Smart.select_step, I10Smart.estimate_connection_duration. cbv zeta.
      rewrite Hs, (Reqb_true 0 0) by reflexivity. rewrite Hsc. cbn [xmul].
      rewrite Rltb_true by apply i10_smart_strength_pos. cbn [xgt I10Smart.best_rsu].
      assumption.
    + unfold I10Smart.select_step, I10Smart.estimate_connection_duration. cbv zeta.
      rewrite Hs, (Reqb_true 0 0) by reflexivity. rewrite Hsc. cbn [xmul].
      rewrite Rltb_true by apply i10_smart_strength_pos. cbn [xgt I10Smart.best_score].
      reflexivity.
    + unfold I10Smart.select_step. cbv zeta.
      destruct (xgt _ _); cbn [I10Smart.signal_strength]; eexists; reflexivity.
    + unfold I10Smart.select_step, I10Smart.estimate_connection_duration. cbv zeta.
      rewrite Hs, (Reqb_true 0 0) by reflexivity.
      destruct (xgt _ _); reflexivity.
Qed.

(** A moving vehicle: the score kept is finite, and the RSU kept has a
    positive score. *)
Definition i10_smart_moving_inv (traci : Traci) (vehicle_id : string) (predicted_pos : Pos)
    (seen : list RSU) (v : I10Smart.Vars) : Prop :=
  exists s,
    I10Smart.best_score v = Fin s /\
    ((I10Smart.best_rsu v = None /\ s = 0) \/
     (exists best,
         I10Smart.best_rsu v = Some best /\ In best seen /\ 0 < s /\
         s = I10Smart.calculate_signal_strength traci predicted_pos best vehicle_id
             * (distance_to (getPosition traci vehicle_id) best
                / getSpeed traci vehicle_id))).

Lemma i10_smart_moving_loop traci vehicle_id predicted_pos rest : forall seen v,
  getSpeed traci vehicle_id <> 0 ->
  i10_smart_moving_inv traci vehicle_id predicted_pos seen v ->
  i10_smart_moving_inv traci vehicle_id predicted_pos (seen ++ rest)
    (fold_left (I10Smart.select_step traci vehicle_id predicted_pos) rest v).
Proof.
  induction rest as [| rsu rest IH]; intros seen v Hs Hinv; cbn [fold_left].
  - rewrite app_nil_r. assumption.
  - replace (seen ++ rsu :: rest) with ((seen ++ [rsu]) ++ rest)
      by (rewrite <- app_assoc; reflexivity).
    apply IH; [assumption |].
    destruct Hinv as (s & Hsc & Hcase).
    unfold I10Smart.select_step, I10Smart.estimate_connection_duration. cbv zeta.
    rewrite (Reqb_false _ 0) by assumption. rewrite Hsc. cbn [xmul xgt].
    destruct (Rltb s _) eqn:E.
    + apply Rltb_iff in E. eexists. split; [reflexivity |]. right.
      exists rsu. cbn [I10Smart.best_rsu].
      split; [reflexivity |]. split; [apply in_or_app; right; left; reflexivity |].
      split; [| reflexivity].
      destruct Hcase as [[_ ->] | (b & _ & _ & Hpos & _)]; lra.
    + exists s. cbn [I10Smart.best_score I10Smart.best_rsu]. split; [reflexivity |].
      destruct Hcase as [Hnone | (b & Hb & Hin & Hpos & Heq)]; [left; assumption |].
      right. exists b. split; [assumption |].
      split; [apply in_or_app; left; assumption |]. split; assumption.
Qed.

(** X16.  [run_i10west_simulation_smart.py] takes distance over speed as
    the connection duration, infinite for a standing vehicle.  For a
    standing vehicle every score is infinite, so the row names the first RSU
    of the roster, whatever the positions, with an infinite duration and an
    infinite score.  For a vehicle whose speed is not 0 a row is written
    only when the speed is positive, and the RSU it names is at a positive
    distance from the vehicle: an RSU at the vehicle's own position has
    score 0 and is never chosen. *)
Theorem i10_smart_distance_over_speed : forall traci step vehicle_id rsus,
  (getSpeed traci vehicle_id = 0 ->
   match rsus with
   | [] => I10Smart.vehicle_row traci step vehicle_id rsus = None
   | first :: _ =>
       exists signal,
         I10Smart.vehicle_row traci step vehicle_id rsus
         = Some (I10Smart.mkRow step vehicle_id (rsu_id first) signal PInf PInf)
   end) /\
  (getSpeed traci vehicle_id <> 0 ->
   match I10Smart.vehicle_row traci step vehicle_id rsus with
   | None => True
   | Some row =>
       0 < getSpeed traci vehicle_id /\
       exists best,
         In best rsus /\ I10Smart.row_rsu row = rsu_id best /\
         0 < distance_to (getPosition traci vehicle_id) best /\
         I10Smart.row_score row
         = Fin (I10Smart.calculate_signal_strength traci
                  (I10Smart.predict_future_position traci vehicle_id 2) best vehicle_id
                * (distance_to (getPosition traci vehicle_id) best
                   / getSpeed traci vehicle_id))
   end).
Proof.
  intros traci step vehicle_id rsus. split.
  - intros Hs. destruct rsus as [| first rest]; [reflexivity |].
    unfold I10Smart.vehicle_row, I10Smart.select_rsu. cbv zeta. cbn [fold_left].
    set (predicted_pos := I10Smart.predict_future_position traci vehicle_id 2).
    assert (Hfirst :
      I10Smart.select_step traci vehicle_id predicted_pos
        (I10Smart.mkVars None (Fin 0) None None) first
      = I10Smart.mkVars (Some first) PInf
          (Some (I10Smart.calculate_signal_strength traci predicted_pos first vehicle_id))
          (Some PInf)).
    { unfold I10Smart.select_step, I10Smart.estimate_connection_duration. cbv zeta.
      rewrite Hs, (Reqb_true 0 0) by reflexivity. cbn [xmul].
      rewrite Rltb_true by apply i10_smart_strength_pos. reflexivity. }
    rewrite Hfirst.
    destruct (i10_smart_standing_loop traci vehicle_id predicted_pos first rest
                (I10Smart.mkVars (Some first) PInf
                   (Some (I10Smart.calculate_signal_strength traci predicted_pos first
                            vehicle_id))
                   (Some PInf))
                Hs eq_refl eq_refl (ex_intro _ _ eq_refl) eq_refl) as [signal ->].
    exists signal. reflexivity.
  - intros Hs. unfold I10Smart.vehicle_row, I10Smart.select_rsu. cbv zeta.
    set (predicted_pos := I10Smart.predict_future_position traci vehicle_id 2).
    pose proof (i10_smart_moving_loop traci vehicle_id predicted_pos rsus []
                  (I10Smart.mkVars None (Fin 0) None None) Hs) as Hinv.
    cbn [app] in Hinv.
    destruct (fold_left _ rsus _) as [[best |] score [signal |] [duration |]];
      try exact I.
    destruct Hinv as (s & Hsc & Hcase).
    { exists 0. split; [reflexivity |]. left. split; reflexivity. }
    cbn [I10Smart.best_score I10Smart.best_rsu] in Hsc, Hcase.
    destruct Hcase as [[Hnone _] | (b & Hb & Hin & Hpos & Heq)]; [discriminate |].
    inversion Hb; subst b. clear Hb.
    pose proof (i10_smart_strength_pos traci predicted_pos best vehicle_id) as Hst.
    pose proof (distance_to_nonneg (getPosition traci vehicle_id) best) as Hd.
    set (st := I10Smart.calculate_signal_strength traci predicted_pos best vehicle_id) in *.
    set (d := distance_to (getPosition traci vehicle_id) best) in *.
    set (speed := getSpeed traci vehicle_id) in *.
    assert (Hq : 0 < d / speed).
    { destruct (Rlt_le_dec 0 (d / speed)) as [| Hle]; [assumption |]. exfalso. nra. }
    assert (Hspeed : 0 < speed).
    { destruct (Rlt_le_dec 0 speed) as [| Hle]; [assumption |]. exfalso.
      assert (Hneg : speed < 0) by lra.
      apply Rinv_lt_0_compat in Hneg. unfold Rdiv in Hq. nra. }
    split; [assumption |]. exists best.
    cbn [I10Smart.row_rsu I10Smart.row_score].
    split; [assumption |]. split; [reflexivity |]. split.
    + destruct (Rlt_le_dec 0 d) as [| Hle]; [assumption |]. exfalso.
      assert (d = 0) by lra. unfold Rdiv in Hq. rewrite H in Hq. lra.
    + rewrite Hsc, Heq. reflexivity.
Qed.

(** The standing vehicle of [lone_traci]: the RSU listed first is named,
    although the RSU listed second is nearer. *)
Lemma i10_smart_distance_over_speed_witness :
  exists signal,
    I10Smart.vehicle_row lone_traci 0 "veh0" [rsu_at_100; rsu_near]
    = Some (I10Smart.mkRow 0 "veh0" (rsu_id rsu_at_100) signal PInf PInf).
Proof.
  apply (proj1 (i10_smart_distance_over_speed lone_traci 0 "veh0" [rsu_at_100; rsu_near])).
  reflexivity.
Defined.


(** ** Greedy-Current: how far the chosen RSU can be *)

(** A blocked link at distance [d1] is at least as strong as a clear link at
    distance [d2] only if [d2 <= 5 * d1]. *)
Lemma blocked_beats_clear d1 d2 :
  0 <= d1 -> 0 <= d2 ->
  spec_strength d1 true 5 <= spec_strength d2 false 5 -> d2 <= 5 * d1.
Proof.
  intros H1 H2. unfold spec_strength.
  destruct (Reqb d2 0) eqn:E2; [apply Reqb_iff in E2; lra |].
  assert (Hd2 : d2 <> 0) by (intros H0; apply Reqb_true in H0; congruence).
  cbv zeta. rewrite (Rmax_0_inv_one_plus (d2 * 1)) by lra.
  assert (Hlt : 1 / (1 + d2 * 1) < 1).
  { apply Rlt_le_trans with (1 / (1 + 0)); [| rewrite Rplus_0_r; lra].
    apply inv_one_plus_strict; lra. }
  destruct (Reqb d1 0) eqn:E1; [lra |].
  rewrite (Rmax_0_inv_one_plus (d1 * 5)) by lra.
  intros Hle.
  destruct (Rle_lt_dec d2 (5 * d1)) as [| Hgt]; [assumption |]. exfalso.
  assert (1 / (1 + d2 * 1) < 1 / (1 + d1 * 5)) by (apply inv_one_plus_strict; lra).
  lra.
Qed.

Lemma spec_strength_between d b :
  0 <= d ->
  spec_strength d true 5 <= spec_strength d b 5 <= spec_strength d false 5.
Proof.
  intros Hd. destruct b.
  - split; [lra | apply spec_strength_blocked_le; lra].
  - split; [apply spec_strength_blocked_le; lra | lra].
Qed.

(** X17.  Greedy-Current of [run_simulation_base.py] never chooses an RSU
    more than five times as far away as any RSU of the roster: an
    obstruction divides the strength by less than the factor 5 that it
    applies to the distance, so whatever is obstructed, the chosen RSU is at
    most 5 times farther than the nearest one. *)
Theorem greedy_current_within_factor_5 : forall traci vehicle_id rsus,
  let distance := distance_to (getPosition traci vehicle_id) in
  match Base.select_rsu traci vehicle_id rsus with
  | (Some best_rsu, _) =>
      In best_rsu rsus /\
      forall rsu, In rsu rsus -> distance best_rsu <= 5 * distance rsu
  | (None, _) => rsus = []
  end.
Proof.
  intros traci vehicle_id rsus distance.
  set (strength := fun rsu =>
         Base.calculate_signal_strength traci (getPosition traci vehicle_id)
                                        rsu vehicle_id).
  unfold Base.select_rsu. cbv zeta.
  change (Base.select_step traci (getPosition traci vehicle_id) vehicle_id)
    with (pick RSU strength).
  destruct (fold_pick_spec RSU strength rsus None 0)
    as [[Heq Hle] | (l1 & x & l2 & Hl & Heq & Hlt & H1 & H2)]; rewrite Heq.
  - destruct rsus as [| r rest]; [reflexivity |].
    exfalso. specialize (Hle r (or_introl eq_refl)).
    pose proof (base_strength_pos traci (getPosition traci vehicle_id) r vehicle_id).
    unfold strength in Hle. lra.
  - split; [subst rsus; apply in_or_app; right; left; reflexivity |].
    intros rsu Hin.
    assert (Hmax : strength rsu <= strength x).
    { subst rsus. apply in_app_or in Hin. destruct Hin as [Hin | [<- | Hin]].
      - specialize (H1 rsu Hin). lra.
      - lra.
      - apply H2. assumption. }
    unfold strength in Hmax. rewrite !base_strength_spec in Hmax.
    pose proof (distance_to_nonneg (getPosition traci vehicle_id) rsu) as Hd1.
    pose proof (distance_to_nonneg (getPosition traci vehicle_id) x) as Hd2.
    apply blocked_beats_clear; try assumption.
    pose proof (spec_strength_between _
                  (Base.check_for_obstacles traci (getPosition traci vehicle_id)
                     rsu vehicle_id) Hd1).
    pose proof (spec_strength_between _
                  (Base.check_for_obstacles traci (getPosition traci vehicle_id)
                     x vehicle_id) Hd2).
    unfold distance. lra.
Qed.


(** ** [construct_dag]: what the best schedule is worth *)

(** [potential_datarate] of an RSU at the tick [t]. *)
Definition quality (traci : Traci) (vehicle_id : string) (timestep : R)
    (rsu : RSU) (t : Z) : R :=
  1 / (1 + dag_distance_at traci vehicle_id timestep rsu t).

(** The highest quality among the RSUs of the roster that are within range
    at tick [t]; 0 when there is none. *)
Fixpoint best_quality (traci : Traci) (vehicle_id : string) (timestep : R)
    (rsus : list RSU) (t : Z) : R :=
  match rsus with
  | [] => 0
  | rsu :: rest =>
      if Rleb (dag_distance_at traci vehicle_id timestep rsu t) 400
      then Rmax (quality traci vehicle_id timestep rsu t)
                (best_quality traci vehicle_id timestep rest t)
      else best_quality traci vehicle_id timestep rest t
  end.

(** The sum of the best qualities over the ticks [ts]. *)
Definition quality_sum (traci : Traci) (vehicle_id : string) (timestep : R)
    (rsus : list RSU) (ts : list Z) : R :=
  fold_right (fun t acc => best_quality traci vehicle_id timestep rsus t + acc) 0 ts.

Section BestQuality.
Variables (traci : Traci) (vehicle_id : string) (timestep : R).

Lemma quality_pos rsu t : 0 < quality traci vehicle_id timestep rsu t.
Proof.
  unfold quality. apply inv_one_plus_pos. unfold dag_distance_at.
  apply distance_to_nonneg.
Qed.

Lemma best_quality_nonneg rsus t : 0 <= best_quality traci vehicle_id timestep rsus t.
Proof.
  induction rsus as [| rsu rest IH]; cbn [best_quality]; [lra |].
  destruct (Rleb _ 400); [| assumption].
  apply Rle_trans with (best_quality traci vehicle_id timestep rest t);
    [assumption | apply Rmax_r].
Qed.

Lemma best_quality_ge rsus rsu t :
  In rsu rsus -> dag_distance_at traci vehicle_id timestep rsu t <= 400 ->
  quality traci vehicle_id timestep rsu t <= best_quality traci vehicle_id timestep rsus t.
Proof.
  induction rsus as [| r rest IH]; cbn [In best_quality]; [tauto |].
  intros [-> | Hin] Hd.
  - rewrite Rleb_true by assumption. apply Rmax_l.
  - specialize (IH Hin Hd). destruct (Rleb _ 400); [| assumption].
    apply Rle_trans with (best_quality traci vehicle_id timestep rest t);
      [assumption | apply Rmax_r].
Qed.

Lemma best_quality_uncovered rsus t :
  covered_at traci vehicle_id rsus timestep t = false ->
  best_quality traci vehicle_id timestep rsus t = 0.
Proof.
  unfold covered_at.
  induction rsus as [| r rest IH]; cbn [existsb best_quality]; [reflexivity |].
  destruct (Rleb _ 400); cbn [orb]; [discriminate | exact IH].
Qed.

Lemma best_quality_attained rsus t :
  covered_at traci vehicle_id rsus timestep t = true ->
  exists rsu,
    In rsu rsus /\ dag_distance_at traci vehicle_id timestep rsu t <= 400 /\
    quality traci vehicle_id timestep rsu t = best_quality traci vehicle_id timestep rsus t.
Proof.
  unfold covered_at.
  induction rsus as [| r rest IH]; cbn [existsb best_quality]; [discriminate |].
  destruct (Rleb (dag_distance_at traci vehicle_id timestep r t) 400) eqn:E; cbn [orb].
  - intros _. apply Rleb_iff in E.
    destruct (Rle_lt_dec (best_quality traci vehicle_id timestep rest t)
                         (quality traci vehicle_id timestep r t)) as [Hle | Hlt].
    + exists r. split; [left; reflexivity |]. split; [assumption |].
      symmetry. apply Rmax_left. assumption.
    + destruct (existsb (fun rsu => Rleb (dag_distance_at traci vehicle_id timestep rsu t) 400)
                        rest) eqn:Ec.
      * destruct (IH eq_refl) as (x & Hx & Hd & Hq).
        exists x. split; [right; assumption |]. split; [assumption |].
        rewrite Hq. symmetry. apply Rmax_right. lra.
      * exfalso. pose proof (best_quality_uncovered rest t Ec) as H0.
        pose proof (quality_pos r t). lra.
  - intros H. destruct (IH H) as (x & Hx & Hd & Hq).
    exists x. split; [right; assumption |]. split; assumption.
Qed.

Lemma quality_sum_app rsus l1 l2 :
  quality_sum traci vehicle_id timestep rsus (l1 ++ l2)
  = quality_sum traci vehicle_id timestep rsus l1
    + quality_sum traci vehicle_id timestep rsus l2.
Proof.
  unfold quality_sum. induction l1 as [| t l1 IH]; cbn [app fold_right]; [ring |].
  rewrite IH. ring.
Qed.

End BestQuality.

(** *** No path is better than the sum of the best qualities *)

Lemma walk_weight_bound (G : DiGraph) (bound : Node -> R) (s : Node) :
  (forall u x w, In (u, x, w) (edges G) -> - bound x <= w) ->
  forall x p c, walk G s x p c ->
    exists rest, p = s :: rest /\
                 - fold_right (fun n acc => bound n + acc) 0 rest <= c.
Proof.
  intros Hedges x p c H. induction H as [| v x w p c H IH _ He].
  - exists []. split; [reflexivity |]. cbn [fold_right]. lra.
  - destruct IH as (rest & -> & Hc). exists (rest ++ [x]). split; [reflexivity |].
    rewrite fold_right_app. cbn [fold_right].
    assert (Hsum : forall l a,
      fold_right (fun n acc => bound n + acc) a l
      = fold_right (fun n acc => bound n + acc) 0 l + a).
    { induction l as [| n l IHl]; intros a; cbn [fold_right]; [ring |].
      rewrite IHl. ring. }
    rewrite Hsum. specialize (Hedges v x w He). lra.
Qed.

(** *** The path through the best RSU of every tick *)

Lemma walk_weight_eq G s x p c c' : walk G s x p c -> c = c' -> walk G s x p c'.
Proof. intros H <-. exact H. Qed.

Lemma walk_preserved G G' s x p c :
  walk G s x p c ->
  (forall a b w, In (a, b, w) (edges G) -> In b p -> In (a, b, w) (edges G')) ->
  walk G' s x p c.
Proof.
  intros H. induction H as [| v x w p c H IH _ He]; intros Hk.
  - apply walk_start.
  - apply walk_step with (v := v); [| exact I |].
    + apply IH. intros a b w' Hin Hb. apply Hk; [assumption |].
      apply in_or_app. left. assumption.
    + apply Hk; [assumption |]. apply in_or_app. right. left. reflexivity.
Qed.

Lemma set_weight_keep u v w es a b c :
  In (a, b, c) es -> b <> v \/ c = w -> In (a, b, c) (set_weight u v w es).
Proof.
  induction es as [| [[u' v'] w'] rest IH]; cbn [set_weight In]; [tauto |].
  intros Hin Hok. destruct (node_eqb u u' && node_eqb v v') eqn:E.
  - apply andb_true_iff in E. destruct E as [Eu Ev].
    apply node_eqb_eq in Eu, Ev. subst u' v'.
    destruct Hin as [Heq | Hin]; [| right; assumption].
    inversion Heq; subst. left. destruct Hok as [Hne | ->]; [contradiction | reflexivity].
  - destruct Hin as [Heq | Hin]; [left; assumption | right; apply IH; assumption].
Qed.

Lemma add_edges_keep node w last_nodes : forall G a b c,
  In (a, b, c) (edges G) -> b <> node \/ c = w ->
  In (a, b, c)
     (edges (fold_left (fun G last_node => add_edge G last_node node w) last_nodes G)).
Proof.
  induction last_nodes as [| m rest IH]; intros G a b c Hin Hok; cbn [fold_left];
    [assumption |].
  apply IH; [| assumption].
  unfold add_edge, add_node. cbn [nodes edges]. apply set_weight_keep; assumption.
Qed.

Lemma add_edges_has node w last_nodes : forall G n,
  In n last_nodes ->
  In (n, node, w)
     (edges (fold_left (fun G last_node => add_edge G last_node node w) last_nodes G)).
Proof.
  induction last_nodes as [| m rest IH]; intros G n; cbn [In fold_left]; [tauto |].
  intros [-> | Hin]; [| apply IH; assumption].
  apply add_edges_keep; [| right; reflexivity].
  unfold add_edge, add_node. cbn [nodes edges]. apply set_weight_has.
Qed.

Lemma nodup_ids_distinct (done rest : list RSU) (r r' : RSU) :
  NoDup (map rsu_id (done ++ r' :: rest)) -> In r done -> rsu_id r <> rsu_id r'.
Proof.
  rewrite map_app. cbn [map]. intros Hnd Hin Heq.
  apply NoDup_remove_2 in Hnd. apply Hnd. apply in_or_app. left.
  rewrite <- Heq. apply in_map. assumption.
Qed.

Section BestPath.
Variables (traci : Traci) (vehicle_id : string) (rsus : list RSU) (timestep : R).
Hypothesis distinct_ids : NoDup (map rsu_id rsus).

(** Inside tick [t]: the walk [p] to the node [n] of the live set is still
    there, and every RSU visited so far that is within range has its node in
    [current_nodes], at the end of the walk [p] extended by that node. *)
Definition best_inside (t : Z) (n : Node) (p : list Node) (c : R) (done : list RSU)
    (st : DiGraph * list Node) : Prop :=
  walk (fst st) ChandlerBAware.start_node n p c /\
  forall rsu, In rsu done ->
    dag_distance_at traci vehicle_id timestep rsu t <= 400 ->
    In (rsu_name (rsu_id rsu), t) (snd st) /\
    walk (fst st) ChandlerBAware.start_node (rsu_name (rsu_id rsu), t)
         (p ++ [(rsu_name (rsu_id rsu), t)])
         (c + - quality traci vehicle_id timestep rsu t).

Lemma rsu_steps_best t last_nodes n p c :
  In n last_nodes ->
  (forall m, In m p -> snd m <> t) ->
  forall rest done st,
    rsus = done ++ rest ->
    best_inside t n p c done st ->
    best_inside t n p c rsus
      (fold_left
         (ChandlerBAware.rsu_step
            (ChandlerBAware.predict_future_position traci vehicle_id (IZR t * timestep))
            t last_nodes) rest st).
Proof.
  intros Hn Hp. induction rest as [| r rest IH]; intros done st Hsplit Hinv;
    cbn [fold_left].
  - rewrite app_nil_r in Hsplit. subst done. assumption.
  - apply (IH (done ++ [r])); [rewrite <- app_assoc; assumption |].
    destruct st as [G current]. destruct Hinv as [Hwalk Hdone]. cbn [fst snd] in *.
    unfold ChandlerBAware.rsu_step.
    fold (dag_distance_at traci vehicle_id timestep r t).
    destruct (Rleb (dag_distance_at traci vehicle_id timestep r t) 400) eqn:E.
    + cbv zeta. apply Rleb_iff in E.
      set (node := (rsu_name (rsu_id r), t)).
      set (w := - (1 / (1 + dag_distance_at traci vehicle_id timestep r t))).
      set (G' := fold_left (fun G last_node => add_edge G last_node node w) last_nodes
                           (add_node G node)).
      assert (Hkeep : forall a b c0,
        In (a, b, c0) (edges G) -> b <> node -> In (a, b, c0) (edges G')).
      { intros a b c0 Hin Hne. unfold G'. apply add_edges_keep; [exact Hin | left; exact Hne]. }
      assert (Hwalk' : walk G' ChandlerBAware.start_node n p c).
      { apply (walk_preserved G); [assumption |].
        intros a b c0 Hin Hb. apply Hkeep; [assumption |].
        intros ->. apply (Hp _ Hb). reflexivity. }
      split; cbn [fst snd]; [assumption |].
      intros rsu Hin Hd. apply in_app_or in Hin. destruct Hin as [Hin | [<- | []]].
      * destruct (Hdone rsu Hin Hd) as [Hcur Hw]. split.
        -- apply set_add_spec. right. assumption.
        -- apply (walk_preserved G); [assumption |].
           intros a b c0 Hine Hb. apply Hkeep; [assumption |].
           apply in_app_or in Hb. destruct Hb as [Hb | [<- | []]].
           ++ intros ->. apply (Hp _ Hb). reflexivity.
           ++ unfold node. intros Heq. inversion Heq as [Hid].
              rewrite Hsplit in distinct_ids.
              apply (nodup_ids_distinct done rest rsu r distinct_ids Hin). assumption.
      * split; [apply set_add_spec; left; reflexivity |].
        apply walk_step with (v := n); [assumption | exact I |].
        unfold G'. apply add_edges_has. assumption.
    + split; cbn [fst snd]; [assumption |].
      intros rsu Hin Hd. apply in_app_or in Hin. destruct Hin as [Hin | [<- | []]].
      * apply Hdone; assumption.
      * exfalso. rewrite Rleb_true in E by assumption. discriminate.
Qed.

(** Between two ticks: some node of the live set ends a walk from the start
    node that weighs minus the sum of the best qualities of the ticks with
    coverage so far; the ticks of its nodes are between 0 and [b]. *)
Definition best_so_far (C : list Z) (b : Z) (st : DiGraph * list Node) : Prop :=
  (0 <= b)%Z /\
  exists n p,
    In n (snd st) /\
    walk (fst st) ChandlerBAware.start_node n p
         (- quality_sum traci vehicle_id timestep rsus C) /\
    forall m, In m p -> (0 <= snd m <= b)%Z.

Lemma tick_step_best C b st t :
  (b < t)%Z ->
  best_so_far C b st ->
  best_so_far (if covered_at traci vehicle_id rsus timestep t then C ++ [t] else C) t
              (ChandlerBAware.tick_step traci vehicle_id rsus timestep st t).
Proof.
  intros Hbt (Hb0 & n & p & Hn & Hwalk & Hp). destruct st as [G last_nodes].
  cbn [fst snd] in *. split; [lia |].
  destruct (covered_at traci vehicle_id rsus timestep t) eqn:E.
  - unfold ChandlerBAware.tick_step. cbv zeta.
    pose proof (rsu_steps_best t last_nodes n p
                  (- quality_sum traci vehicle_id timestep rsus C) Hn) as Hfold.
    specialize (Hfold ltac:(intros m Hm; specialize (Hp m Hm); lia) rsus [] (G, []) eq_refl).
    destruct (fold_left _ rsus (G, [])) as [G' current].
    destruct Hfold as [_ Hall].
    { split; cbn [fst snd]; [assumption | intros rsu []]. }
    cbn [fst snd] in Hall.
    destruct (best_quality_attained traci vehicle_id timestep rsus t E)
      as (best & Hbest & Hd & Hq).
    destruct (Hall best Hbest Hd) as [Hcur Hw].
    destruct current as [| c0 rest]; [destruct Hcur |].
    exists (rsu_name (rsu_id best), t), (p ++ [(rsu_name (rsu_id best), t)]).
    cbn [fst snd]. split; [assumption |]. split.
    + apply (walk_weight_eq _ _ _ _ _ _ Hw).
      rewrite quality_sum_app, Hq. unfold quality_sum at 3. cbn [fold_right]. ring.
    + intros m Hm. apply in_app_or in Hm. destruct Hm as [Hm | [<- | []]].
      * specialize (Hp m Hm). lia.
      * cbn [snd]. lia.
  - rewrite tick_step_out_of_range.
    + exists n, p. cbn [fst snd]. split; [assumption |]. split; [assumption |].
      intros m Hm. specialize (Hp m Hm). lia.
    + intros rsu Hin. unfold covered_at in E.
      destruct (Rlt_le_dec 400 (dag_distance_at traci vehicle_id timestep rsu t))
        as [| Hle]; [assumption |].
      exfalso. assert (Ht : existsb
        (fun rsu => Rleb (dag_distance_at traci vehicle_id timestep rsu t) 400) rsus = true).
      { apply existsb_exists. exists rsu. split; [assumption | apply Rleb_true; assumption]. }
      congruence.
Qed.

Lemma ticks_best ts : forall C b st,
  StronglySorted Z.lt ts ->
  (forall t, In t ts -> (b < t)%Z) ->
  best_so_far C b st ->
  exists b',
    (b' = b \/ In b' ts) /\
    best_so_far (C ++ filter (covered_at traci vehicle_id rsus timestep) ts) b'
      (fold_left (ChandlerBAware.tick_step traci vehicle_id rsus timestep) ts st).
Proof.
  induction ts as [| t rest IH]; intros C b st Hsorted Hlt Hinv; cbn [fold_left filter].
  - exists b. split; [left; reflexivity |]. rewrite app_nil_r. assumption.
  - inversion Hsorted as [| ? ? Hrest Hall]; subst. rewrite Forall_forall in Hall.
    pose proof (tick_step_best C b st t (Hlt t (or_introl eq_refl)) Hinv) as Hstep.
    destruct (covered_at traci vehicle_id rsus timestep t).
    + destruct (IH (C ++ [t]) t _ Hrest Hall Hstep) as (b' & Hb' & Hfin).
      exists b'. split; [right; destruct Hb' as [-> | Hb']; [left | right]; auto |].
      rewrite <- app_assoc in Hfin. exact Hfin.
    + destruct (IH C t _ Hrest Hall Hstep) as (b' & Hb' & Hfin).
      exists b'. split; [right; destruct Hb' as [-> | Hb']; [left | right]; auto |].
      exact Hfin.
Qed.

Lemma dag_graph_best_path horizon :
  (0 <= horizon)%Z ->
  exists p,
    walk (ChandlerBAware.dag_graph traci vehicle_id rsus horizon timestep)
         ChandlerBAware.start_node (end_name, (horizon + 1)%Z) p
         (- quality_sum traci vehicle_id timestep rsus
              (filter (covered_at traci vehicle_id rsus timestep)
                      (range2 1 (horizon + 1)))).
Proof.
  intros Hh. unfold ChandlerBAware.dag_graph, ChandlerBAware.after_ticks.
  destruct (ticks_best (range2 1 (horizon + 1)) [] 0%Z
              (add_node empty_graph ChandlerBAware.start_node,
               [ChandlerBAware.start_node])) as (b' & Hb' & Hfin).
  - apply range2_sorted.
  - intros t Ht. apply range2_in in Ht. lia.
  - split; [lia |].
    exists ChandlerBAware.start_node, [ChandlerBAware.start_node]. cbn [fst snd].
    split; [left; reflexivity |]. split.
    + apply (walk_weight_eq _ _ _ _ 0); [apply walk_start |].
      unfold quality_sum. cbn [fold_right]. ring.
    + intros m [<- | []]. unfold ChandlerBAware.start_node. cbn [snd]. lia.
  - cbn [app] in Hfin.
    set (C := filter (covered_at traci vehicle_id rsus timestep) (range2 1 (horizon + 1)))
      in *.
    destruct (fold_left _ (range2 1 (horizon + 1)) _) as [G last_nodes].
    destruct Hfin as (_ & n & p & Hn & Hwalk & Hp). cbn [fst snd] in *. cbv zeta.
    assert (Hb : (b' <= horizon)%Z).
    { destruct Hb' as [-> | Hb']; [assumption |]. apply range2_in in Hb'. lia. }
    set (end_node := (end_name, (horizon + 1)%Z)).
    exists (p ++ [end_node]).
    apply (walk_weight_eq _ _ _ _
             (- quality_sum traci vehicle_id timestep rsus C + 0)); [| ring].
    apply walk_step with (v := n); [| exact I | apply add_edges_has; assumption].
    apply (walk_preserved G); [assumption |].
    intros a b c0 Hin Hb0. apply add_edges_keep; [exact Hin |].
    left. intros ->. specialize (Hp _ Hb0). unfold end_node in Hp. cbn [snd] in Hp. lia.
Qed.

End BestPath.


Lemma sum_bound_by_tick (bound : Node -> R) (g : Z -> R) (l : list Node) :
  (forall n, In n l -> bound n <= g (snd n)) ->
  fold_right (fun n acc => bound n + acc) 0 l
  <= fold_right (fun t acc => g t + acc) 0 (map snd l).
Proof.
  induction l as [| n l IH]; intros H; cbn [map fold_right]; [lra |].
  specialize (H n (or_introl eq_refl)) as Hn.
  assert (Hl : forall m, In m l -> bound m <= g (snd m))
    by (intros m Hm; apply H; right; assumption).
  specialize (IH Hl). lra.
Qed.

Lemma sum_up_to_horizon (f : Z -> R) (horizon : Z) (C : list Z) :
  (forall t, In t C -> (t <= horizon)%Z) ->
  fold_right (fun t acc => (if (t <=? horizon)%Z then f t else 0) + acc) 0
             (C ++ [(horizon + 1)%Z])
  = fold_right (fun t acc => f t + acc) 0 C.
Proof.
  induction C as [| t C IH]; intros HC; cbn [app fold_right].
  - rewrite (proj2 (Z.leb_gt (horizon + 1) horizon)) by lia. ring.
  - rewrite IH by (intros t' Ht'; apply HC; right; assumption).
    rewrite (proj2 (Z.leb_le t horizon)) by (apply HC; left; reflexivity).
    reflexivity.
Qed.

Lemma dag_path_lower_bound traci vehicle_id rsus horizon timestep p c :
  (0 <= horizon)%Z ->
  walk (ChandlerBAware.dag_graph traci vehicle_id rsus horizon timestep)
       ChandlerBAware.start_node (end_name, (horizon + 1)%Z) p c ->
  - quality_sum traci vehicle_id timestep rsus
      (filter (covered_at traci vehicle_id rsus timestep) (range2 1 (horizon + 1)))
  <= c.
Proof.
  intros Hh Hwalk.
  set (G := ChandlerBAware.dag_graph traci vehicle_id rsus horizon timestep) in *.
  set (C := filter (covered_at traci vehicle_id rsus timestep) (range2 1 (horizon + 1))).
  set (bound := fun n : Node =>
         match fst n with
         | rsu_name _ => best_quality traci vehicle_id timestep rsus (snd n)
         | _ => 0
         end).
  set (g := fun t : Z =>
         if (t <=? horizon)%Z then best_quality traci vehicle_id timestep rsus t else 0).
  destruct (dag_graph_built traci vehicle_id rsus horizon timestep) as [Hnodes Hedges].
  fold G in Hnodes, Hedges.
  destruct (dag_graph_ranked traci vehicle_id rsus horizon timestep) as [Hranked _].
  fold G in Hranked.
  assert (Hbound : forall u x w, In (u, x, w) (edges G) -> - bound x <= w).
  { intros u x w Hin. destruct (Hedges u x w Hin) as [[-> ->] | Hcov].
    - unfold bound. cbn [fst]. lra.
    - destruct Hcov as (rsu & t & Hr & Ht & -> & Hd & ->).
      unfold bound. cbn [fst snd].
      pose proof (best_quality_ge traci vehicle_id timestep rsus rsu t Hr Hd) as Hq.
      unfold quality in Hq. lra. }
  destruct (walk_weight_bound G bound ChandlerBAware.start_node Hbound _ p c Hwalk)
    as (rest & Hp & Hc).
  pose proof (dag_walk_ticks traci vehicle_id rsus horizon timestep p c Hh Hwalk) as Hticks.
  fold C in Hticks. rewrite Hp in Hticks. cbn [map] in Hticks.
  assert (Hrest : map snd rest = C ++ [(horizon + 1)%Z]) by congruence.
  assert (Hsum : fold_right (fun n acc => bound n + acc) 0 rest
                 <= fold_right (fun t acc => g t + acc) 0 (map snd rest)).
  { apply sum_bound_by_tick. intros n Hn.
    assert (Hin : In n p) by (rewrite Hp; right; assumption).
    unfold bound, g. destruct n as [name t]. cbn [fst snd].
    destruct name as [| | i];
      try (destruct (t <=? horizon)%Z; [apply best_quality_nonneg | lra]).
    destruct (Z.leb_spec t horizon) as [| Hgt]; [lra |]. exfalso.
    destruct (walk_nodes G _ _ p c Hranked Hwalk _ Hin) as [Heq | Hnode];
      [discriminate |].
    destruct (Hnodes _ Hnode) as [Heq | [Heq | (w & rsu & t' & _ & Ht' & Heq & _)]];
      try discriminate.
    inversion Heq; subst. lia. }
  assert (Hg : fold_right (fun t acc => g t + acc) 0 (C ++ [(horizon + 1)%Z])
               = quality_sum traci vehicle_id timestep rsus C).
  { unfold quality_sum, g. apply sum_up_to_horizon.
    intros t Ht. unfold C in Ht. apply filter_In in Ht. destruct Ht as [Ht _].
    apply range2_in in Ht. lia. }
  rewrite Hrest, Hg in Hsum. lra.
Qed.

(** X18.  What the best schedule of [construct_dag] is worth.  For a
    horizon that is not negative and a roster without repeated identities,
    no path from the start node to the end node weighs less than minus the
    sum, over the ticks 1..horizon with coverage, of the highest quality
    [1/(1+distance)] among the RSUs within range at that tick, and some path
    weighs exactly that: the best schedule is as good as choosing the nearest
    RSU at every tick separately. *)
Theorem horizon_optimum_is_tickwise_best :
  forall traci vehicle_id rsus horizon timestep,
  (0 <= horizon)%Z ->
  NoDup (map rsu_id rsus) ->
  let G := ChandlerBAware.dag_graph traci vehicle_id rsus horizon timestep in
  let end_node := (end_name, (horizon + 1)%Z) in
  let best :=
    - quality_sum traci vehicle_id timestep rsus
        (filter (covered_at traci vehicle_id rsus timestep) (range2 1 (horizon + 1))) in
  (forall p c, walk G ChandlerBAware.start_node end_node p c -> best <= c) /\
  (exists p, walk G ChandlerBAware.start_node end_node p best).
Proof.
  intros traci vehicle_id rsus horizon timestep Hh Hids G end_node best. split.
  - intros p c Hwalk. apply (dag_path_lower_bound _ _ _ _ _ p); assumption.
  - apply dag_graph_best_path; assumption.
Qed.

(** The vehicle of [crossing_traci] has the RSUs 1 and 2 within range at
    every tick 1..10. *)
Lemma horizon_optimum_is_tickwise_best_witness :
  let rsus := [mkRSU 1 0 0; mkRSU 2 90 0] in
  let G := ChandlerBAware.dag_graph crossing_traci "veh0" rsus 10 1 in
  let end_node := (end_name, (10 + 1)%Z) in
  let best :=
    - quality_sum crossing_traci "veh0" 1 rsus
        (filter (covered_at crossing_traci "veh0" rsus 1) (range2 1 (10 + 1))) in
  (forall p c, walk G ChandlerBAware.start_node end_node p c -> best <= c) /\
  (exists p, walk G ChandlerBAware.start_node end_node p best).
Proof.
  apply (horizon_optimum_is_tickwise_best crossing_traci "veh0"
           [mkRSU 1 0 0; mkRSU 2 90 0] 10 1).
  - lia.
  - cbn [map rsu_id]. constructor.
    + intros [H | []]. discriminate H.
    + constructor; [intros [] | constructor].
Defined.


(** ** The estimate and its bound [max_duration] *)

(** X19.  With step size 1, the estimate of [run_simulation_smart.py] for a
    bound [max_duration] is the estimate for any larger bound, cut off at
    [max_duration]: raising the bound never changes what was counted
    before. *)
Theorem estimate_is_capped : forall traci vehicle_id rsu max_duration larger,
  (0 <= max_duration <= larger)%Z ->
  exists d d',
    Smart.estimate_connection_duration traci vehicle_id rsu max_duration 1 = Some d /\
    Smart.estimate_connection_duration traci vehicle_id rsu larger 1 = Some d' /\
    d = Z.min max_duration d'.
Proof.
  intros traci vehicle_id rsu m m' Hm.
  unfold Smart.estimate_connection_duration.
  rewrite !py_range_step_1, !smart_duration_loop_rollout.
  set (viable := fun t => negb (Rltb 400 (smart_distance_at traci vehicle_id rsu t))).
  destruct (rollout_range_spec viable m) as (Hb & Hv & Hstop).
  destruct (rollout_range_spec viable m') as (Hb' & Hv' & Hstop').
  set (d := rollout viable 1 (range2 1 (m + 1)) 0) in *.
  set (d' := rollout viable 1 (range2 1 (m' + 1)) 0) in *.
  exists d, d'. split; [reflexivity |]. split; [reflexivity |].
  destruct (Z_lt_le_dec d' m) as [Hlt | Hge].
  - assert (Hnot : viable (d' + 1)%Z = false) by (apply Hstop'; lia).
    assert (Hle : (d <= d')%Z).
    { destruct (Z_lt_le_dec d' d) as [Hgt |]; [| assumption].
      rewrite Hv in Hnot by lia. discriminate. }
    assert (Hge : (d' <= d)%Z).
    { destruct (Z_lt_le_dec d d') as [Hgt |]; [| assumption].
      assert (viable (d + 1)%Z = false) by (apply Hstop; lia).
      rewrite Hv' in H by lia. discriminate. }
    lia.
  - destruct (Z_lt_le_dec d m) as [Hlt |]; [| lia].
    assert (viable (d + 1)%Z = false) by (apply Hstop; lia).
    rewrite Hv' in H by lia. discriminate.
Qed.

Lemma estimate_is_capped_witness :
  exists d d',
    Smart.estimate_connection_duration moving_traci "veh0" rsu_near 5 1 = Some d /\
    Smart.estimate_connection_duration moving_traci "veh0" rsu_near 10 1 = Some d' /\
    d = Z.min 5 d'.
Proof.
  apply (estimate_is_capped moving_traci "veh0" rsu_near 5 10). lia.
Defined.


(** ** [run_chandleraz_simulation_base.py]: the nearest RSU wins *)

(** X20.  In [run_chandleraz_simulation_base.py] a listed vehicle whose
    length and width are not negative lies in its own widened box, so every
    strength is the blocked value and the selection returns the first RSU of
    the roster at the smallest distance, with the strength
    [1/(1 + 5 * distance)] (1 at distance 0). *)
Theorem chandler_base_selects_nearest : forall traci vehicle_id rsus,
  In vehicle_id (getIDList traci) ->
  0 <= getLength traci vehicle_id ->
  0 <= getWidth traci vehicle_id ->
  let distance := distance_to (getPosition traci vehicle_id) in
  match ChandlerBase.select_rsu traci vehicle_id rsus with
  | (None, _) => rsus = []
  | (Some best_rsu, best_signal) =>
      best_signal = spec_strength (distance best_rsu) true 5 /\
      exists before after,
        rsus = before ++ best_rsu :: after /\
        (forall rsu, In rsu before -> distance best_rsu < distance rsu) /\
        (forall rsu, In rsu after -> distance best_rsu <= distance rsu)
  end.
Proof.
  intros traci vehicle_id rsus Hin Hl Hw distance.
  assert (Hstrength : forall rsu,
    ChandlerBase.calculate_signal_strength traci (getPosition traci vehicle_id) rsu
    = spec_strength (distance rsu) true 5).
  { intros rsu. rewrite chandler_base_strength_spec.
    unfold ChandlerBase.check_for_obstacles.
    rewrite (chandler_base_blocked_by traci _ rsu vehicle_id); [reflexivity | assumption |].
    apply widened_box_contains_box; [assumption | assumption | apply in_los_box_self]. }
  unfold ChandlerBase.select_rsu. cbv zeta.
  change (ChandlerBase.select_step traci (getPosition traci vehicle_id))
    with (pick RSU (ChandlerBase.calculate_signal_strength traci
                      (getPosition traci vehicle_id))).
  destruct (fold_pick_spec RSU
              (ChandlerBase.calculate_signal_strength traci (getPosition traci vehicle_id))
              rsus None 0)
    as [[Heq Hle] | (l1 & x & l2 & Hsplit & Heq & Hlt & H1 & H2)]; rewrite Heq.
  - destruct rsus as [| r rest]; [reflexivity |].
    exfalso. specialize (Hle r (or_introl eq_refl)). rewrite Hstrength in Hle.
    pose proof (spec_strength_pos (distance r) true 5
                  (distance_to_nonneg _ _) ltac:(lra)).
    lra.
  - split; [apply Hstrength |].
    exists l1, l2. split; [assumption |].
    apply (first_max_is_first_nearest (fun d => spec_strength d true 5) distance).
    + intros a b Ha Hab. apply spec_strength_strict; lra.
    + intros rsu. apply distance_to_nonneg.
    + intros rsu Hr. rewrite <- !Hstrength. apply H1. assumption.
    + intros rsu Hr. rewrite <- !Hstrength. apply H2. assumption.
Qed.

Lemma chandler_base_selects_nearest_witness :
  match ChandlerBase.select_rsu lone_traci "veh0" [rsu_at_100; rsu_near] with
  | (None, _) => [rsu_at_100; rsu_near] = []
  | (Some best_rsu, best_signal) =>
      best_signal
      = spec_strength (distance_to (getPosition lone_traci "veh0") best_rsu) true 5 /\
      exists before after,
        [rsu_at_100; rsu_near] = before ++ best_rsu :: after /\
        (forall rsu, In rsu before ->
           distance_to (getPosition lone_traci "veh0") best_rsu
           < distance_to (getPosition lone_traci "veh0") rsu) /\
        (forall rsu, In rsu after ->
           distance_to (getPosition lone_traci "veh0") best_rsu
           <= distance_to (getPosition lone_traci "veh0") rsu)
  end.
Proof.
  apply (chandler_base_selects_nearest lone_traci "veh0" [rsu_at_100; rsu_near]).
  - left. reflexivity.
  - change (getLength lone_traci "veh0") with 5. lra.
  - change (getWidth lone_traci "veh0") with 2. lra.
Defined.


(** ** Trajectory prediction and the kinematic state *)





